(** * SmartRoute frontend: live GPS tracking, map synchronisation and
      route-overlay lifecycle

    A shallow embedding of the browser modules

      - [Backend/static/js/geolocation.js]  (module [Geolocation])
      - [Backend/static/js/map_utils.js]    (module [MapUtils])
      - [Backend/static/js/route_logic.js]  (module [RouteLogic])
      - [Backend/static/js/events.js]       (module [Events])
      - the legacy [static/js/route_logic.js] (modules [Legacy], [LegacyPage])

    The JavaScript modules share mutable module-level state and call into
    the browser (geolocation, DOM, fetch) and into OpenLayers.  All of it
    is threaded explicitly through one [World] value by a small
    state-and-exception monad [M]; every observable call (status text,
    viewport moves, network requests) is appended to the world's [trace]. *)

From Stdlib Require Import QArith ZArith Ascii String List Bool Lia.
From stdpp Require Import gmap.
Close Scope Q_scope.
Local Open Scope string_scope.
Local Set Warnings "-register-all".

(* ----------------------------------------------------------------- *)
(** ** JavaScript values and their coercions *)

Module JS.

(** The values that reach the variables modelled below.  Finite numbers
    are rationals; [VNaN] stands for the one number no comparison
    accepts; [VFunction] is a function object such as a DOM interface
    constructor. *)
Inductive value :=
| VUndefined
| VNull
| VBool (b : bool)
| VNum (q : Q)
| VNaN
| VFunction (name : string).

(** ToBoolean. *)
Definition truthy (v : value) : bool :=
  match v with
  | VUndefined | VNull | VNaN => false
  | VBool b => b
  | VNum q => negb (Qeq_bool q 0)
  | VFunction _ => true
  end.

(** ToNumber; [None] is NaN. *)
Definition to_number (v : value) : option Q :=
  match v with
  | VUndefined | VNaN | VFunction _ => None
  | VNull => Some 0%Q
  | VBool b => Some (if b then 1%Q else 0%Q)
  | VNum q => Some q
  end.

(** [a > b] on rationals. *)
Definition Qgt_bool (a b : Q) : bool := negb (Qle_bool a b).

(** [v > q] with a number on the right: false as soon as the left
    operand converts to NaN. *)
Definition gt (v : value) (q : Q) : bool :=
  match to_number v with
  | Some x => Qgt_bool x q
  | None => false
  end.

(** [!v] *)
Definition not (v : value) : value := VBool (negb (truthy v)).

Inductive error :=
| TypeError (what : string)
| ReferenceError (name : string)
| Error_ (what : string).

End JS.
Export JS.

(* ----------------------------------------------------------------- *)
(** ** Data model *)

(** [[lon, lat]] as stored by [setCurrentPos]. *)
Definition LonLatPair := (Q * Q)%type.

(** [{ lon, lat }] as stored by [setOriginCoords]/[setDestinationCoords]. *)
Record LonLat := { lon : Q; lat : Q }.

(** A coordinate in the view projection (EPSG:3857). *)
Definition Coord := (Q * Q)%type.

(** [pos.coords] of a sensor callback. *)
Record Position := { latitude : Q; longitude : Q; accuracy : Q }.

(** A piece of JSON as it comes back from the routing collaborator. *)
Inductive json :=
| JNull
| JNumber (q : Q)
| JString (s : string)
| JArray (l : list json).

(** How a feature object was built; fixed for the life of the object. *)
Inductive FeatureKind :=
| PositionMarker
| AccuracyCircle
| OriginPin                        (* name: 'Origem' *)
| DestinationPin                   (* name: 'Destino' *)
| RouteLine (visible : bool)       (* routeStyle, or the transparent stroke *)
| TrafficSegment (idx : nat)       (* name: `Traffic_Segment_${idx}` *)
| Incident (idx : nat).            (* name: `Incident_${idx}` *)

(** An [ol.Feature] object: its identity and how it was built.  The
    geometry, the one attribute the code mutates, lives in
    [ol_geometry]. *)
Record Feature := { uid : nat; kind : FeatureKind }.

(** [{ type, coordinates }] of a GeoJSON feature; a missing member is
    [None]. *)
Record GGeometry := { gtype : option string; coordinates : option json }.

(** The [properties] the code reads. *)
Record GProperties := {
  feature_type : option string;
  p_distance : option Q;
  p_duration : option Q;
  p_summary_distance : option Q;     (* properties.summary?.distance *)
  p_summary_duration : option Q }.

Record GFeature := { properties : option GProperties; geometry : option GGeometry }.

(** The parsed response body; [features] is [None] when the member is
    missing or null. *)
Record GeoJSON := { features : option (list GFeature) }.

(** Geometries of [ol.Feature] objects.  A coordinate that came out of
    [parseFloat] as NaN is [None]. *)
Inductive Geometry :=
| Point (c : Coord)
| Circle (c : Coord) (radius : Q)
| Segment (a b : option Coord)     (* new ol.geom.LineString([start, end]) *)
| Pin (c : option Coord)           (* new ol.geom.Point(fromLonLat(coords)) *)
| FromGeoJSON (g : GGeometry).     (* read by ol.format.GeoJSON *)

Record View := { center : Coord; zoom : Q }.

(** A template literal: literal text and [x.toFixed(d)] holes. *)
Inductive part :=
| Str (s : string)
| Fixed (digits : nat) (q : Q)
| Rounded (q : Q).                 (* Math.round(q) *)
Definition message := list part.

(** [{ avoid: [...], prefer: [...] }] *)
Record Constraints := { avoid : list string; prefer : list string }.

(** Body of the POST to the routing endpoint. *)
Record RouteRequest := {
  req_origin : LonLat;
  req_destination : LonLat;
  req_constraints : option Constraints }.

(** Everything the code does that an observer outside it can see. *)
Inductive event :=
| UpdateStatus (m : message)                 (* updateStatus(text) *)
| ShowMessage (m : message) (level : string) (* showMessage(text, level) *)
| SetCenter (c : Coord)                      (* view.setCenter *)
| SetZoom (z : Q)                            (* view.setZoom *)
| ViewFit (f : Feature)                      (* view.fit(extent of f) *)
| ButtonText (id text : string)              (* el.textContent = text *)
| WatchPosition (id : Z)                     (* navigator.geolocation.watchPosition *)
| ClearWatch (id : value)                    (* navigator.geolocation.clearWatch *)
| CallGeocode (address : string)             (* geocodeAddress(address) *)
| Fetch (r : RouteRequest)                   (* fetch(route endpoint) *)
| OptimizationStatus (m : message) (level : string) (* showOptimizationStatus *)
| TrafficLegend                              (* displayTrafficLegend wrote the legend *)
| SessionExpired                             (* postMessage({type: 'SESSION_EXPIRED'}) *)
| OnceMapReady (what : string)               (* addEventListener('mapReady', ..., {once}) *)
| Console (level : string) (m : message).    (* console.warn / console.error *)

(** Modelled from the spec: [map_data.js] is not among the sources.  Its
    exports are the accessors of the "Position Store", "a pure
    accessor/mutator set" where "no operation fails; all setters are
    total": each getter reads, and each setter overwrites, one
    module-level variable.  The three records below are those variables. *)
Record GpsStore := {
  markerFeature : option Feature;
  accuracyFeature : option Feature;
  following : value;
  currentPos : option LonLatPair;
  currentAccuracy : value;
  watchId : value }.

Record RouteStore := {
  rotatual : option Feature;
  originMarker : option Feature;
  destinationMarker : option Feature;
  originCoords : option LonLat;
  destinationCoords : option LonLat }.

Record MapStore := {
  mapInstance : option View;             (* undefined until 'rendercomplete' *)
  vectorSource : option (list Feature);  (* features of the vector source *)
  apiBaseUrl : option string }.

Record World := {
  gps : GpsStore;
  route : RouteStore;
  mapd : MapStore;
  hasInitialFix : bool;                (* geolocation.js *)
  trafficFeatures : list Feature;      (* map_utils.js *)
  incidentFeatures : list Feature;     (* map_utils.js *)
  ol_next_uid : nat;                   (* OpenLayers: next feature uid *)
  ol_geometry : gmap nat Geometry;     (* OpenLayers: geometry of each feature *)
  watches : list (Z * bool);           (* navigator: live watches, each with the
                                          [forceInitialCenter] its callback closes over *)
  next_watch : positive;               (* navigator: next id to hand out *)
  trace : list event }.                (* observable calls, latest first *)

(** What the page runs in. *)
Record Browser := {
  (** ['geolocation' in navigator] *)
  has_geolocation : bool;
  (** the global binding [FontFaceSetLoadEvent]; [None] when the browser
      does not define it *)
  global_FontFaceSetLoadEvent : option value;
  (** [document.getElementById('btn-follow')] finds an element *)
  has_btn_follow : bool;
  (** the page has both [#traffic-legend] and [#incident-summary] *)
  has_legend_elements : bool;
  (** OpenLayers' [removeFeature] raises on a feature that is not in the
      source (releases differ) *)
  removeFeature_strict : bool;
  (** [ol.format.GeoJSON] reads a geometry of a GeoJSON type without
      raising (one that has no [coordinates], for one, it does not read) *)
  reads_geometry : GGeometry -> bool;
  (** the extent of a geometry it has read is empty, which [view.fit]
      refuses with an exception (a [LineString] of no points, for one) *)
  empty_extent : GGeometry -> bool;
  (** [ol.proj.fromLonLat] *)
  fromLonLat : LonLatPair -> Coord;
  (** [parseFloat] on what is not a number, [None] for NaN *)
  parseFloat_text : json -> option Q }.

(* ----------------------------------------------------------------- *)
(** ** The state-and-exception monad *)

Inductive outcome (A : Type) :=
| Ok (a : A)
| Throw (e : error).
Arguments Ok {A} a.
Arguments Throw {A} e.

Definition M (A : Type) : Type := World -> outcome A * World.

Definition ret {A} (a : A) : M A := fun w => (Ok a, w).

Definition bind {A B} (m : M A) (k : A -> M B) : M B :=
  fun w =>
    match m w with
    | (Ok a, w') => k a w'
    | (Throw e, w') => (Throw e, w')
    end.

Definition throw {A} (e : error) : M A := fun w => (Throw e, w).

(** [try { m } catch (e) { h e }]: the writes made before the throw stay. *)
Definition try_catch {A} (m : M A) (h : error -> M A) : M A :=
  fun w =>
    match m w with
    | (Ok a, w') => (Ok a, w')
    | (Throw e, w') => h e w'
    end.

(** Truthiness of a variable that holds an object or [undefined]/[null]. *)
Definition defined {A} (o : option A) : bool :=
  match o with Some _ => true | None => false end.

Definition gets {A} (f : World -> A) : M A := fun w => (Ok (f w), w).
Definition modify (f : World -> World) : M unit := fun w => (Ok tt, f w).

Declare Scope js_scope.
Delimit Scope js_scope with js.
Bind Scope js_scope with M.
Notation "x <- m ;; k" := (bind m (fun x => k))
  (at level 100, m at next level, k at level 200, right associativity) : js_scope.
Notation "m ;; k" := (bind m (fun _ => k))
  (at level 100, k at level 200, right associativity) : js_scope.
Local Open Scope js_scope.

(** [l.forEach(f)]: a throw inside [f] leaves the loop. *)
Fixpoint forEach {A} (f : A -> M unit) (l : list A) : M unit :=
  match l with
  | [] => ret tt
  | x :: l' => f x ;; forEach f l'
  end.

(** [l.forEach((x, idx) => f idx x)] *)
Fixpoint forEachIdx {A} (f : nat -> A -> M unit) (i : nat) (l : list A) : M unit :=
  match l with
  | [] => ret tt
  | x :: l' => f i x ;; forEachIdx f (S i) l'
  end.

(** The world a computation ends in, and whether it ended by a throw. *)
Definition exec {A} (m : M A) (w : World) : World := snd (m w).
Definition raises {A} (m : M A) (w : World) : bool :=
  match fst (m w) with Ok _ => false | Throw _ => true end.

(* ----------------------------------------------------------------- *)
(** ** Field updates *)

Definition with_gps (f : GpsStore -> GpsStore) (w : World) : World :=
  {| gps := f (gps w); route := route w; mapd := mapd w;
     hasInitialFix := hasInitialFix w; trafficFeatures := trafficFeatures w;
     incidentFeatures := incidentFeatures w; ol_next_uid := ol_next_uid w;
     ol_geometry := ol_geometry w; watches := watches w;
     next_watch := next_watch w; trace := trace w |}.

Definition with_route (f : RouteStore -> RouteStore) (w : World) : World :=
  {| gps := gps w; route := f (route w); mapd := mapd w;
     hasInitialFix := hasInitialFix w; trafficFeatures := trafficFeatures w;
     incidentFeatures := incidentFeatures w; ol_next_uid := ol_next_uid w;
     ol_geometry := ol_geometry w; watches := watches w;
     next_watch := next_watch w; trace := trace w |}.

Definition with_mapd (f : MapStore -> MapStore) (w : World) : World :=
  {| gps := gps w; route := route w; mapd := f (mapd w);
     hasInitialFix := hasInitialFix w; trafficFeatures := trafficFeatures w;
     incidentFeatures := incidentFeatures w; ol_next_uid := ol_next_uid w;
     ol_geometry := ol_geometry w; watches := watches w;
     next_watch := next_watch w; trace := trace w |}.

Definition with_hasInitialFix (b : bool) (w : World) : World :=
  {| gps := gps w; route := route w; mapd := mapd w;
     hasInitialFix := b; trafficFeatures := trafficFeatures w;
     incidentFeatures := incidentFeatures w; ol_next_uid := ol_next_uid w;
     ol_geometry := ol_geometry w; watches := watches w;
     next_watch := next_watch w; trace := trace w |}.

Definition with_trafficFeatures (l : list Feature) (w : World) : World :=
  {| gps := gps w; route := route w; mapd := mapd w;
     hasInitialFix := hasInitialFix w; trafficFeatures := l;
     incidentFeatures := incidentFeatures w; ol_next_uid := ol_next_uid w;
     ol_geometry := ol_geometry w; watches := watches w;
     next_watch := next_watch w; trace := trace w |}.

Definition with_incidentFeatures (l : list Feature) (w : World) : World :=
  {| gps := gps w; route := route w; mapd := mapd w;
     hasInitialFix := hasInitialFix w; trafficFeatures := trafficFeatures w;
     incidentFeatures := l; ol_next_uid := ol_next_uid w;
     ol_geometry := ol_geometry w; watches := watches w;
     next_watch := next_watch w; trace := trace w |}.

Definition with_ol (n : nat) (g : gmap nat Geometry) (w : World) : World :=
  {| gps := gps w; route := route w; mapd := mapd w;
     hasInitialFix := hasInitialFix w; trafficFeatures := trafficFeatures w;
     incidentFeatures := incidentFeatures w; ol_next_uid := n;
     ol_geometry := g; watches := watches w;
     next_watch := next_watch w; trace := trace w |}.

Definition with_navigator (l : list (Z * bool)) (n : positive) (w : World) : World :=
  {| gps := gps w; route := route w; mapd := mapd w;
     hasInitialFix := hasInitialFix w; trafficFeatures := trafficFeatures w;
     incidentFeatures := incidentFeatures w; ol_next_uid := ol_next_uid w;
     ol_geometry := ol_geometry w; watches := l;
     next_watch := n; trace := trace w |}.

Definition with_trace (t : list event) (w : World) : World :=
  {| gps := gps w; route := route w; mapd := mapd w;
     hasInitialFix := hasInitialFix w; trafficFeatures := trafficFeatures w;
     incidentFeatures := incidentFeatures w; ol_next_uid := ol_next_uid w;
     ol_geometry := ol_geometry w; watches := watches w;
     next_watch := next_watch w; trace := t |}.

(** Record one observable call. *)
Definition emit (e : event) : M unit :=
  modify (fun w => with_trace (e :: trace w) w).

Definition updateStatus (m : message) : M unit := emit (UpdateStatus m).
Definition showMessage (m : message) (level : string) : M unit :=
  emit (ShowMessage m level).

(* ----------------------------------------------------------------- *)
(** ** [map_data.js]: the accessors *)

Module MapData.

Definition getMapInstance : M (option View) := gets (fun w => mapInstance (mapd w)).
Definition getVectorSource : M (option (list Feature)) :=
  gets (fun w => vectorSource (mapd w)).
Definition getApiBaseUrl : M (option string) := gets (fun w => apiBaseUrl (mapd w)).

Definition getMarkerFeature : M (option Feature) := gets (fun w => markerFeature (gps w)).
Definition getAccuracyFeature : M (option Feature) :=
  gets (fun w => accuracyFeature (gps w)).
Definition isFollowing : M value := gets (fun w => following (gps w)).
Definition getCurrentPos : M (option LonLatPair) := gets (fun w => currentPos (gps w)).
Definition getCurrentAccuracy : M value := gets (fun w => currentAccuracy (gps w)).
Definition getWatchId : M value := gets (fun w => watchId (gps w)).

Definition setMarkerFeature (f : option Feature) : M unit :=
  modify (with_gps (fun g =>
    {| markerFeature := f; accuracyFeature := accuracyFeature g;
       following := following g; currentPos := currentPos g;
       currentAccuracy := currentAccuracy g; watchId := watchId g |})).
Definition setAccuracyFeature (f : option Feature) : M unit :=
  modify (with_gps (fun g =>
    {| markerFeature := markerFeature g; accuracyFeature := f;
       following := following g; currentPos := currentPos g;
       currentAccuracy := currentAccuracy g; watchId := watchId g |})).
Definition toggleFollowingState (v : value) : M unit :=
  modify (with_gps (fun g =>
    {| markerFeature := markerFeature g; accuracyFeature := accuracyFeature g;
       following := v; currentPos := currentPos g;
       currentAccuracy := currentAccuracy g; watchId := watchId g |})).
Definition setCurrentPos (p : LonLatPair) : M unit :=
  modify (with_gps (fun g =>
    {| markerFeature := markerFeature g; accuracyFeature := accuracyFeature g;
       following := following g; currentPos := Some p;
       currentAccuracy := currentAccuracy g; watchId := watchId g |})).
Definition setCurrentAccuracy (v : value) : M unit :=
  modify (with_gps (fun g =>
    {| markerFeature := markerFeature g; accuracyFeature := accuracyFeature g;
       following := following g; currentPos := currentPos g;
       currentAccuracy := v; watchId := watchId g |})).
Definition setWatchId (v : value) : M unit :=
  modify (with_gps (fun g =>
    {| markerFeature := markerFeature g; accuracyFeature := accuracyFeature g;
       following := following g; currentPos := currentPos g;
       currentAccuracy := currentAccuracy g; watchId := v |})).

Definition getRotatual : M (option Feature) := gets (fun w => rotatual (route w)).
Definition getOriginMarker : M (option Feature) := gets (fun w => originMarker (route w)).
Definition getDestinationMarker : M (option Feature) :=
  gets (fun w => destinationMarker (route w)).
Definition getOriginCoords : M (option LonLat) := gets (fun w => originCoords (route w)).
Definition getDestinationCoords : M (option LonLat) :=
  gets (fun w => destinationCoords (route w)).

Definition setRotatual (f : option Feature) : M unit :=
  modify (with_route (fun r =>
    {| rotatual := f; originMarker := originMarker r;
       destinationMarker := destinationMarker r;
       originCoords := originCoords r; destinationCoords := destinationCoords r |})).
Definition setOriginMarker (f : option Feature) : M unit :=
  modify (with_route (fun r =>
    {| rotatual := rotatual r; originMarker := f;
       destinationMarker := destinationMarker r;
       originCoords := originCoords r; destinationCoords := destinationCoords r |})).
Definition setDestinationMarker (f : option Feature) : M unit :=
  modify (with_route (fun r =>
    {| rotatual := rotatual r; originMarker := originMarker r;
       destinationMarker := f;
       originCoords := originCoords r; destinationCoords := destinationCoords r |})).
Definition setOriginCoords (c : option LonLat) : M unit :=
  modify (with_route (fun r =>
    {| rotatual := rotatual r; originMarker := originMarker r;
       destinationMarker := destinationMarker r;
       originCoords := c; destinationCoords := destinationCoords r |})).
Definition setDestinationCoords (c : option LonLat) : M unit :=
  modify (with_route (fun r =>
    {| rotatual := rotatual r; originMarker := originMarker r;
       destinationMarker := destinationMarker r;
       originCoords := originCoords r; destinationCoords := c |})).

End MapData.
Export MapData.

(* ----------------------------------------------------------------- *)
(** ** OpenLayers and the browser: the calls the modules make *)

Section Runtime.

Variable B : Browser.

(** [new ol.Feature(geometry)]: a fresh object. *)
Definition newFeature (k : FeatureKind) (g : Geometry) : M Feature :=
  fun w =>
    let f := {| uid := ol_next_uid w; kind := k |} in
    (Ok f, with_ol (S (ol_next_uid w)) (<[ol_next_uid w := g]> (ol_geometry w)) w).

(** A feature object that has no geometry. *)
Definition newBareFeature (k : FeatureKind) : M Feature :=
  fun w =>
    let f := {| uid := ol_next_uid w; kind := k |} in
    (Ok f, with_ol (S (ol_next_uid w)) (ol_geometry w) w).

(** [f.setGeometry(g)] *)
Definition setGeometry (f : Feature) (g : Geometry) : M unit :=
  modify (fun w => with_ol (ol_next_uid w) (<[uid f := g]> (ol_geometry w)) w).

Definition same_feature (f g : Feature) : bool := Nat.eqb (uid f) (uid g).

Definition in_source (f : Feature) (fs : list Feature) : bool :=
  existsb (same_feature f) fs.

(** The features of a source once [f] is taken out of it. *)
Definition without (f : Feature) (fs : list Feature) : list Feature :=
  filter (fun g => negb (same_feature f g)) fs.

Definition put_source (o : option (list Feature)) : World -> World :=
  with_mapd (fun m =>
    {| mapInstance := mapInstance m; vectorSource := o;
       apiBaseUrl := apiBaseUrl m |}).

Definition set_source (fs : list Feature) : World -> World :=
  put_source (Some fs).

(** [getVectorSource().addFeature(f)] *)
Definition addFeature (f : Feature) : M unit :=
  fun w =>
    match vectorSource (mapd w) with
    | None => (Throw (TypeError "addFeature of undefined"), w)
    | Some fs => (Ok tt, set_source (fs ++ [f]) w)
    end.

(** [vectorSource.removeFeature(f)]: drops [f]; on a feature that is not
    there it raises or does nothing, by the release of the library. *)
Definition removeFeature (f : Feature) : M unit :=
  fun w =>
    match vectorSource (mapd w) with
    | None => (Throw (TypeError "removeFeature of undefined"), w)
    | Some fs =>
        if in_source f fs
        then (Ok tt, set_source (without f fs) w)
        else if removeFeature_strict B
             then (Throw (TypeError "feature is not in the source"), w)
             else (Ok tt, w)
    end.

Definition set_view (v : View) : World -> World :=
  with_mapd (fun m =>
    {| mapInstance := Some v; vectorSource := vectorSource m;
       apiBaseUrl := apiBaseUrl m |}).

(** [getMapInstance().getView().setCenter(c)] *)
Definition setCenter (c : Coord) : M unit :=
  fun w =>
    match mapInstance (mapd w) with
    | None => (Throw (TypeError "getView of undefined"), w)
    | Some v =>
        (Ok tt, with_trace (SetCenter c :: trace w)
                  (set_view {| center := c; zoom := zoom v |} w))
    end.

(** [getMapInstance().getView().getZoom()] *)
Definition getZoom : M Q :=
  fun w =>
    match mapInstance (mapd w) with
    | None => (Throw (TypeError "getView of undefined"), w)
    | Some v => (Ok (zoom v), w)
    end.

(** [getMapInstance().getView().setZoom(z)] *)
Definition setZoom (z : Q) : M unit :=
  fun w =>
    match mapInstance (mapd w) with
    | None => (Throw (TypeError "getView of undefined"), w)
    | Some v =>
        (Ok tt, with_trace (SetZoom z :: trace w)
                  (set_view {| center := center v; zoom := z |} w))
    end.

(** [Math.max(16, z)] *)
Definition max16 (z : Q) : Q := if Qle_bool 16 z then z else 16%Q.

(** [navigator.geolocation.watchPosition(cb, ...)]: registers the
    callback and hands out a fresh id, which is greater than zero. *)
Definition watchPosition (force : bool) : M Z :=
  fun w =>
    let id := Zpos (next_watch w) in
    (Ok id, with_trace (WatchPosition id :: trace w)
              (with_navigator ((id, force) :: watches w)
                              (Pos.succ (next_watch w)) w)).

(** [navigator.geolocation.clearWatch(v)] *)
Definition clearWatch (v : value) : M unit :=
  match v with
  | VNum q =>
      fun w =>
        (Ok tt, with_trace (ClearWatch v :: trace w)
                  (with_navigator
                     (filter (fun e => negb (Qeq_bool (inject_Z (fst e)) q)) (watches w))
                     (next_watch w) w))
  | _ => emit (ClearWatch v)
  end.

(** Reading the global identifier [FontFaceSetLoadEvent]. *)
Definition FontFaceSetLoadEvent : M value :=
  match global_FontFaceSetLoadEvent B with
  | Some v => ret v
  | None => throw (ReferenceError "FontFaceSetLoadEvent")
  end.

(** [const b = document.getElementById('btn-follow'); if (b) b.textContent = t] *)
Definition setFollowButton (t : string) : M unit :=
  if has_btn_follow B then emit (ButtonText "btn-follow" t) else ret tt.

End Runtime.

(* ----------------------------------------------------------------- *)
(** ** [geolocation.js] *)

Module Geolocation.

Definition GPS_RELIABLE_THRESHOLD : Q := 150%Q.
Definition ENABLE_AUTO_CENTER_ON_START : bool := true.

Section Code.

Variable B : Browser.

Definition handlePosition (pos : Position) (forceInitialCenter : bool) : M unit :=
  map <- getMapInstance ;;
  src <- getVectorSource ;;
  if negb (defined map) || negb (defined src) then
    updateStatus [Str "Erro interno: Mapa não inicializado para GPS."]
  else
    let lat := latitude pos in
    let lon := longitude pos in
    let accuracy := accuracy pos in
    let coord := fromLonLat B (lon, lat) in
    setCurrentPos (lon, lat) ;;
    setCurrentAccuracy (VNum accuracy) ;;
    marker <- getMarkerFeature ;;
    accuracyFeature <- getAccuracyFeature ;;
    shouldCenter <-
      match marker with
      | None =>
          m <- newFeature PositionMarker (Point coord) ;;
          addFeature m ;;
          setMarkerFeature (Some m) ;;
          ret true
      | Some m =>
          setGeometry m (Point coord) ;;
          ret false
      end ;;
    let accuracyGeom := Circle coord accuracy in
    match accuracyFeature with
    | None =>
        a <- newFeature AccuracyCircle accuracyGeom ;;
        addFeature a ;;
        setAccuracyFeature (Some a)
    | Some a => setGeometry a accuracyGeom
    end ;;
    fix_ <- gets hasInitialFix ;;
    if negb fix_ && ENABLE_AUTO_CENTER_ON_START then
      setCenter coord ;;
      z <- getZoom ;;
      setZoom (max16 z) ;;
      modify (with_hasInitialFix true) ;;
      updateStatus [Str "GPS inicial obtido. Precisão: "; Fixed 1 accuracy; Str "m."]
    else
      f <- isFollowing ;;
      (if (shouldCenter || forceInitialCenter || truthy f)
            && Qle_bool accuracy GPS_RELIABLE_THRESHOLD
       then setCenter coord ;; z <- getZoom ;; setZoom (max16 z)
       else ret tt) ;;
      if Qgt_bool accuracy GPS_RELIABLE_THRESHOLD then
        updateStatus [Str "GPS ativo, precisão baixa: "; Fixed 1 accuracy;
                      Str "m. Aguarde leituras melhores."]
      else
        f' <- isFollowing ;;
        updateStatus [Str "GPS Ativo. Precisão: "; Fixed 1 accuracy; Str "m. ";
                      Str (if truthy f' then "(Seguindo)" else "")].

Definition startWatching (forceInitialCenter : bool) : M unit :=
  if negb (has_geolocation B) then
    updateStatus [Str "Geolocation não suportado."]
  else
    wid <- getWatchId ;;
    if truthy wid then
      updateStatus [Str "Rastreamento GPS já está ativo."]
    else
      id <- watchPosition forceInitialCenter ;;
      setWatchId (VNum (inject_Z id)) ;;
      v <- FontFaceSetLoadEvent B ;;
      toggleFollowingState v.

Definition disableFollowOnMapDrag : M unit :=
  f <- isFollowing ;;
  if truthy f then
    toggleFollowingState (VBool false) ;;
    updateStatus [Str "Modo Seguir Desativado (Movimento manual detectado)."] ;;
    setFollowButton B "▶ Seguir: OFF"
  else ret tt.

Definition getCurrentOnceAndStartWatch (forceCenter : bool) : M unit :=
  startWatching forceCenter.

Definition stopWatching : M unit :=
  watchId <- getWatchId ;;
  if truthy watchId then
    clearWatch watchId ;;
    setWatchId VNull ;;
    toggleFollowingState (VBool false) ;;
    modify (with_hasInitialFix false) ;;
    updateStatus [Str "Rastreamento GPS desativado."]
  else ret tt.

Definition toggleFollow : M unit :=
  f <- isFollowing ;;
  toggleFollowingState (JS.not f) ;;
  f' <- isFollowing ;;
  updateStatus [Str (if truthy f' then "Modo Seguir Ativado."
                     else "Modo Seguir Desativado.")] ;;
  f'' <- isFollowing ;;
  setFollowButton B (if truthy f'' then "▶ Seguir: ON" else "▶ Seguir: OFF").

Definition centerMapOnCurrentPos : M unit :=
  currentPos <- getCurrentPos ;;
  map <- getMapInstance ;;
  match currentPos, map with
  | Some p, Some _ =>
      let coord := fromLonLat B p in
      setCenter coord ;;
      z <- getZoom ;;
      setZoom (max16 z) ;;
      updateStatus [Str "Mapa centralizado na sua posição atual."]
  | _, _ => updateStatus [Str "Posição GPS atual não disponível para centralizar."]
  end.

End Code.

End Geolocation.

(* ----------------------------------------------------------------- *)
(** ** [map_utils.js]

    Styles are not modelled, except that the kind of a route line records
    whether it was given the visible [routeStyle] or the transparent
    stroke.  [console.log] and [console.debug] lines are left out. *)

Module MapUtils.

(** What [drawRouteOnMap] hands back: [{ distance, duration, extraHTML: '' }]. *)
Record Extract := { distance : option message; duration : option message }.

Definition no_extract : Extract := {| distance := None; duration := None |}.

(** [a || b] on numbers that may be missing. *)
Definition num_truthy (a : option Q) : bool :=
  match a with Some q => negb (Qeq_bool q 0) | None => false end.
Definition num_or (a b : option Q) : option Q := if num_truthy a then a else b.

(** [f.properties?.feature_type] *)
Definition feature_type_of (f : GFeature) : option string :=
  match properties f with Some p => feature_type p | None => None end.

(** [f.geometry?.type] *)
Definition geometry_type_of (f : GFeature) : option string :=
  match geometry f with Some g => gtype g | None => None end.

(** [x === 'lit'] *)
Definition is_str (x : option string) (lit : string) : bool :=
  match x with Some s => String.eqb s lit | None => false end.

(** Truthiness of a string that may be missing. *)
Definition str_truthy (x : option string) : bool :=
  match x with Some s => negb (String.eqb s "") | None => false end.

Definition is_route_feature (f : GFeature) : bool :=
  is_str (feature_type_of f) "route_reference"
  || is_str (feature_type_of f) "route_basic"
  || (negb (str_truthy (feature_type_of f)) && is_str (geometry_type_of f) "LineString").

Definition is_traffic_segment (f : GFeature) : bool :=
  is_str (feature_type_of f) "traffic_segment".

Definition is_traffic_incident (f : GFeature) : bool :=
  is_str (feature_type_of f) "traffic_incident".

(** [null] or [undefined] *)
Definition nullish (v : option json) : bool :=
  match v with
  | None | Some JNull => true
  | Some _ => false
  end.

(** The property [i] of a value that is neither: an element of an
    array, a character of a string, [undefined] on a number. *)
Definition item (v : option json) (i : nat) : option json :=
  match v with
  | Some (JArray l) => l !! i
  | Some (JString s) =>
      option_map (fun c => JString (String c EmptyString)) (String.get i s)
  | _ => None
  end.

Definition supported_geometry (t : option string) : bool :=
  existsb (is_str t)
    ["Point"; "LineString"; "Polygon"; "MultiPoint"; "MultiLineString";
     "MultiPolygon"; "GeometryCollection"].

(** The traffic segments and incidents of a result, in order. *)
Definition traffic_segments_of (g : GeoJSON) : list GFeature :=
  filter is_traffic_segment (default [] (features g)).
Definition incidents_of (g : GeoJSON) : list GFeature :=
  filter is_traffic_incident (default [] (features g)).

(** A traffic segment whose two end points can be read: it has a
    geometry, the geometry has coordinates, and their first two items
    are there. *)
Definition segment_drawable (s : GFeature) : bool :=
  match geometry s with
  | Some g =>
      negb (nullish (coordinates g))
      && negb (nullish (item (coordinates g) 0))
      && negb (nullish (item (coordinates g) 1))
  | None => false
  end.

(** An incident whose position can be read. *)
Definition incident_drawable (s : GFeature) : bool :=
  match geometry s with
  | Some g => defined (properties s) && negb (nullish (coordinates g))
  | None => false
  end.

(** A geometry the route line can be made of: it has a GeoJSON type,
    the library reads it, and the extent of what it has read is not
    empty, so that the view can be fitted to it. *)
Definition line_geometry_readable (B : Browser) (gg : GGeometry) : bool :=
  supported_geometry (gtype gg) && reads_geometry B gg && negb (empty_extent B gg).

(** The result has no route line, or its first one has a geometry that
    can be read and fitted. *)
Definition route_line_readable (B : Browser) (g : GeoJSON) : bool :=
  match filter is_route_feature (default [] (features g)) with
  | mainRoute :: _ =>
      match geometry mainRoute with
      | Some gg => line_geometry_readable B gg
      | None => false
      end
  | [] => true
  end.

Section Code.

Variable B : Browser.

(** [g.coordinates], on a geometry that may be null. *)
Definition member_coordinates (g : option GGeometry) : M (option json) :=
  match g with
  | None => throw (TypeError "coordinates of null")
  | Some g => ret (coordinates g)
  end.

(** [v[i]]: a TypeError on [null] and [undefined], a property read
    otherwise. *)
Definition index (v : option json) (i : nat) : M (option json) :=
  if nullish v then throw (TypeError "index of undefined") else ret (item v i).

Definition parseFloat (v : option json) : option Q :=
  match v with
  | Some (JNumber q) => Some q
  | None | Some JNull => None
  | Some j => parseFloat_text B j
  end.

(** [ol.proj.fromLonLat([x, y])] on numbers that may be NaN. *)
Definition project (x y : option Q) : option Coord :=
  match x, y with
  | Some x, Some y => Some (fromLonLat B (x, y))
  | _, _ => None
  end.

(** [ol.proj.fromLonLat(coords)] on a JSON value: raises on
    null/undefined, garbage in gives garbage out. *)
Definition pin_of (v : option json) : option Coord :=
  match v with
  | Some (JArray (JNumber x :: JNumber y :: _)) => Some (fromLonLat B (x, y))
  | _ => None
  end.

Definition fromLonLat_json (v : option json) : M (option Coord) :=
  if nullish v then throw (TypeError "length of undefined") else ret (pin_of v).

(** [new ol.format.GeoJSON().readFeatures(feature, ...)] on one GeoJSON
    feature, and the style given to the result: one feature object,
    without geometry when the GeoJSON has none.  The library raises on a
    geometry of no GeoJSON type and on one it cannot read. *)
Definition readFeatures (k : FeatureKind) (f : GFeature) : M (list Feature) :=
  match geometry f with
  | None => o <- newBareFeature k ;; ret [o]
  | Some g =>
      if supported_geometry (gtype g) then
        if reads_geometry B g
        then o <- newFeature k (FromGeoJSON g) ;; ret [o]
        else throw (TypeError "length of undefined")
      else throw (Error_ "Unsupported GeoJSON type")
  end.

(** The extent of a geometry is empty. *)
Definition extent_is_empty (g : Geometry) : bool :=
  match g with
  | FromGeoJSON gg => empty_extent B gg
  | _ => false
  end.

(** [view.fit(f.getGeometry().getExtent(), ...)]: a TypeError on a
    feature without geometry, and the library's refusal of an empty
    extent. *)
Definition fitTo (f : Feature) : M unit :=
  g <- gets (fun w => ol_geometry w !! uid f) ;;
  match g with
  | None => throw (TypeError "getExtent of null")
  | Some g =>
      if extent_is_empty g
      then throw (Error_ "Cannot fit empty extent provided as geometry")
      else emit (ViewFit f)
  end.

Definition clearRoute : M unit :=
  vectorSource <- getVectorSource ;;
  rotatual <- getRotatual ;;
  if defined vectorSource then
    match rotatual with
    | Some r => removeFeature B r ;; setRotatual None
    | None => ret tt
    end ;;
    o <- getOriginMarker ;;
    d <- getDestinationMarker ;;
    forEach (fun marker =>
               match marker with
               | Some m => removeFeature B m
               | None => ret tt
               end) [o; d] ;;
    setOriginMarker None ;;
    setDestinationMarker None ;;
    tf <- gets trafficFeatures ;;
    forEach (fun feature => try_catch (removeFeature B feature) (fun _ => ret tt)) tf ;;
    modify (with_trafficFeatures []) ;;
    inc <- gets incidentFeatures ;;
    forEach (fun feature => try_catch (removeFeature B feature) (fun _ => ret tt)) inc ;;
    modify (with_incidentFeatures []) ;;
    setOriginCoords None ;;
    setDestinationCoords None
  else ret tt.

Definition drawRouteMarkers : M unit :=
  vectorSource <- getVectorSource ;;
  originCoords <- getOriginCoords ;;
  destinationCoords <- getDestinationCoords ;;
  if negb (defined vectorSource) then
    emit (Console "warn" [Str "[MAP_UTILS] Fonte de vetor ainda não disponível. Aguardando mapReady..."]) ;;
    emit (OnceMapReady "drawRouteMarkers")
  else
    match originCoords, destinationCoords with
    | Some o, Some d =>
        oldOrigin <- getOriginMarker ;;
        oldDest <- getDestinationMarker ;;
        match oldOrigin with Some m => removeFeature B m | None => ret tt end ;;
        match oldDest with Some m => removeFeature B m | None => ret tt end ;;
        originMarkerFeature <- newFeature OriginPin (Point (fromLonLat B (lon o, lat o))) ;;
        addFeature originMarkerFeature ;;
        setOriginMarker (Some originMarkerFeature) ;;
        destinationMarkerFeature <-
          newFeature DestinationPin (Point (fromLonLat B (lon d, lat d))) ;;
        addFeature destinationMarkerFeature ;;
        setDestinationMarker (Some destinationMarkerFeature)
    | _, _ =>
        emit (Console "warn" [Str "[MAP_UTILS] Coordenadas ausentes. Aborting drawRouteMarkers."])
    end.

(** The body of the [try] for one traffic segment. *)
Definition drawTrafficSegment (idx : nat) (segment : GFeature) : M unit :=
  let geom := geometry segment in
  cs <- member_coordinates geom ;;
  p0 <- index cs 0 ;;
  p1 <- index cs 1 ;;
  x0 <- index p0 0 ;;
  y0 <- index p0 1 ;;
  let startCoord := project (parseFloat x0) (parseFloat y0) in
  x1 <- index p1 0 ;;
  y1 <- index p1 1 ;;
  let endCoord := project (parseFloat x1) (parseFloat y1) in
  segmentFeature <- newFeature (TrafficSegment idx) (Segment startCoord endCoord) ;;
  addFeature segmentFeature ;;
  modify (fun w => with_trafficFeatures (trafficFeatures w ++ [segmentFeature]) w).

Definition drawTrafficSegments (segments : list GFeature) : M unit :=
  vectorSource <- getVectorSource ;;
  if negb (defined vectorSource) || Nat.eqb (length segments) 0 then ret tt
  else
    forEachIdx
      (fun idx segment =>
         try_catch (drawTrafficSegment idx segment)
           (fun _ => emit (Console "error" [Str "[TRAFFIC] Erro ao desenhar segmento"])))
      0 segments.

(** The body of the [try] for one incident. *)
Definition drawTrafficIncident (idx : nat) (incident : GFeature) : M unit :=
  coords <- member_coordinates (geometry incident) ;;
  match properties incident with
  | None => throw (TypeError "icon of undefined")
  | Some _ => ret tt
  end ;;
  point <- fromLonLat_json coords ;;
  incidentFeature <- newFeature (Incident idx) (Pin point) ;;
  addFeature incidentFeature ;;
  modify (fun w => with_incidentFeatures (incidentFeatures w ++ [incidentFeature]) w).

Definition drawTrafficIncidents (incidents : list GFeature) : M unit :=
  vectorSource <- getVectorSource ;;
  if negb (defined vectorSource) || Nat.eqb (length incidents) 0 then ret tt
  else
    forEachIdx
      (fun idx incident =>
         try_catch (drawTrafficIncident idx incident)
           (fun _ => emit (Console "error" [Str "[MAP_UTILS] Erro ao desenhar incidente"])))
      0 incidents.

(** Distance and duration read off the main route's properties. *)
Definition extract_summary (mainRoute : GFeature) : Extract :=
  let dist :=
    match properties mainRoute with
    | Some p => num_or (p_distance p) (p_summary_distance p)
    | None => None
    end in
  let dur :=
    match properties mainRoute with
    | Some p => num_or (p_duration p) (p_summary_duration p)
    | None => None
    end in
  {| distance := match dist with
                 | Some q => if num_truthy dist
                             then Some [Fixed 2 (q / 1000)%Q; Str " km"] else None
                 | None => None
                 end;
     duration := match dur with
                 | Some q => if num_truthy dur
                             then Some [Rounded (q / 60)%Q; Str " min"] else None
                 | None => None
                 end |}.

(** The body of the [try] of [drawRouteOnMap]. *)
Definition drawRouteFeatures (geojsonResult : GeoJSON) : M Extract :=
  let features := default [] (features geojsonResult) in
  if Nat.eqb (length features) 0 then
    emit (Console "error" [Str "[MAP_UTILS] GeoJSON sem features."]) ;;
    ret no_extract
  else
    let routeFeatures := filter is_route_feature features in
    let trafficSegments := filter is_traffic_segment features in
    let incidents := filter is_traffic_incident features in
    extracted <-
      match routeFeatures with
      | mainRoute :: _ =>
          olFeatures <-
            readFeatures (RouteLine (Nat.eqb (length trafficSegments) 0)) mainRoute ;;
          match olFeatures with
          | routeFeature :: _ =>
              addFeature routeFeature ;;
              setRotatual (Some routeFeature) ;;
              fitTo routeFeature ;;
              ret (extract_summary mainRoute)
          | [] => ret no_extract
          end
      | [] => ret no_extract
      end ;;
    (if Nat.ltb 0 (length trafficSegments)
     then drawTrafficSegments trafficSegments else ret tt) ;;
    (if Nat.ltb 0 (length incidents)
     then drawTrafficIncidents incidents else ret tt) ;;
    ret extracted.

(** [drawRouteOnMap(geojsonResult)]; the result is [None] for
    [undefined]. *)
Definition drawRouteOnMap (geojsonResult : option GeoJSON) : M (option Extract) :=
  map <- getMapInstance ;;
  vectorSource <- getVectorSource ;;
  match geojsonResult with
  | Some result =>
      if defined map && defined vectorSource then
        rotatual <- getRotatual ;;
        match rotatual with
        | Some r => removeFeature B r ;; setRotatual None
        | None => ret tt
        end ;;
        tf <- gets trafficFeatures ;;
        forEach (removeFeature B) tf ;;
        modify (with_trafficFeatures []) ;;
        inc <- gets incidentFeatures ;;
        forEach (removeFeature B) inc ;;
        modify (with_incidentFeatures []) ;;
        try_catch
          (e <- drawRouteFeatures result ;; ret (Some e))
          (fun _ =>
             emit (Console "error" [Str "[MAP_UTILS] Erro ao processar rota:"]) ;;
             ret (Some no_extract))
      else
        emit (Console "error" [Str "[MAP_UTILS] Dependências ausentes para desenhar a rota."]) ;;
        ret None
  | None =>
      emit (Console "error" [Str "[MAP_UTILS] Dependências ausentes para desenhar a rota."]) ;;
      ret None
  end.

End Code.

End MapUtils.

(* ----------------------------------------------------------------- *)
(** ** [route_logic.js]

    An [async] function runs until its next [await] and is resumed when
    the awaited promise settles; nothing else runs in between two such
    points, and anything may run while it is suspended.  Each function
    below is the code from one suspension point to the next and returns
    where it is suspended ([Some p]) or that it has returned ([None]).

    [geocodeAddress] is awaited as a whole: the call is recorded in the
    trace and its settled value is fed back by [resume].  Every network
    request of this module is made by [geocodeAddress] or by the [fetch]
    of [fetchRouteData].  The two request bodies of [fetchRouteData]
    carry the same two points and the same constraints. *)

Module RouteLogic.

Import MapUtils.

Definition GPS_RELIABLE_THRESHOLD : Q := 150%Q.

(** What comes back from [fetch] and [response.json()]; the body is
    [None] for a JSON [null]. *)
Inductive Response :=
| NetworkError
| Reply (ok : bool) (status : Z) (body : option GeoJSON).

(** Where a route computation can be suspended. *)
Inductive Pending :=
| AwaitOriginGeocode (originInput destinationInput : string)
| AwaitDestinationGeocode (originCoords : LonLat) (destinationInput : string)
| AwaitMapReady (viaAddresses : bool) (originCoords destinationCoords : LonLat)
| AwaitRoute (request : RouteRequest).

(** What settles a suspended computation. *)
Inductive Settled :=
| Geocoded (r : option LonLat)
| MapReady
| Routed (r : Response).

Definition upper_ascii (c : ascii) : ascii :=
  let n := nat_of_ascii c in
  if Nat.leb 97 n && Nat.leb n 122 then ascii_of_nat (n - 32) else c.

(** [s.toUpperCase()], on the ASCII letters. *)
Fixpoint toUpperCase (s : string) : string :=
  match s with
  | EmptyString => EmptyString
  | String c r => String (upper_ascii c) (toUpperCase r)
  end.

Section Code.

Variable B : Browser.

(** What [getRouteConstraints] reads from the checkboxes when it runs. *)
Variable dom_constraints : Constraints.

Definition hasConstraints (c : Constraints) : bool :=
  Nat.ltb 0 (length (avoid c)) || Nat.ltb 0 (length (prefer c)).

(** [fetchRouteData], up to the [await fetch]. *)
Definition fetchRouteData (origin destination : LonLat)
    (constraints : option Constraints) : M (option Pending) :=
  ngrokUrl <- getApiBaseUrl ;;
  if negb (str_truthy ngrokUrl) then
    showMessage [Str "Erro: URL do servidor não definida."] "error" ;;
    ret None
  else
    let requestBody :=
      {| req_origin := {| lon := lon origin; lat := lat origin |};
         req_destination := {| lon := lon destination; lat := lat destination |};
         req_constraints := constraints |} in
    emit (Fetch requestBody) ;;
    ret (Some (AwaitRoute requestBody)).

(** [displayTrafficLegend(geojsonResult)] *)
Definition displayTrafficLegend (geojsonResult : option GeoJSON) : M unit :=
  if negb (has_legend_elements B) then
    emit (Console "warn" [Str "[TRAFFIC] Elementos de legenda não encontrados no DOM"])
  else
    match geojsonResult with
    | None => throw (TypeError "features of null")
    | Some _ => emit TrafficLegend
    end.

(** [fetchRouteData], from the settled [fetch] on.  Of an error
    message only the fixed text is kept, not the detail that is read off
    the response.  On success, what the code does between
    [displayTrafficLegend] and its closing message (lines 338 to 468: it
    reads distance, duration and steps off the response and writes them
    to the route panel) is not modelled, and of the closing message only
    the first words are kept; with members that [GeoJSON] does not hold
    (routes, segments, optimisation data) that code can also show a
    further status line or raise into the outer [catch], so the model
    says what is on the map after a response, not what the page then
    tells the user. *)
Definition fetchRouteData_settled (r : Response) : M unit :=
  let connection_error :=
    emit (Console "error" [Str "Erro no fetch da rota:"]) ;;
    showMessage [Str "Erro de conexão ao calcular a rota. Verifique a URL do Ngrok e o servidor Flask."] "error" ;;
    emit (OptimizationStatus [Str "❌ Erro de conexão com o servidor"] "error") in
  match r with
  | NetworkError => connection_error
  | Reply ok status geojsonResult =>
      try_catch
        (if negb ok then
           match geojsonResult with
           | None => throw (TypeError "detalhe of null")
           | Some _ =>
               emit (Console "error" [Str "[ERRO API ORS]"]) ;;
               if Z.eqb status 401 || Z.eqb status 403 then
                 showMessage [Str "Acesso negado ao serviço de rotas (ORS)."] "error" ;;
                 emit (OptimizationStatus [Str "❌ Erro de acesso à API de rotas"] "error") ;;
                 emit SessionExpired
               else
                 showMessage [Str "Erro ao calcular a rota"] "error" ;;
                 emit (OptimizationStatus [Str "❌ Falha ao calcular rota"] "error")
           end
         else
           _ <- try_catch (drawRouteOnMap B geojsonResult) (fun _ => ret None) ;;
           displayTrafficLegend geojsonResult ;;
           match geojsonResult with
           | None => throw (TypeError "routes of null")
           | Some _ => showMessage [Str "Rota calculada!"] "success"
           end)
        (fun _ => connection_error)
  end.

(** After [await waitForMapReady()]. *)
Definition afterMapReady (viaAddresses : bool) (origin destination : LonLat)
    : M (option Pending) :=
  proceed <-
    (if viaAddresses then
       o <- getOriginCoords ;;
       d <- getDestinationCoords ;;
       if defined o && defined d then drawRouteMarkers B ;; ret true
       else
         showMessage [Str "Coordenadas inválidas para desenhar marcadores."] "error" ;;
         ret false
     else drawRouteMarkers B ;; ret true) ;;
  if proceed : bool then
    let constraints := dom_constraints in
    (if hasConstraints constraints then
       emit (OptimizationStatus
               [Str (if viaAddresses
                     then "🧠 Analisando tráfego, clima e otimizando rota..."
                     else "🧠 Otimizando rota com suas preferências...")] "info")
     else ret tt) ;;
    fetchRouteData origin destination
      (if hasConstraints constraints then Some constraints else None)
  else ret None.

(** [await waitForMapReady()]: goes on at once when the vector source
    is there, waits for the [mapReady] event otherwise. *)
Definition waitForMapReady (viaAddresses : bool) (origin destination : LonLat)
    : M (option Pending) :=
  src <- getVectorSource ;;
  if defined src then afterMapReady viaAddresses origin destination
  else ret (Some (AwaitMapReady viaAddresses origin destination)).

(** After the destination has been geocoded. *)
Definition afterDestination (originCoords : LonLat) (r : option LonLat)
    : M (option Pending) :=
  match r with
  | None => ret None
  | Some destinationCoords =>
      setOriginCoords (Some originCoords) ;;
      setDestinationCoords (Some destinationCoords) ;;
      waitForMapReady true originCoords destinationCoords
  end.

(** [calculateRouteFromAddresses], up to its first [await]. *)
Definition calculateRouteFromAddresses (originInput destinationInput : string)
    : M (option Pending) :=
  clearRoute B ;;
  showMessage [Str "Calculando rota..."] "info" ;;
  if String.eqb (toUpperCase originInput) "GPS" then
    currentPos <- getCurrentPos ;;
    match currentPos with
    | Some p =>
        acc <- getCurrentAccuracy ;;
        let ACC_THRESHOLD := GPS_RELIABLE_THRESHOLD in
        if truthy acc && gt acc ACC_THRESHOLD then
          showMessage
            [Str "Posição GPS disponível, mas imprecisa (";
             match to_number acc with Some q => Fixed 0 q | None => Str "NaN" end;
             Str " m). Aguarde leituras melhores ou insira um endereço."] "error" ;;
          ret None
        else
          let originCoords := {| lon := fst p; lat := snd p |} in
          showMessage [Str "Origem definida pela sua localização GPS."] "info" ;;
          emit (CallGeocode destinationInput) ;;
          ret (Some (AwaitDestinationGeocode originCoords destinationInput))
    | None =>
        showMessage [Str "Erro: Posição GPS não disponível. Tente novamente ou insira um endereço de origem."] "error" ;;
        ret None
    end
  else
    emit (CallGeocode originInput) ;;
    ret (Some (AwaitOriginGeocode originInput destinationInput)).

(** [calculateAndDrawRoute], which is also [window.drawRoute], up to
    its first [await] that really waits. *)
Definition calculateAndDrawRoute (origin destination : LonLat) : M (option Pending) :=
  clearRoute B ;;
  showMessage [Str "Calculando rota por coordenadas..."] "info" ;;
  setOriginCoords (Some origin) ;;
  setDestinationCoords (Some destination) ;;
  waitForMapReady false origin destination.

(** A suspended computation goes on with what settled it. *)
Definition resume (p : Pending) (s : Settled) : M (option Pending) :=
  match p, s with
  | AwaitOriginGeocode _ destinationInput, Geocoded r =>
      match r with
      | None => ret None
      | Some originCoords =>
          emit (CallGeocode destinationInput) ;;
          ret (Some (AwaitDestinationGeocode originCoords destinationInput))
      end
  | AwaitDestinationGeocode originCoords _, Geocoded r => afterDestination originCoords r
  | AwaitMapReady via o d, MapReady => afterMapReady via o d
  | AwaitRoute _, Routed r => fetchRouteData_settled r ;; ret None
  | _, _ => ret (Some p)
  end.

End Code.

End RouteLogic.

(* ----------------------------------------------------------------- *)
(** ** The legacy [static/js/route_logic.js]

    The earlier, script-tag variant of the route code, with its own
    globals ([is_drawing_route] here, [rotatual] and [map] from the legacy
    [map_init.js]).  The route is a layer of the map. *)

Module Legacy.

Record Globals := {
  is_drawing_route : bool;
  rotatual : option nat;        (* the layer drawn last *)
  layers : list nat;            (* layers of the map, past the two base ones *)
  next_layer : nat;
  log : list event }.

(** The JSON the legacy backend answers with, as far as it is read. *)
Inductive Answer :=
| Failed                          (* !resp.ok, or data.error *)
| Route (readable : bool).        (* data.geojson; can it be read? *)

Definition say (e : event) (g : Globals) : Globals :=
  {| is_drawing_route := is_drawing_route g; rotatual := rotatual g;
     layers := layers g; next_layer := next_layer g; log := e :: log g |}.

Definition set_drawing (b : bool) (g : Globals) : Globals :=
  {| is_drawing_route := b; rotatual := rotatual g;
     layers := layers g; next_layer := next_layer g; log := log g |}.

(** [window.remove_route]; [map.removeLayer] of a layer that is not on
    the map does nothing. *)
Definition remove_route (g : Globals) : Globals :=
  match rotatual g with
  | Some l =>
      {| is_drawing_route := is_drawing_route g; rotatual := None;
         layers := filter (fun x => negb (Nat.eqb x l)) (layers g);
         next_layer := next_layer g; log := log g |}
  | None => g
  end.

(** [window.drawRoute], up to [await fetch]: [None] when the call has
    returned, [Some r] when the request [r] is in flight. *)
Definition drawRoute (origemCoord destinoCoord : LonLatPair) (g : Globals)
    : option RouteRequest * Globals :=
  if is_drawing_route g then
    (None, say (Console "warn"
                  [Str "Desenho de rota anterior em progresso. Ignorando novo pedido rápido."]) g)
  else
    let g := remove_route (set_drawing true g) in
    let payload :=
      {| req_origin := {| lon := fst origemCoord; lat := snd origemCoord |};
         req_destination := {| lon := fst destinoCoord; lat := snd destinoCoord |};
         req_constraints := None |} in
    (Some payload, say (Fetch payload) g).

(** [window.drawRoute], from the settled [fetch] to the end of
    [finally]. *)
Definition drawRoute_settled (a : Answer) (g : Globals) : Globals :=
  let failure := say (UpdateStatus [Str "Falha ao calcular rota: "]) in
  let g :=
    match a with
    | Failed => failure g
    | Route false => failure g
    | Route true =>
        let l := next_layer g in
        say (UpdateStatus [Str "Rota adicionada ao mapa."])
          {| is_drawing_route := is_drawing_route g; rotatual := Some l;
             layers := layers g ++ [l]; next_layer := S l; log := log g |}
    end in
  set_drawing false g.

End Legacy.

(* ----------------------------------------------------------------- *)
(** ** Observations on runs *)

(** What a run from [w] to [w'] added to the trace, latest first. *)
Definition emitted (w w' : World) : list event :=
  take (length (trace w') - length (trace w)) (trace w').
Global Arguments emitted : simpl never.

Definition is_view_call (e : event) : bool :=
  match e with
  | SetCenter _ | SetZoom _ | ViewFit _ => true
  | _ => false
  end.

Definition is_network_call (e : event) : bool :=
  match e with
  | CallGeocode _ | Fetch _ => true
  | _ => false
  end.

(** The page as the scripts find it when they load: nothing stored, the
    map not yet rendered (the legacy [map_init.js] starts its globals the
    same way: [watchId = null], [following = false], [currentPos = null]). *)
Definition initial_world : World :=
  {| gps := {| markerFeature := None; accuracyFeature := None;
               following := VBool false; currentPos := None;
               currentAccuracy := VNull; watchId := VNull |};
     route := {| rotatual := None; originMarker := None; destinationMarker := None;
                 originCoords := None; destinationCoords := None |};
     mapd := {| mapInstance := None; vectorSource := None; apiBaseUrl := None |};
     hasInitialFix := false;
     trafficFeatures := [];
     incidentFeatures := [];
     ol_next_uid := 0;
     ol_geometry := ∅;
     watches := [];
     next_watch := 1%positive;
     trace := [] |}.

(** [map_init.js], the ['rendercomplete'] handler: the map, its vector
    source and the API base URL are stored, once. *)
Definition mapRendered (v : View) (url : string) : M unit :=
  modify (with_mapd (fun m =>
    match vectorSource m with
    | Some _ => m
    | None => {| mapInstance := Some v; vectorSource := Some []; apiBaseUrl := Some url |}
    end)).

(** A current browser: geolocation, the CSS font loading API (whose
    [FontFaceSetLoadEvent] interface object is a function), the follow
    button and the legend on the page, a web-mercator projection that is
    left symbolic as the identity, and an OpenLayers that reads every
    geometry that has coordinates and finds the extent empty when they
    are the empty array. *)
Definition a_browser (strict : bool) : Browser :=
  {| has_geolocation := true;
     global_FontFaceSetLoadEvent := Some (VFunction "FontFaceSetLoadEvent");
     has_btn_follow := true;
     has_legend_elements := true;
     removeFeature_strict := strict;
     reads_geometry := fun g => negb (MapUtils.nullish (coordinates g));
     empty_extent := fun g => match coordinates g with
                              | Some (JArray []) => true
                              | _ => false
                              end;
     fromLonLat := fun p => p;
     parseFloat_text := fun _ => None |}.

(** São Paulo at zoom 10, as [map_init.js] builds the view. *)
Definition sao_paulo : View :=
  {| center := ((-46633309 # 1000000)%Q, (-2355052 # 100000)%Q); zoom := 10%Q |}.

Definition rendered_world : World :=
  Eval vm_compute in
    exec (mapRendered sao_paulo "http://localhost:5000") initial_world.

Definition fix_at (acc : Q) : Position :=
  {| latitude := (-235 # 10)%Q; longitude := (-466 # 10)%Q; accuracy := acc |}.

(* ----------------------------------------------------------------- *)
(** ** The page as a whole: what can happen, and what stays true *)

Section Page.

Variable B : Browser.

(** What the event loop can run: the handlers wired in [events.js] and
    [map_init.js], the sensor callback, and the exported functions the
    handlers are made of. *)
Inductive Op :=
| MapRendered (v : View) (url : string)
| StartWatching (force : bool)
| StopWatching
| ToggleFollow
| MapDrag
| CenterMap
| SensorFix (pos : Position)
| ClearRoute
| DrawRouteMarkers
| DrawRouteOnMap (g : option GeoJSON)
| SetOriginCoords (c : option LonLat)
| SetDestinationCoords (c : option LonLat)
| RouteFromAddresses (dom : Constraints) (o d : string)
| RouteFromCoords (dom : Constraints) (o d : LonLat)
| Resume (dom : Constraints) (p : RouteLogic.Pending) (s : RouteLogic.Settled).

(** A fix is handed to the callback of every live watch. *)
Definition deliver (pos : Position) : M unit :=
  ws <- gets watches ;;
  forEach (fun e => Geolocation.handlePosition B pos (snd e)) ws.

Definition run_op (o : Op) : M unit :=
  match o with
  | MapRendered v url => mapRendered v url
  | StartWatching force => Geolocation.getCurrentOnceAndStartWatch B force
  | StopWatching => Geolocation.stopWatching
  | ToggleFollow => Geolocation.toggleFollow B
  | MapDrag => Geolocation.disableFollowOnMapDrag B
  | CenterMap => Geolocation.centerMapOnCurrentPos B
  | SensorFix pos => deliver pos
  | ClearRoute => MapUtils.clearRoute B
  | DrawRouteMarkers => MapUtils.drawRouteMarkers B
  | DrawRouteOnMap g => _ <- MapUtils.drawRouteOnMap B g ;; ret tt
  | SetOriginCoords c => setOriginCoords c
  | SetDestinationCoords c => setDestinationCoords c
  | RouteFromAddresses dom o d =>
      _ <- RouteLogic.calculateRouteFromAddresses B o d ;; ret tt
  | RouteFromCoords dom o d =>
      _ <- RouteLogic.calculateAndDrawRoute B dom o d ;; ret tt
  | Resume dom p s => _ <- RouteLogic.resume B dom p s ;; ret tt
  end.

(** The worlds the page can be in.  An operation that ends by a throw
    leaves the world it had reached. *)
Inductive reachable : World -> Prop :=
| reach_init : reachable initial_world
| reach_step w o : reachable w -> reachable (exec (run_op o) w).

End Page.

(** Tracking was started on the rendered page and a first, good fix has
    come in. *)
Definition tracking_world : World :=
  Eval vm_compute in
    exec (Geolocation.handlePosition (a_browser true) (fix_at 20) true)
      (exec (Geolocation.startWatching (a_browser true) true) rendered_world).

(** The user then dragged the map and switched follow-mode back on. *)
Definition following_world : World :=
  Eval vm_compute in
    exec (Geolocation.toggleFollow (a_browser true))
      (exec (Geolocation.disableFollowOnMapDrag (a_browser true)) tracking_world).

Definition no_constraints : Constraints := {| avoid := []; prefer := [] |}.

Definition praca_da_se : LonLat := {| lon := (-466334 # 10000)%Q; lat := (-235505 # 10000)%Q |}.
Definition avenida_paulista : LonLat :=
  {| lon := (-466559 # 10000)%Q; lat := (-235614 # 10000)%Q |}.

(** A route was asked for by address before the map finished rendering:
    both ends are geocoded and stored, and the computation waits for the
    [mapReady] event. *)
Definition awaiting_map_world : World :=
  Eval vm_compute in
    exec (RouteLogic.resume (a_browser true) no_constraints
            (RouteLogic.AwaitDestinationGeocode praca_da_se "Avenida Paulista")
            (RouteLogic.Geocoded (Some avenida_paulista)))
      initial_world.

(** A small routing result: a route line and traffic segments. *)
Definition line_string : GGeometry :=
  {| gtype := Some "LineString";
     coordinates :=
       Some (JArray [JArray [JNumber (-466334 # 10000); JNumber (-235505 # 10000)];
                     JArray [JNumber (-466559 # 10000); JNumber (-235614 # 10000)]]) |}.

Definition typed (t : string) : GProperties :=
  {| feature_type := Some t; p_distance := Some 3200%Q; p_duration := Some 540%Q;
     p_summary_distance := None; p_summary_duration := None |}.

Definition route_basic_feature : GFeature :=
  {| properties := Some (typed "route_basic"); geometry := Some line_string |}.

Definition located_segment : GFeature :=
  {| properties := Some (typed "traffic_segment"); geometry := Some line_string |}.

(** A GeoJSON feature may have a null geometry. *)
Definition unlocated_segment : GFeature :=
  {| properties := Some (typed "traffic_segment"); geometry := None |}.

Definition result_with_two_segments : GeoJSON :=
  {| features := Some [route_basic_feature; located_segment; located_segment] |}.

Definition result_with_unlocated_segment : GeoJSON :=
  {| features := Some [route_basic_feature; unlocated_segment] |}.

(** A route line of no points, with a traffic segment that can be
    drawn. *)
Definition empty_line : GGeometry :=
  {| gtype := Some "LineString"; coordinates := Some (JArray []) |}.

Definition result_with_empty_line : GeoJSON :=
  {| features :=
       Some [{| properties := Some (typed "route_basic"); geometry := Some empty_line |};
             located_segment] |}.

(** A routing result with just the line between two places. *)
Definition line_between (o d : LonLat) : GGeometry :=
  {| gtype := Some "LineString";
     coordinates :=
       Some (JArray [JArray [JNumber (lon o); JNumber (lat o)];
                     JArray [JNumber (lon d); JNumber (lat d)]]) |}.

Definition route_between (o d : LonLat) : GeoJSON :=
  {| features :=
       Some [{| properties := Some (typed "route_basic");
                geometry := Some (line_between o d) |}] |}.

(** The body [fetchRouteData] posts for a route without constraints. *)
Definition request_for (o d : LonLat) : RouteRequest :=
  {| req_origin := o; req_destination := d; req_constraints := None |}.

(** The routing collaborator answers a request with the line asked for. *)
Definition answer_to (o d : LonLat) : RouteLogic.Settled :=
  RouteLogic.Routed (RouteLogic.Reply true 200 (Some (route_between o d))).

Definition parque_ibirapuera : LonLat :=
  {| lon := (-466576 # 10000)%Q; lat := (-235874 # 10000)%Q |}.
Definition largo_da_batata : LonLat :=
  {| lon := (-466930 # 10000)%Q; lat := (-235670 # 10000)%Q |}.

(** The geometry a handle's feature has on the map. *)
Definition geometry_of (h : option Feature) (w : World) : option Geometry :=
  match h with
  | Some f => ol_geometry w !! uid f
  | None => None
  end.

(** The pins and a route with two traffic segments are on the map. *)
Definition routed_world : World :=
  Eval vm_compute in
    exec (MapUtils.drawRouteOnMap (a_browser true) (Some result_with_two_segments))
      (exec (MapUtils.drawRouteMarkers (a_browser true))
         (exec (setDestinationCoords (Some avenida_paulista))
            (exec (setOriginCoords (Some praca_da_se)) rendered_world))).

(** The page of [routed_world] once another piece of code has taken the
    route line off the source: the handle still holds it. *)
Definition line_removed_world : World :=
  Eval vm_compute in
    match rotatual (route routed_world) with
    | Some line => exec (removeFeature (a_browser true) line) routed_world
    | None => routed_world
    end.

(** While tracking, the sensor reports a fix of 200 m, 50 m or 0 m
    accuracy. *)
Definition imprecise_world : World :=
  Eval vm_compute in exec (deliver (a_browser true) (fix_at 200)) tracking_world.

Definition precise_world : World :=
  Eval vm_compute in exec (deliver (a_browser true) (fix_at 50)) tracking_world.

Definition unrated_world : World :=
  Eval vm_compute in exec (deliver (a_browser true) (fix_at 0)) tracking_world.

(** Which variable keeps track of a feature of a given kind. *)
Inductive Class :=
| CMarker | CAccuracy | COrigin | CDestination | CRoute | CTraffic | CIncident.

Global Instance Class_eq_dec : EqDecision Class.
Proof. solve_decision. Defined.

Definition class_of (k : FeatureKind) : Class :=
  match k with
  | PositionMarker => CMarker
  | AccuracyCircle => CAccuracy
  | OriginPin => COrigin
  | DestinationPin => CDestination
  | RouteLine _ => CRoute
  | TrafficSegment _ => CTraffic
  | Incident _ => CIncident
  end.

Definition in_class (c : Class) (f : Feature) : bool :=
  bool_decide (class_of (kind f) = c).

Definition handle (o : option Feature) : list Feature :=
  match o with Some f => [f] | None => [] end.

(** No route: no line, no pins, no stored end points. *)
Definition empty_route : RouteStore :=
  {| rotatual := None; originMarker := None; destinationMarker := None;
     originCoords := None; destinationCoords := None |}.

(** The features the module variables hold, by class. *)
Definition tracked (w : World) (c : Class) : list Feature :=
  match c with
  | CMarker => handle (markerFeature (gps w))
  | CAccuracy => handle (accuracyFeature (gps w))
  | COrigin => handle (originMarker (route w))
  | CDestination => handle (destinationMarker (route w))
  | CRoute => handle (rotatual (route w))
  | CTraffic => trafficFeatures w
  | CIncident => incidentFeatures w
  end.

(** The features of a class that are on the map. *)
Definition rendered (c : Class) (w : World) : list Feature :=
  filter (in_class c) (default [] (vectorSource (mapd w))).

(** The route overlay: line, traffic segments, incidents. *)
Definition overlay_class (c : Class) : bool :=
  match c with CRoute | CTraffic | CIncident => true | _ => false end.

Definition upd (t : Class -> list Feature) (c : Class) (l : list Feature)
    : Class -> list Feature :=
  fun c' => if decide (c' = c) then l else t c'.

(** A source [fs] agrees with the handles [t]: feature objects are
    distinct, older than the next uid [n], and the features of each class
    are exactly the ones kept track of, in the order they were added. *)
Definition src_inv (fs : list Feature) (n : nat) (t : Class -> list Feature) : Prop :=
  NoDup (uid <$> fs)
  /\ (forall f, f ∈ fs -> uid f < n)
  /\ forall c, filter (in_class c) fs = t c.

(** The invariant of the page: what is on the map is what the variables
    hold; before the map is rendered they hold nothing. *)
Definition wf (w : World) : Prop :=
  match vectorSource (mapd w) with
  | Some fs => src_inv fs (ol_next_uid w) (tracked w)
  | None => forall c, tracked w c = []
  end.

(** A world whose overlay (line, traffic segments, incidents) is made of
    feature objects created from uid [n0] on, with [nt] traffic segments
    and [ni] incidents kept track of; the map is [mi]. *)
Definition drawn_from (n0 : nat) (mi : option View) (nt ni : nat) (w : World) : Prop :=
  wf w
  /\ is_Some (vectorSource (mapd w))
  /\ mapInstance (mapd w) = mi
  /\ n0 <= ol_next_uid w
  /\ (forall c, overlay_class c = true -> forall f, f ∈ tracked w c -> n0 <= uid f)
  /\ length (trafficFeatures w) = nt
  /\ length (incidentFeatures w) = ni.

(** Map and vector source are there. *)
Definition ready (w : World) : Prop :=
  is_Some (mapInstance (mapd w)) /\ is_Some (vectorSource (mapd w)).

(** At most one watch is live, and it is the one [watchId] names. *)
Definition one_subscription (w : World) : Prop :=
  (truthy (watchId (gps w)) = false /\ watches w = [])
  \/ (exists id force, watchId (gps w) = VNum (inject_Z (Zpos id))
                     /\ watches w = [(Zpos id, force)]).

(** Weakest precondition of a computation for a postcondition on its
    outcome and final world. *)
Definition wp {A} (m : M A) (Q : outcome A -> World -> Prop) (w : World) : Prop :=
  Q (fst (m w)) (snd (m w)).

(** [m] keeps the property [I] of worlds, however it ends. *)
Definition preserves (I : World -> Prop) {A} (m : M A) : Prop :=
  forall w, I w -> I (exec m w).

(* ----------------------------------------------------------------- *)
(** ** What the functions are observed to do *)

(** The status line of a fix that is not the first one. *)
Definition steady_status (acc : Q) (fl : value) : message :=
  if Qle_bool acc 150
  then [Str "GPS Ativo. Precisão: "; Fixed 1 acc; Str "m. ";
        Str (if truthy fl then "(Seguindo)" else "")]
  else [Str "GPS ativo, precisão baixa: "; Fixed 1 acc;
        Str "m. Aguarde leituras melhores."].

(** Does a fix that is not the first one move the viewport? *)
Definition steady_go (w : World) (pos : Position) (force : bool) : bool :=
  (negb (defined (markerFeature (gps w))) || force || truthy (following (gps w)))
  && Qle_bool (accuracy pos) 150.

(** The progress message of a route request by address. *)
Definition calculating : event := ShowMessage [Str "Calculando rota..."] "info".

(** What the loops log for an item they could not draw. *)
Definition segment_error : event :=
  Console "error" [Str "[TRAFFIC] Erro ao desenhar segmento"].
Definition incident_error : event :=
  Console "error" [Str "[MAP_UTILS] Erro ao desenhar incidente"].

(** Two facts later phases keep: a geometry once given to a feature
    older than the next uid, and an event once in the trace. *)
Definition has_geometry (k : nat) (G : Geometry) (w : World) : Prop :=
  ol_geometry w !! k = Some G /\ k < ol_next_uid w.

Definition has_emitted (t0 : list event) (e : event) (w : World) : Prop :=
  exists l, trace w = (l ++ t0)%list /\ e ∈ l.

(** The route line of a result is on the map: its geometry, the fit of the
    view, the handle. *)
Definition line_drawn (k : nat) (G : Geometry) (t0 : list event) (e : event)
    (r : option Feature) (w : World) : Prop :=
  has_geometry k G w /\ has_emitted t0 e w /\ rotatual (route w) = r.

(** Everything of a world that the route overlay is not made of. *)
Definition beside_the_overlay (w : World) :=
  (gps w, originMarker (route w), destinationMarker (route w),
   originCoords (route w), destinationCoords (route w),
   apiBaseUrl (mapd w), hasInitialFix w, watches w, next_watch w).

(** A text of ASCII characters only: on such a text [toUpperCase] as it
    is modelled is the one of JavaScript. *)
Fixpoint ascii_text (s : string) : bool :=
  match s with
  | EmptyString => true
  | String c r => Nat.ltb (nat_of_ascii c) 128 && ascii_text r
  end.

(** The body [fetchRouteData] posts for two end points and the
    constraints chosen on the page. *)
Definition request_with (dom : Constraints) (o d : LonLat) : RouteRequest :=
  {| req_origin := o; req_destination := d;
     req_constraints := if RouteLogic.hasConstraints dom then Some dom else None |}.

(** What is shown while a route with constraints is computed. *)
Definition optimizing (dom : Constraints) (viaAddresses : bool) : list event :=
  if RouteLogic.hasConstraints dom
  then [OptimizationStatus
          [Str (if viaAddresses
                then "🧠 Analisando tráfego, clima e otimizando rota..."
                else "🧠 Otimizando rota com suas preferências...")] "info"]
  else [].

(** What a route response that cannot be drawn makes the page say. *)
Definition connection_error : list event :=
  [OptimizationStatus [Str "❌ Erro de conexão com o servidor"] "error";
   ShowMessage
     [Str "Erro de conexão ao calcular a rota. Verifique a URL do Ngrok e o servidor Flask."]
     "error"].

Definition access_denied : list event :=
  [SessionExpired;
   OptimizationStatus [Str "❌ Erro de acesso à API de rotas"] "error";
   ShowMessage [Str "Acesso negado ao serviço de rotas (ORS)."] "error"].

Definition route_failed : list event :=
  [OptimizationStatus [Str "❌ Falha ao calcular rota"] "error";
   ShowMessage [Str "Erro ao calcular a rota"] "error"].

(** The messages of a response that is not drawn: no connection or no
    JSON object, an HTTP error that is a refusal, any other HTTP error. *)
Definition failure_report (r : RouteLogic.Response) : list event :=
  match r with
  | RouteLogic.NetworkError => connection_error
  | RouteLogic.Reply _ _ None => connection_error
  | RouteLogic.Reply _ status (Some _) =>
      if Z.eqb status 401 || Z.eqb status 403 then access_denied else route_failed
  end.

(** A response that is not drawn. *)
Definition not_drawn (r : RouteLogic.Response) : bool :=
  match r with
  | RouteLogic.NetworkError => true
  | RouteLogic.Reply ok _ body => negb ok || negb (defined body)
  end.

(* ----------------------------------------------------------------- *)
(** ** [route_logic.js]: geocoding

    Text typed by the user is a string of UTF-8 bytes; the characters
    the code tells apart (digits, signs, dot, comma) are ASCII, and
    white space is what [\s] and [trim] take for it: the ASCII tab, line
    feed, vertical tab, form feed, carriage return and space, U+00A0,
    U+1680, U+2000 to U+200A, U+2028, U+2029, U+202F, U+205F, U+3000 and
    U+FEFF. *)

Module Geocoding.

Import MapUtils.

Definition bytes (l : list nat) : string :=
  fold_right (fun n s => String (ascii_of_nat n) s) EmptyString l.

Definition js_white_space : list string :=
  [bytes [9]; bytes [10]; bytes [11]; bytes [12]; bytes [13]; bytes [32];
   bytes [194; 160];
   bytes [225; 154; 128];
   bytes [226; 128; 128]; bytes [226; 128; 129]; bytes [226; 128; 130];
   bytes [226; 128; 131]; bytes [226; 128; 132]; bytes [226; 128; 133];
   bytes [226; 128; 134]; bytes [226; 128; 135]; bytes [226; 128; 136];
   bytes [226; 128; 137]; bytes [226; 128; 138];
   bytes [226; 128; 168]; bytes [226; 128; 169]; bytes [226; 128; 175];
   bytes [226; 129; 159];
   bytes [227; 128; 128];
   bytes [239; 187; 191]].

(** [s] without the prefix [p], when it starts with it. *)
Fixpoint strip_prefix (p s : string) : option string :=
  match p, s with
  | EmptyString, _ => Some s
  | String a p', String b s' => if Ascii.eqb a b then strip_prefix p' s' else None
  | String _ _, EmptyString => None
  end.

Fixpoint first_some {A C} (f : A -> option C) (l : list A) : option C :=
  match l with
  | [] => None
  | x :: l' => match f x with Some y => Some y | None => first_some f l' end
  end.

(** [s] without the white-space character it starts with. *)
Definition drop_space (s : string) : option string :=
  first_some (fun u => strip_prefix u s) js_white_space.

(** [\s*] at the head of [s]: what follows it.  Every character dropped
    is a byte at least, so [n] steps are enough for a string of [n]
    bytes. *)
Fixpoint skip_spaces_upto (n : nat) (s : string) : string :=
  match n with
  | 0 => s
  | S n' =>
      match drop_space s with
      | Some r => skip_spaces_upto n' r
      | None => s
      end
  end.

Definition skip_spaces (s : string) : string := skip_spaces_upto (String.length s) s.

(** [s.trimEnd()] and [s.trim()] *)
Fixpoint trimEnd (s : string) : string :=
  match s with
  | EmptyString => EmptyString
  | String c r =>
      if String.eqb (skip_spaces s) "" then EmptyString else String c (trimEnd r)
  end.

Definition trim (s : string) : string := trimEnd (skip_spaces s).

Definition is_digit (c : ascii) : bool :=
  Nat.leb 48 (nat_of_ascii c) && Nat.leb (nat_of_ascii c) 57.

Definition is_sign (c : ascii) : bool := Ascii.eqb c "-" || Ascii.eqb c "+".

(** [\d*] at the head of [s]: the digits and what follows them. *)
Fixpoint span_digits (s : string) : string * string :=
  match s with
  | String c r =>
      if is_digit c
      then let (ds, rest) := span_digits r in (String c ds, rest)
      else (EmptyString, s)
  | EmptyString => (EmptyString, EmptyString)
  end.

(** [[-+]?\d{1,3}(?:\.\d+)?] at the head of [s]: the text it matches and
    what follows.  Each piece takes all it can; giving a character back
    never helps, since what has to follow (white space, the comma, the
    end) is no digit, sign or dot. *)
Definition scan_number (s : string) : option (string * string) :=
  let (sign, s1) :=
    match s with
    | String c r => if is_sign c then (String c EmptyString, r) else (EmptyString, s)
    | EmptyString => (EmptyString, s)
    end in
  let (int, s2) := span_digits s1 in
  if Nat.leb 1 (String.length int) && Nat.leb (String.length int) 3 then
    match s2 with
    | String c r =>
        if Ascii.eqb c "." then
          let (frac, s3) := span_digits r in
          if Nat.leb 1 (String.length frac)
          then Some (sign ++ int ++ String c frac, s3)
          else Some (sign ++ int, s2)
        else Some (sign ++ int, s2)
    | EmptyString => Some (sign ++ int, s2)
    end
  else None.

(** [cleaned.match(/^\s*([-+]?\d{1,3}(?:\.\d+)?)\s*,\s*([-+]?\d{1,3}(?:\.\d+)?)\s*$/)]:
    the two captures. *)
Definition match_coordinates (cleaned : string) : option (string * string) :=
  match scan_number (skip_spaces cleaned) with
  | Some (m1, s1) =>
      match skip_spaces s1 with
      | String c s2 =>
          if Ascii.eqb c "," then
            match scan_number (skip_spaces s2) with
            | Some (m2, s3) =>
                match skip_spaces s3 with
                | EmptyString => Some (m1, m2)
                | String _ _ => None
                end
            | None => None
            end
          else None
      | EmptyString => None
      end
  | None => None
  end.

(** The language of the regular expression, piece by piece: [\s*], [\d+],
    [[-+]?\d{1,3}(?:\.\d+)?], and the whole of it with its two captures. *)
Inductive spaces : string -> Prop :=
| spaces_none : spaces EmptyString
| spaces_more u w : In u js_white_space -> spaces w -> spaces (u ++ w).

Fixpoint all_digits (s : string) : bool :=
  match s with
  | EmptyString => true
  | String c r => is_digit c && all_digits r
  end.

Definition numeral (n : string) : Prop :=
  exists sign int frac,
    n = sign ++ int ++ frac
    /\ (sign = "" \/ sign = "-" \/ sign = "+")
    /\ all_digits int = true
    /\ 1 <= String.length int <= 3
    /\ (frac = ""
        \/ exists ds, frac = "." ++ ds /\ all_digits ds = true /\ 1 <= String.length ds).

Definition coordinate_text (s m1 m2 : string) : Prop :=
  exists w1 w2 w3 w4,
    spaces w1 /\ spaces w2 /\ spaces w3 /\ spaces w4
    /\ numeral m1 /\ numeral m2
    /\ s = w1 ++ m1 ++ w2 ++ "," ++ w3 ++ m2 ++ w4.

(** The character a string starts with is no digit. *)
Definition no_digit_ahead (r : string) : bool :=
  match r with
  | String c _ => negb (is_digit c)
  | EmptyString => true
  end.

(** ... and no dot either: the text after a number of the pattern. *)
Definition number_ends (r : string) : bool :=
  match r with
  | String c _ => negb (is_digit c) && negb (Ascii.eqb c ".")
  | EmptyString => true
  end.

(** Every byte of [s] passes [P]. *)
Fixpoint all_bytes (P : ascii -> bool) (s : string) : bool :=
  match s with
  | EmptyString => true
  | String c r => P c && all_bytes P r
  end.

(** A byte of white space: an ASCII one, or a byte of a character beyond
    ASCII. *)
Definition space_byte (c : ascii) : bool :=
  let n := nat_of_ascii c in
  (Nat.leb 9 n && Nat.leb n 13) || Nat.eqb n 32 || Nat.leb 128 n.

(** A byte that a text read as coordinates can have. *)
Definition coordinate_byte (c : ascii) : bool :=
  is_digit c || is_sign c || Ascii.eqb c "." || Ascii.eqb c "," || space_byte c.

(** [Math.abs(x)] *)
Definition Math_abs (x : Q) : Q := if Qle_bool 0 x then x else (- x)%Q.

(** [Math.abs(x) <= bound] *)
Definition within (x bound : Q) : bool := Qle_bool (Math_abs x) bound.

Section Code.

Variable B : Browser.

(** [parseCoordinateString(text)] *)
Definition parseCoordinateString (text : string) : option LonLat :=
  if String.eqb text "" then None
  else
    let cleaned := trim text in
    match match_coordinates cleaned with
    | None => None
    | Some (m1, m2) =>
        match parseFloat B (Some (JString m1)), parseFloat B (Some (JString m2)) with
        | Some a, Some b =>
            if within a 90 && within b 180 then Some {| lon := b; lat := a |}
            else if within b 90 && within a 180 then Some {| lon := a; lat := b |}
            else None
        | _, _ => None
        end
    end.

(** The JSON body of the geocoding answer as far as it is read:
    [result.lon], [result.lat] (a number, or [None] when the member is
    missing or null) and [result.erro]. *)
Record GeoBody := { g_lon : option Q; g_lat : option Q; g_erro : option string }.

(** What comes back from the geocoding [fetch] and [response.json()];
    the body is [None] for a JSON [null]. *)
Inductive GeoResponse :=
| GeoNetworkError
| GeoReply (ok : bool) (status : Z) (body : option GeoBody).

(** [geocodeAddress] has returned, or waits for its [fetch]. *)
Inductive GeoStart :=
| GeoDone (r : option LonLat)
| GeoFetch (address : string).

Definition double_quote : string := String (ascii_of_nat 34) EmptyString.

(** [geocodeAddress(address)], up to the [await fetch]. *)
Definition geocodeAddress (address : string) : M GeoStart :=
  ngrokUrl <- getApiBaseUrl ;;
  if negb (str_truthy ngrokUrl) then
    showMessage [Str "Erro: URL do servidor não definida."] "error" ;;
    ret (GeoDone None)
  else
    match parseCoordinateString address with
    | Some coord => ret (GeoDone (Some coord))
    | None => ret (GeoFetch address)
    end.

(** [geocodeAddress], from the settled [fetch] on; [GeoNetworkError]
    stands for a [fetch] or a [response.json()] that is rejected. *)
Definition geocodeAddress_settled (address : string) (r : GeoResponse)
    : M (option LonLat) :=
  let connection_error :=
    emit (Console "error" [Str "Erro no fetch de geocodificação:"]) ;;
    showMessage [Str "Erro de conexão ao geocodificar o endereço."] "error" ;;
    ret None in
  match r with
  | GeoNetworkError => connection_error
  | GeoReply ok status result =>
      if Z.eqb status 401 then
        showMessage [Str "Sessão expirada. Faça login novamente."] "error" ;;
        emit SessionExpired ;;
        ret None
      else
        match result with
        | None => connection_error
        | Some b =>
            let not_found :=
              showMessage
                [Str "Erro de geocodificação para: "; Str double_quote; Str address;
                 Str double_quote; Str ". Detalhe: ";
                 Str (if str_truthy (g_erro b)
                      then default "" (g_erro b) else "Endereço não encontrado")]
                "error" ;;
              emit (Console "error"
                      [Str "[GEOCODING] Falha ao geocodificar "; Str address]) ;;
              ret None in
            if ok && num_truthy (g_lon b) && num_truthy (g_lat b) then
              match g_lon b, g_lat b with
              | Some x, Some y => ret (Some {| lon := x; lat := y |})
              | _, _ => not_found
              end
            else not_found
        end
  end.

End Code.

(** The number a numeral of the pattern stands for. *)
Fixpoint digits_value (acc : Z) (s : string) : Z :=
  match s with
  | EmptyString => acc
  | String c r => digits_value (10 * acc + Z.of_nat (nat_of_ascii c - 48)) r
  end.

Definition numeral_value (m : string) : Q :=
  let (negative, body) :=
    match m with
    | String c r => if Ascii.eqb c "-" then (true, r)
                    else if Ascii.eqb c "+" then (false, r) else (false, m)
    | EmptyString => (false, m)
    end in
  let (int, rest) := span_digits body in
  let frac := match rest with String _ f => f | EmptyString => EmptyString end in
  let q := Qred ((digits_value 0 int # 1)
                 + (digits_value 0 frac # Z.to_pos (10 ^ Z.of_nat (String.length frac))))%Q in
  if negative then Qred (- q)%Q else q.

(** A browser as [a_browser], whose [parseFloat] reads the numerals of
    the pattern; on any other text it gives NaN here. *)
Definition a_reading_browser : Browser :=
  {| has_geolocation := true;
     global_FontFaceSetLoadEvent := Some (VFunction "FontFaceSetLoadEvent");
     has_btn_follow := true;
     has_legend_elements := true;
     removeFeature_strict := false;
     reads_geometry := fun g => negb (nullish (coordinates g));
     empty_extent := fun g => match coordinates g with
                              | Some (JArray []) => true
                              | _ => false
                              end;
     fromLonLat := fun p => p;
     parseFloat_text := fun j =>
       match j with
       | JString s =>
           match scan_number s with
           | Some (m, EmptyString) => Some (numeral_value m)
           | _ => None
           end
       | _ => None
       end |}.

End Geocoding.

(** A [showMessage] call. *)
Definition is_message (e : event) : bool :=
  match e with ShowMessage _ _ => true | _ => false end.

(* ----------------------------------------------------------------- *)
(** ** [events.js]: the buttons

    The handlers of the locate, clear and route buttons.  What they
    write into the two text inputs is not modelled; the route button
    reads them, so their values are arguments, [None] when the page has
    neither the mobile nor the desktop input. *)

Module Events.

Import MapUtils Geocoding.

Definition lower_ascii (c : ascii) : ascii :=
  let n := nat_of_ascii c in
  if Nat.leb 65 n && Nat.leb n 90 then ascii_of_nat (n + 32) else c.

(** [s.toLowerCase()], on the ASCII letters. *)
Fixpoint toLowerCase (s : string) : string :=
  match s with
  | EmptyString => EmptyString
  | String c r => String (lower_ascii c) (toLowerCase r)
  end.

Section Code.

Variable B : Browser.

(** click on [#locate-button] *)
Definition locateClick : M unit :=
  p <- getCurrentPos ;;
  if defined p then
    Geolocation.centerMapOnCurrentPos B ;;
    showMessage [Str "Mapa centralizado na sua localização."] "info"
  else
    showMessage [Str "Iniciando rastreamento GPS..."] "info" ;;
    Geolocation.getCurrentOnceAndStartWatch B true.

(** click on [#clear-button] *)
Definition clearClick : M unit :=
  clearRoute B ;;
  Geolocation.stopWatching ;;
  showMessage [Str "Rota e GPS limpos."] "info".

(** [x.value], on an element that may be null *)
Definition value_of (input : option string) : M string :=
  match input with
  | Some v => ret v
  | None => throw (TypeError "value of null")
  end.

(** click on [#rota], up to the first [await] *)
Definition rotaClick (inputStart inputEnd : option string)
    : M (option RouteLogic.Pending) :=
  sv <- value_of inputStart ;;
  let startValue := trim sv in
  ev <- value_of inputEnd ;;
  let endValue := trim ev in
  if String.eqb endValue "" then
    showMessage [Str "Por favor, insira um endereço de DESTINO."] "error" ;;
    ret None
  else if String.eqb (toLowerCase startValue) "gps" || String.eqb startValue "" then
    currentPos <- getCurrentPos ;;
    if defined currentPos then
      RouteLogic.calculateRouteFromAddresses B "GPS" endValue
    else
      showMessage
        [Str "Origem GPS não disponível. Por favor, insira o endereço de origem."]
        "error" ;;
      ret None
  else RouteLogic.calculateRouteFromAddresses B startValue endValue.

End Code.

End Events.

(* ----------------------------------------------------------------- *)
(** ** The legacy page: requests and answers in any order *)

Module LegacyPage.

Import Legacy.

(** The globals of the legacy scripts and the requests that have been
    posted and not answered yet. *)
Record Page := { globals : Globals; in_flight : list RouteRequest }.

Inductive Action :=
| Request (origemCoord destinoCoord : LonLatPair)   (* a call of window.drawRoute *)
| Settle (k : nat) (a : Answer)                     (* the k-th pending fetch settles *)
| Remove.                                           (* a call of window.remove_route *)

Definition step (o : Action) (p : Page) : Page :=
  match o with
  | Request origem destino =>
      let (r, g) := drawRoute origem destino (globals p) in
      {| globals := g;
         in_flight := match r with
                      | Some q => (in_flight p ++ [q])%list
                      | None => in_flight p
                      end |}
  | Settle k a =>
      match in_flight p !! k with
      | Some _ =>
          {| globals := drawRoute_settled a (globals p);
             in_flight := delete k (in_flight p) |}
      | None => p
      end
  | Remove => {| globals := remove_route (globals p); in_flight := in_flight p |}
  end.

(** The legacy [map_init.js] starts with no route layer, and
    [route_logic.js] with the flag down. *)
Definition initial : Page :=
  {| globals := {| is_drawing_route := false; rotatual := None; layers := [];
                   next_layer := 0; log := [] |};
     in_flight := [] |}.

Inductive legacy_reachable : Page -> Prop :=
| reach_initial : legacy_reachable initial
| reach_next p o : legacy_reachable p -> legacy_reachable (step o p).

End LegacyPage.

(* ================================================================= *)
(** * Proofs *)

Local Close Scope string_scope.

(* ----------------------------------------------------------------- *)
(** ** Running a computation step by step *)

Lemma wp_ret {A} (a : A) Q w : Q (Ok a) w -> wp (ret a) Q w.
Proof. exact (fun H => H). Qed.

Lemma wp_bind {A C} (m : M A) (k : A -> M C) Q w :
  wp m (fun o w' => match o with
                    | Ok a => wp (k a) Q w'
                    | Throw e => Q (Throw e) w'
                    end) w ->
  wp (bind m k) Q w.
Proof.
  unfold wp, bind. destruct (m w) as [[a|e] w']; exact (fun H => H).
Qed.

Lemma wp_gets {A} (f : World -> A) Q w : Q (Ok (f w)) w -> wp (gets f) Q w.
Proof. exact (fun H => H). Qed.

Lemma wp_modify (f : World -> World) Q w : Q (Ok tt) (f w) -> wp (modify f) Q w.
Proof. exact (fun H => H). Qed.

Lemma wp_throw {A} (e : error) (Q : outcome A -> World -> Prop) w :
  Q (Throw e) w -> wp (throw e) Q w.
Proof. exact (fun H => H). Qed.

Lemma wp_try_catch {A} (m : M A) (h : error -> M A) Q w :
  wp m (fun o w' => match o with
                    | Ok a => Q (Ok a) w'
                    | Throw e => wp (h e) Q w'
                    end) w ->
  wp (try_catch m h) Q w.
Proof.
  unfold wp, try_catch. destruct (m w) as [[a|e] w']; exact (fun H => H).
Qed.

Lemma wp_mono {A} (m : M A) (Q Q' : outcome A -> World -> Prop) w :
  wp m Q w -> (forall o w', Q o w' -> Q' o w') -> wp m Q' w.
Proof. unfold wp. intros H HQ. apply HQ, H. Qed.

Lemma wp_exec {A} (m : M A) (P : World -> Prop) w :
  wp m (fun _ w' => P w') w -> P (exec m w).
Proof. exact (fun H => H). Qed.

Lemma wp_run {A} (m : M A) (P : outcome A * World -> Prop) w :
  wp m (fun o w' => P (o, w')) w -> P (m w).
Proof. unfold wp. destruct (m w). exact (fun H => H). Qed.

Lemma wp_newFeature k g Q w :
  Q (Ok {| uid := ol_next_uid w; kind := k |})
    (with_ol (S (ol_next_uid w)) (<[ol_next_uid w := g]> (ol_geometry w)) w) ->
  wp (newFeature k g) Q w.
Proof. exact (fun H => H). Qed.

Lemma wp_newBareFeature k Q w :
  Q (Ok {| uid := ol_next_uid w; kind := k |})
    (with_ol (S (ol_next_uid w)) (ol_geometry w) w) ->
  wp (newBareFeature k) Q w.
Proof. exact (fun H => H). Qed.

Lemma wp_addFeature f Q w fs :
  vectorSource (mapd w) = Some fs ->
  Q (Ok tt) (set_source (fs ++ [f]) w) ->
  wp (addFeature f) Q w.
Proof. intros H HQ. unfold wp, addFeature. rewrite H. exact HQ. Qed.

Lemma wp_setCenter c Q w v :
  mapInstance (mapd w) = Some v ->
  Q (Ok tt) (with_trace (SetCenter c :: trace w)
               (set_view {| center := c; zoom := zoom v |} w)) ->
  wp (setCenter c) Q w.
Proof. intros H HQ. unfold wp, setCenter. rewrite H. exact HQ. Qed.

Lemma wp_setZoom z Q w v :
  mapInstance (mapd w) = Some v ->
  Q (Ok tt) (with_trace (SetZoom z :: trace w)
               (set_view {| center := center v; zoom := z |} w)) ->
  wp (setZoom z) Q w.
Proof. intros H HQ. unfold wp, setZoom. rewrite H. exact HQ. Qed.

Lemma wp_getZoom Q w v :
  mapInstance (mapd w) = Some v -> Q (Ok (zoom v)) w -> wp getZoom Q w.
Proof. intros H HQ. unfold wp, getZoom. rewrite H. exact HQ. Qed.

Lemma wp_watchPosition force Q w :
  Q (Ok (Zpos (next_watch w)))
    (with_trace (WatchPosition (Zpos (next_watch w)) :: trace w)
       (with_navigator ((Zpos (next_watch w), force) :: watches w)
                       (Pos.succ (next_watch w)) w)) ->
  wp (watchPosition force) Q w.
Proof. exact (fun H => H). Qed.

(** One step of symbolic execution. *)
Ltac wp_step :=
  lazymatch goal with
  | |- wp (bind _ _) _ _ => apply wp_bind
  | |- wp (ret _) _ _ => apply wp_ret
  | |- wp (gets _) _ _ => apply wp_gets
  | |- wp (modify _) _ _ => apply wp_modify
  | |- wp (throw _) _ _ => apply wp_throw
  | |- wp (try_catch _ _) _ _ => apply wp_try_catch
  | |- wp getMapInstance _ _ => apply wp_gets
  | |- wp getVectorSource _ _ => apply wp_gets
  | |- wp getApiBaseUrl _ _ => apply wp_gets
  | |- wp getMarkerFeature _ _ => apply wp_gets
  | |- wp getAccuracyFeature _ _ => apply wp_gets
  | |- wp isFollowing _ _ => apply wp_gets
  | |- wp getWatchId _ _ => apply wp_gets
  | |- wp getCurrentPos _ _ => apply wp_gets
  | |- wp getCurrentAccuracy _ _ => apply wp_gets
  | |- wp getRotatual _ _ => apply wp_gets
  | |- wp getOriginMarker _ _ => apply wp_gets
  | |- wp getDestinationMarker _ _ => apply wp_gets
  | |- wp getOriginCoords _ _ => apply wp_gets
  | |- wp getDestinationCoords _ _ => apply wp_gets
  | |- wp (setCurrentPos _) _ _ => apply wp_modify
  | |- wp (setCurrentAccuracy _) _ _ => apply wp_modify
  | |- wp (setMarkerFeature _) _ _ => apply wp_modify
  | |- wp (setAccuracyFeature _) _ _ => apply wp_modify
  | |- wp (setWatchId _) _ _ => apply wp_modify
  | |- wp (toggleFollowingState _) _ _ => apply wp_modify
  | |- wp (setRotatual _) _ _ => apply wp_modify
  | |- wp (setOriginMarker _) _ _ => apply wp_modify
  | |- wp (setDestinationMarker _) _ _ => apply wp_modify
  | |- wp (setOriginCoords _) _ _ => apply wp_modify
  | |- wp (setDestinationCoords _) _ _ => apply wp_modify
  | |- wp (setGeometry _ _) _ _ => apply wp_modify
  | |- wp (emit _) _ _ => apply wp_modify
  | |- wp (updateStatus _) _ _ => apply wp_modify
  | |- wp (showMessage _ _) _ _ => apply wp_modify
  | |- wp (newFeature _ _) _ _ => apply wp_newFeature
  | |- wp (newBareFeature _) _ _ => apply wp_newBareFeature
  | |- wp (watchPosition _) _ _ => apply wp_watchPosition
  | |- wp (setCenter _) _ _ => eapply wp_setCenter; [reflexivity|]
  | |- wp (setZoom _) _ _ => eapply wp_setZoom; [reflexivity|]
  | |- wp getZoom _ _ => eapply wp_getZoom; [reflexivity|]
  | |- wp (addFeature _) _ _ => eapply wp_addFeature; [reflexivity|]
  end.

(** Reads of a world that is written out field by field. *)
Ltac state_simpl :=
  cbn [gps route mapd hasInitialFix trafficFeatures incidentFeatures ol_next_uid
       ol_geometry watches next_watch trace
       markerFeature accuracyFeature following currentPos currentAccuracy watchId
       rotatual originMarker destinationMarker originCoords destinationCoords
       mapInstance vectorSource apiBaseUrl
       with_gps with_route with_mapd with_hasInitialFix with_trafficFeatures
       with_incidentFeatures with_ol with_navigator with_trace put_source set_source set_view
       defined negb orb andb fst snd center zoom uid kind].

Ltac wp_go := repeat (wp_step; state_simpl).

Ltac open_world w :=
  destruct w as [[mk ak fl cp ca wi] [rt om dm oc dc] [mi vs url]
                 hif tf inf nu og ws nw tr];
  cbn [gps route mapd hasInitialFix trafficFeatures incidentFeatures ol_next_uid
       ol_geometry watches next_watch trace
       markerFeature accuracyFeature following currentPos currentAccuracy watchId
       rotatual originMarker destinationMarker originCoords destinationCoords
       mapInstance vectorSource apiBaseUrl] in *.

(* ----------------------------------------------------------------- *)
(** ** Arithmetic on accuracies and traces *)

Lemma emitted_app (w w' : World) (new : list event) :
  trace w' = new ++ trace w -> emitted w w' = new.
Proof.
  intros H. unfold emitted. rewrite H, length_app.
  replace (length new + length (trace w) - length (trace w)) with (length new) by lia.
  apply take_app_length.
Qed.

Lemma emitted_same (w w' : World) : trace w' = trace w -> emitted w w' = [].
Proof. intros H. now apply (emitted_app w w' []). Qed.

Lemma Qle_bool_false_lt (a b : Q) : Qle_bool a b = false <-> (b < a)%Q.
Proof.
  split.
  - intros H. apply Qnot_le_lt. intros Hle. apply Qle_bool_iff in Hle. congruence.
  - intros H. destruct (Qle_bool a b) eqn:E; [|reflexivity].
    apply Qle_bool_iff in E. exfalso. exact (Qlt_not_le _ _ H E).
Qed.

Lemma max16_ge (z : Q) : (16 <= max16 z)%Q.
Proof.
  unfold max16. destruct (Qle_bool 16 z) eqn:E.
  - now apply Qle_bool_iff.
  - apply Qle_refl.
Qed.

(* ----------------------------------------------------------------- *)
(** ** The sensor callback *)

Section GeolocationFacts.

Import Geolocation.
Variable B : Browser.

Lemma handlePosition_steady (w : World) (pos : Position) (force : bool)
    (v : View) (fs : list Feature) :
  mapInstance (mapd w) = Some v ->
  vectorSource (mapd w) = Some fs ->
  hasInitialFix w = true ->
  let w' := exec (handlePosition B pos force) w in
  let coord := fromLonLat B (longitude pos, latitude pos) in
  trace w' =
    UpdateStatus (steady_status (accuracy pos) (following (gps w)))
      :: (if steady_go w pos force
          then [SetZoom (max16 (zoom v)); SetCenter coord] else [])
      ++ trace w
  /\ mapInstance (mapd w') =
       Some (if steady_go w pos force
             then {| center := coord; zoom := max16 (zoom v) |} else v)
  /\ hasInitialFix w' = true.
Proof.
  intros Hm Hs Hf. open_world w. subst.
  apply wp_exec.
  unfold handlePosition, GPS_RELIABLE_THRESHOLD, Qgt_bool, steady_status, steady_go.
  wp_go.
  destruct mk, ak; wp_go.
  all: destruct (Qle_bool (accuracy pos) 150);
    rewrite ?andb_true_r, ?andb_false_r; state_simpl; wp_go.
  all: try (destruct (force || truthy fl); wp_go).
  all: repeat split; reflexivity.
Qed.

Lemma handlePosition_first (w : World) (pos : Position) (force : bool)
    (v : View) (fs : list Feature) :
  mapInstance (mapd w) = Some v ->
  vectorSource (mapd w) = Some fs ->
  hasInitialFix w = false ->
  let w' := exec (handlePosition B pos force) w in
  let coord := fromLonLat B (longitude pos, latitude pos) in
  trace w' =
    [UpdateStatus [Str "GPS inicial obtido. Precisão: "; Fixed 1 (accuracy pos);
                   Str "m."];
     SetZoom (max16 (zoom v)); SetCenter coord] ++ trace w
  /\ mapInstance (mapd w') = Some {| center := coord; zoom := max16 (zoom v) |}
  /\ hasInitialFix w' = true.
Proof.
  intros Hm Hs Hf. open_world w. subst.
  apply wp_exec. unfold handlePosition.
  wp_go.
  destruct mk, ak; wp_go.
  all: repeat split; reflexivity.
Qed.

(** What every accepted callback stores, first fix or not. *)
Lemma handlePosition_store (w : World) (pos : Position) (force : bool)
    (v : View) (fs : list Feature) :
  mapInstance (mapd w) = Some v ->
  vectorSource (mapd w) = Some fs ->
  let w' := exec (handlePosition B pos force) w in
  let coord := fromLonLat B (longitude pos, latitude pos) in
  currentPos (gps w') = Some (longitude pos, latitude pos)
  /\ currentAccuracy (gps w') = VNum (accuracy pos)
  /\ exists a, accuracyFeature (gps w') = Some a
       /\ ol_geometry w' !! uid a = Some (Circle coord (accuracy pos))
       /\ (accuracyFeature (gps w) = None ->
           exists fs', vectorSource (mapd w') = Some fs' /\ a ∈ fs').
Proof.
  intros Hm Hs. open_world w. subst.
  apply wp_exec.
  unfold handlePosition, GPS_RELIABLE_THRESHOLD, Qgt_bool.
  wp_go.
  destruct mk, ak, hif; wp_go.
  all: try (destruct (Qle_bool (accuracy pos) 150);
    rewrite ?andb_true_r, ?andb_false_r; state_simpl; wp_go).
  all: try (destruct (force || truthy fl); wp_go).
  all: do 2 (split; [reflexivity|]).
  all: eexists; split; [reflexivity|]; split; [apply lookup_insert_eq|].
  all: try discriminate.
  all: intros _; eexists; split; [reflexivity|].
  all: rewrite !elem_of_app, !list_elem_of_singleton; auto.
Qed.

(** Before the map is rendered a fix is refused and nothing else
    happens. *)
Lemma handlePosition_refused (w : World) (pos : Position) (force : bool) :
  mapInstance (mapd w) = None \/ vectorSource (mapd w) = None ->
  exec (handlePosition B pos force) w
  = with_trace
      (UpdateStatus [Str "Erro interno: Mapa não inicializado para GPS."] :: trace w) w.
Proof.
  intros H. open_world w.
  apply wp_exec. unfold handlePosition. wp_go.
  destruct mi, vs; destruct H; try discriminate; wp_go; reflexivity.
Qed.

End GeolocationFacts.

(* ----------------------------------------------------------------- *)
(** ** Recentring policy of the sensor callback *)

Section RecentringPolicy.

Import Geolocation.
Variable B : Browser.

(** C1.  For every location callback after the first fix of a tracking
    session (the map is rendered and [hasInitialFix] is set), the
    viewport is recentred on the new position if and only if (the marker
    feature was just created, or the caller forced initial centring, or
    follow-mode is on) and the reported accuracy is at most 150 m;
    otherwise the view is left alone.  In particular a callback with an
    accuracy above 150 m stores the position and the accuracy, gives the
    accuracy circle its new geometry, and makes no call on the view. *)
Theorem steady_state_recentring (w : World) (pos : Position) (force : bool)
    (v : View) (fs : list Feature) :
  mapInstance (mapd w) = Some v ->
  vectorSource (mapd w) = Some fs ->
  hasInitialFix w = true ->
  let w' := exec (handlePosition B pos force) w in
  let coord := fromLonLat B (longitude pos, latitude pos) in
  let wanted :=
    negb (defined (markerFeature (gps w))) || force || truthy (following (gps w)) in
  (SetCenter coord ∈ emitted w w' <-> wanted = true /\ (accuracy pos <= 150)%Q)
  /\ (~ (wanted = true /\ (accuracy pos <= 150)%Q) ->
      mapInstance (mapd w') = mapInstance (mapd w)
      /\ forall e, e ∈ emitted w w' -> is_view_call e = false)
  /\ ((150 < accuracy pos)%Q ->
      currentPos (gps w') = Some (longitude pos, latitude pos)
      /\ currentAccuracy (gps w') = VNum (accuracy pos)
      /\ (exists a, accuracyFeature (gps w') = Some a
            /\ ol_geometry w' !! uid a = Some (Circle coord (accuracy pos)))
      /\ mapInstance (mapd w') = mapInstance (mapd w)
      /\ forall e, e ∈ emitted w w' -> is_view_call e = false).
Proof.
  intros Hm Hs Hf w' coord wanted.
  destruct (handlePosition_steady B w pos force v fs Hm Hs Hf) as (Ht & Hv & _).
  destruct (handlePosition_store B w pos force v fs Hm Hs) as (Hp & Ha & a & Hc & Hg & _).
  fold w' in Ht, Hv, Hp, Ha, Hc, Hg. fold coord in Ht, Hv, Hg.
  apply (emitted_app w w' (_ :: _)) in Ht.
  unfold steady_go in Ht, Hv. fold wanted in Ht, Hv.
  assert (Hgo : wanted && Qle_bool (accuracy pos) 150 = true
                <-> wanted = true /\ (accuracy pos <= 150)%Q).
  { rewrite andb_true_iff, Qle_bool_iff. reflexivity. }
  assert (Hstay : wanted && Qle_bool (accuracy pos) 150 = false ->
            mapInstance (mapd w') = mapInstance (mapd w)
            /\ forall e, e ∈ emitted w w' -> is_view_call e = false).
  { intros E. rewrite E in Ht, Hv. rewrite Ht, Hv, Hm. split; [reflexivity|].
    intros e He. apply list_elem_of_singleton in He. now subst e. }
  split; [|split].
  - rewrite <- Hgo. destruct (wanted && Qle_bool (accuracy pos) 150).
    + rewrite Ht. split; [reflexivity|]. intros _.
      do 2 apply list_elem_of_further. apply list_elem_of_here.
    + rewrite Ht. split; [|discriminate].
      intros He. apply list_elem_of_singleton in He. discriminate.
  - intros Hn. apply Hstay.
    destruct (wanted && Qle_bool (accuracy pos) 150); [|reflexivity].
    exfalso. apply Hn, Hgo. reflexivity.
  - intros Hlow.
    assert (E : Qle_bool (accuracy pos) 150 = false) by now apply Qle_bool_false_lt.
    do 2 (split; [assumption|]). split; [exists a; now split|].
    apply Hstay. rewrite E. apply andb_false_r.
Qed.

(** C2.  The very first accepted location callback after tracking is
    started, or started again after a stop, recentres the map on the
    reported position and sets the zoom to [max(16, zoom)], which is at
    least 16, whatever the accuracy, the follow flag and the force
    argument; the only status it writes is the first-fix one, so the
    steady-state policy is not run for that callback. *)
Theorem first_fix_recentres (w : World) (pos : Position) (force : bool)
    (v : View) (fs : list Feature) :
  mapInstance (mapd w) = Some v ->
  vectorSource (mapd w) = Some fs ->
  let coord := fromLonLat B (longitude pos, latitude pos) in
  let first_fix (w0 : World) :=
    let w' := exec (handlePosition B pos force) w0 in
    emitted w0 w' =
      [UpdateStatus [Str "GPS inicial obtido. Precisão: "; Fixed 1 (accuracy pos);
                     Str "m."];
       SetZoom (max16 (zoom v)); SetCenter coord]
    /\ mapInstance (mapd w') = Some {| center := coord; zoom := max16 (zoom v) |}
    /\ (16 <= max16 (zoom v))%Q
    /\ hasInitialFix w' = true in
  (hasInitialFix w = false -> first_fix w)
  /\ (truthy (watchId (gps w)) = true ->
      forall again : bool,
        first_fix (exec (startWatching B again) (exec stopWatching w))).
Proof.
  intros Hm Hs coord first_fix.
  assert (Hfirst : forall w0, mapInstance (mapd w0) = Some v ->
            vectorSource (mapd w0) = Some fs ->
            hasInitialFix w0 = false -> first_fix w0).
  { intros w0 Hm0 Hs0 Hf0. unfold first_fix.
    destruct (handlePosition_first B w0 pos force v fs Hm0 Hs0 Hf0) as (Ht & Hv & Hf').
    apply emitted_app in Ht.
    repeat split; try assumption. apply max16_ge. }
  split; [now apply Hfirst|].
  intros Hw again.
  assert (Hrestart :
    mapd (exec (startWatching B again) (exec stopWatching w)) = mapd w
    /\ hasInitialFix (exec (startWatching B again) (exec stopWatching w)) = false).
  { clear Hfirst first_fix. open_world w.
    apply wp_exec. unfold startWatching.
    assert (Hstop : exists g t ws',
      exec stopWatching
        {| gps := {| markerFeature := mk; accuracyFeature := ak; following := fl;
                     currentPos := cp; currentAccuracy := ca; watchId := wi |};
           route := {| rotatual := rt; originMarker := om; destinationMarker := dm;
                       originCoords := oc; destinationCoords := dc |};
           mapd := {| mapInstance := mi; vectorSource := vs; apiBaseUrl := url |};
           hasInitialFix := hif; trafficFeatures := tf; incidentFeatures := inf;
           ol_next_uid := nu; ol_geometry := og; watches := ws; next_watch := nw;
           trace := tr |}
      = {| gps := {| markerFeature := mk; accuracyFeature := ak; following := g;
                     currentPos := cp; currentAccuracy := ca; watchId := VNull |};
           route := {| rotatual := rt; originMarker := om; destinationMarker := dm;
                       originCoords := oc; destinationCoords := dc |};
           mapd := {| mapInstance := mi; vectorSource := vs; apiBaseUrl := url |};
           hasInitialFix := false; trafficFeatures := tf; incidentFeatures := inf;
           ol_next_uid := nu; ol_geometry := og; watches := ws'; next_watch := nw;
           trace := t |}).
    { apply wp_exec. unfold stopWatching. wp_go. rewrite Hw. wp_go.
      unfold clearWatch. destruct wi; wp_go; do 3 eexists; reflexivity. }
    destruct Hstop as (g & t & ws' & ->).
    destruct (has_geolocation B); state_simpl; wp_go; [|now split].
    unfold FontFaceSetLoadEvent.
    destruct (global_FontFaceSetLoadEvent B); wp_go; now split. }
  destruct Hrestart as [Hmapd Hfix].
  apply Hfirst; [rewrite Hmapd; assumption | rewrite Hmapd; assumption | assumption].
Qed.

(** C7 (amended).  While follow-mode is on, an accepted position update
    recentres the map on the reported position exactly when it is the
    first fix of the session or its accuracy is at most 150 m; a later
    fix with an accuracy above 150 m leaves the viewport where it is. *)
Theorem follow_mode_recentres_reliable_fixes (w : World) (pos : Position)
    (force : bool) (v : View) (fs : list Feature) :
  mapInstance (mapd w) = Some v ->
  vectorSource (mapd w) = Some fs ->
  truthy (following (gps w)) = true ->
  let w' := exec (handlePosition B pos force) w in
  let coord := fromLonLat B (longitude pos, latitude pos) in
  (SetCenter coord ∈ emitted w w'
   <-> hasInitialFix w = false \/ (accuracy pos <= 150)%Q)
  /\ (hasInitialFix w = false \/ (accuracy pos <= 150)%Q ->
      mapInstance (mapd w') = Some {| center := coord; zoom := max16 (zoom v) |})
  /\ (hasInitialFix w = true -> (150 < accuracy pos)%Q ->
      mapInstance (mapd w') = Some v).
Proof.
  intros Hm Hs Hfl w' coord.
  destruct (hasInitialFix w) eqn:Hf.
  - destruct (handlePosition_steady B w pos force v fs Hm Hs Hf) as (Ht & Hv & _).
    fold w' in Ht, Hv. fold coord in Ht, Hv.
    apply (emitted_app w w' (_ :: _)) in Ht.
    unfold steady_go in Ht, Hv. rewrite Hfl, orb_true_r, andb_true_l in Ht, Hv.
    destruct (Qle_bool (accuracy pos) 150) eqn:E.
    + apply Qle_bool_iff in E. rewrite Ht. repeat split; auto.
      * intros _. do 2 apply list_elem_of_further. apply list_elem_of_here.
      * intros _ Hlow. exfalso. exact (Qlt_not_le _ _ Hlow E).
    + apply Qle_bool_false_lt in E. rewrite Ht. repeat split.
      * intros He. apply list_elem_of_singleton in He. discriminate.
      * intros [?|Hle]; [discriminate|]. exfalso. exact (Qlt_not_le _ _ E Hle).
      * intros [?|Hle]; [discriminate|]. exfalso. exact (Qlt_not_le _ _ E Hle).
      * intros _ _. exact Hv.
  - destruct (handlePosition_first B w pos force v fs Hm Hs Hf) as (Ht & Hv & _).
    fold w' in Ht, Hv. fold coord in Ht, Hv.
    apply emitted_app in Ht. rewrite Ht. repeat split; auto.
    + intros _. do 2 apply list_elem_of_further. apply list_elem_of_here.
    + discriminate.
Qed.

End RecentringPolicy.

(* ----------------------------------------------------------------- *)
(** ** The policy on a concrete session *)

Lemma steady_state_recentring_witness :
  hasInitialFix tracking_world = true
  /\ forall e,
       e ∈ emitted tracking_world
             (exec (Geolocation.handlePosition (a_browser true) (fix_at 200) false)
                tracking_world) ->
       is_view_call e = false.
Proof.
  split; [reflexivity|].
  edestruct (steady_state_recentring (a_browser true) tracking_world (fix_at 200) false)
    as (_ & _ & H); [reflexivity | reflexivity | reflexivity |].
  apply H. reflexivity.
Defined.

Lemma first_fix_recentres_witness :
  hasInitialFix rendered_world = false
  /\ mapInstance (mapd (exec (Geolocation.handlePosition (a_browser true) (fix_at 200) false)
                          rendered_world))
     = Some {| center := fromLonLat (a_browser true) ((-466 # 10)%Q, (-235 # 10)%Q);
               zoom := max16 10 |}.
Proof.
  split; [reflexivity|].
  edestruct (first_fix_recentres (a_browser true) rendered_world (fix_at 200) false)
    as (H & _); [reflexivity | reflexivity |].
  apply H. reflexivity.
Defined.

Lemma follow_mode_recentres_reliable_fixes_witness :
  truthy (following (gps following_world)) = true
  /\ mapInstance (mapd (exec (Geolocation.handlePosition (a_browser true) (fix_at 50) false)
                          following_world))
     = Some {| center := fromLonLat (a_browser true) ((-466 # 10)%Q, (-235 # 10)%Q);
               zoom := max16 16 |}.
Proof.
  split; [reflexivity|].
  edestruct (follow_mode_recentres_reliable_fixes (a_browser true) following_world
               (fix_at 50) false)
    as (_ & H & _); [reflexivity | reflexivity | reflexivity |].
  apply H. right. discriminate.
Defined.

(** C7, as stated, fails: follow-mode is on, the map is rendered, the
    callback is accepted, and a fix with an accuracy of 200 m does not
    recentre the map. *)
Lemma follow_mode_low_accuracy_counterexample :
  let B := a_browser true in
  let w := following_world in
  let w' := exec (Geolocation.handlePosition B (fix_at 200) false) w in
  ready w
  /\ following (gps w) = VBool true
  /\ currentPos (gps w') = Some (longitude (fix_at 200), latitude (fix_at 200))
  /\ (forall c, ~ SetCenter c ∈ emitted w w')
  /\ mapInstance (mapd w') = mapInstance (mapd w).
Proof.
  intros B w w'.
  assert (E : emitted w w' =
              [UpdateStatus [Str "GPS ativo, precisão baixa: "; Fixed 1 200;
                             Str "m. Aguarde leituras melhores."]])
    by (vm_compute; reflexivity).
  split; [split; eexists; reflexivity|].
  split; [reflexivity|]. split; [reflexivity|].
  split; [|reflexivity].
  intros c H. rewrite E in H. apply list_elem_of_singleton in H. discriminate.
Qed.

(* ----------------------------------------------------------------- *)
(** ** Properties kept by every step *)

Section Preservation.

Variable I : World -> Prop.

Lemma preserves_ret {A} (a : A) : preserves I (ret a).
Proof. intros w H. exact H. Qed.

Lemma preserves_throw {A} (e : error) : preserves I (@throw A e).
Proof. intros w H. exact H. Qed.

Lemma preserves_gets {A} (f : World -> A) : preserves I (gets f).
Proof. intros w H. exact H. Qed.

Lemma preserves_modify (f : World -> World) :
  (forall w, I w -> I (f w)) -> preserves I (modify f).
Proof. intros Hf w H. apply Hf, H. Qed.

Lemma preserves_bind {A C} (m : M A) (k : A -> M C) :
  preserves I m -> (forall a, preserves I (k a)) -> preserves I (bind m k).
Proof.
  intros Hm Hk w H. specialize (Hm w H). unfold exec, bind in *.
  destruct (m w) as [[a|e] w']; cbn in *; [apply Hk|]; assumption.
Qed.

Lemma preserves_try_catch {A} (m : M A) (h : error -> M A) :
  preserves I m -> (forall e, preserves I (h e)) -> preserves I (try_catch m h).
Proof.
  intros Hm Hh w H. specialize (Hm w H). unfold exec, try_catch in *.
  destruct (m w) as [[a|e] w']; cbn in *; [|apply Hh]; assumption.
Qed.

Lemma preserves_forEach {A} (f : A -> M unit) (l : list A) :
  (forall x, preserves I (f x)) -> preserves I (forEach f l).
Proof.
  intros Hf. induction l as [|x l IH]; cbn [forEach].
  - apply preserves_ret.
  - apply preserves_bind; [apply Hf | intros _; exact IH].
Qed.

Lemma preserves_forEachIdx {A} (f : nat -> A -> M unit) (l : list A) (i : nat) :
  (forall i x, preserves I (f i x)) -> preserves I (forEachIdx f i l).
Proof.
  intros Hf. revert i. induction l as [|x l IH]; intros i; cbn [forEachIdx].
  - apply preserves_ret.
  - apply preserves_bind; [apply Hf | intros _; apply IH].
Qed.

Lemma preserves_exec {A} (m : M A) (w : World) :
  preserves I m -> I w -> I (exec m w).
Proof. intros Hm H. apply Hm, H. Qed.

End Preservation.

(** Taking a computation apart along its structure. *)
Ltac pres_step :=
  lazymatch goal with
  | |- preserves _ (bind _ _) => apply preserves_bind; [|intros ?]
  | |- preserves _ (ret _) => apply preserves_ret
  | |- preserves _ (throw _) => apply preserves_throw
  | |- preserves _ (gets _) => apply preserves_gets
  | |- preserves _ (try_catch _ _) => apply preserves_try_catch; [|intros ?]
  | |- preserves _ (forEach _ _) => apply preserves_forEach; intros ?
  | |- preserves _ (forEachIdx _ _ _) => apply preserves_forEachIdx; intros ? ?
  | |- preserves _ (if ?b then _ else _) => destruct b
  | |- preserves _ (match ?x with _ => _ end) => destruct x
  end.

(** A primitive written as a function of the world: run it. *)
Ltac pres_prim :=
  let w := fresh "w" in
  let H := fresh "H" in
  intros w H; unfold exec;
  cbv beta delta [newFeature newBareFeature addFeature removeFeature setCenter getZoom
                  setZoom watchPosition modify gets ret throw emit updateStatus showMessage];
  repeat lazymatch goal with
         | |- context [match ?x with _ => _ end] => destruct x
         | |- context [if ?x then _ else _] => destruct x
         end;
  exact H.

Create HintDb pres discriminated.

(** A leaf: a lemma already proved, a write that does not touch what
    the property reads, or a primitive. *)
Ltac pres_leaf :=
  first [ solve [auto with pres]
        | let w := fresh "w" in let H := fresh "H" in intros w H; exact H
        | pres_prim ].

Ltac pres := repeat pres_step; try pres_leaf.

(* ----------------------------------------------------------------- *)
(** ** At most one subscription *)

Section OneSubscription.

Variable B : Browser.

Import Geolocation MapUtils RouteLogic.

Local Abbreviation keeps := (preserves one_subscription).

Lemma handlePosition_one_subscription pos force : keeps (handlePosition B pos force).
Proof. unfold handlePosition. pres. Qed.

Lemma startWatching_one_subscription force : keeps (startWatching B force).
Proof.
  intros w H. open_world w. apply wp_exec. unfold startWatching.
  destruct (has_geolocation B); state_simpl; wp_go; [|exact H].
  destruct (truthy wi) eqn:Hw; wp_go; [exact H|].
  destruct H as [[_ Hws] | (id & f & Hid & _)]; cbn in *.
  - subst ws. unfold FontFaceSetLoadEvent.
    destruct (global_FontFaceSetLoadEvent B); wp_go;
      right; exists nw, force; split; reflexivity.
  - subst wi. discriminate.
Qed.

Lemma stopWatching_one_subscription : keeps stopWatching.
Proof.
  intros w H. open_world w. apply wp_exec. unfold stopWatching. wp_go.
  destruct (truthy wi) eqn:Hw; wp_go; [|exact H].
  destruct H as [[Hf _] | (id & f & Hid & Hws)]; cbn in *; [congruence|].
  subst wi ws. unfold clearWatch. wp_go.
  left. split; [reflexivity|]. cbn.
  assert (E : Qeq_bool (inject_Z (Zpos id)) (inject_Z (Zpos id)) = true)
    by (apply Qeq_bool_iff; reflexivity).
  rewrite E. reflexivity.
Qed.

Lemma toggleFollow_one_subscription : keeps (toggleFollow B).
Proof. unfold toggleFollow, setFollowButton. pres. Qed.

Lemma disableFollowOnMapDrag_one_subscription : keeps (disableFollowOnMapDrag B).
Proof. unfold disableFollowOnMapDrag, setFollowButton. pres. Qed.

Lemma centerMapOnCurrentPos_one_subscription : keeps (centerMapOnCurrentPos B).
Proof. unfold centerMapOnCurrentPos. pres. Qed.

Lemma clearRoute_one_subscription : keeps (clearRoute B).
Proof. unfold clearRoute. pres. Qed.

Lemma drawRouteMarkers_one_subscription : keeps (drawRouteMarkers B).
Proof. unfold drawRouteMarkers. pres. Qed.

Lemma drawRouteOnMap_one_subscription g : keeps (drawRouteOnMap B g).
Proof.
  unfold drawRouteOnMap, drawRouteFeatures, drawTrafficSegments, drawTrafficIncidents,
    drawTrafficSegment, drawTrafficIncident, readFeatures, fitTo,
    member_coordinates, index, fromLonLat_json.
  pres.
Qed.

Hint Resolve handlePosition_one_subscription startWatching_one_subscription
  stopWatching_one_subscription toggleFollow_one_subscription
  disableFollowOnMapDrag_one_subscription centerMapOnCurrentPos_one_subscription
  clearRoute_one_subscription drawRouteMarkers_one_subscription
  drawRouteOnMap_one_subscription : pres.

Lemma fetchRouteData_one_subscription o d c : keeps (fetchRouteData o d c).
Proof. unfold fetchRouteData. pres. Qed.

Lemma fetchRouteData_settled_one_subscription r : keeps (fetchRouteData_settled B r).
Proof. unfold fetchRouteData_settled, displayTrafficLegend. pres. Qed.

Hint Resolve fetchRouteData_one_subscription fetchRouteData_settled_one_subscription
  : pres.

Lemma afterMapReady_one_subscription dom via o d : keeps (afterMapReady B dom via o d).
Proof. unfold afterMapReady. pres. Qed.

Hint Resolve afterMapReady_one_subscription : pres.

Lemma resume_one_subscription dom p s : keeps (resume B dom p s).
Proof. unfold resume, afterDestination, waitForMapReady. pres. Qed.

Lemma calculateRouteFromAddresses_one_subscription o d :
  keeps (calculateRouteFromAddresses B o d).
Proof. unfold calculateRouteFromAddresses. pres. Qed.

Lemma calculateAndDrawRoute_one_subscription dom o d :
  keeps (calculateAndDrawRoute B dom o d).
Proof. unfold calculateAndDrawRoute, waitForMapReady. pres. Qed.

Hint Resolve resume_one_subscription calculateRouteFromAddresses_one_subscription
  calculateAndDrawRoute_one_subscription : pres.

Lemma run_op_one_subscription o : keeps (run_op B o).
Proof.
  destruct o; cbn [run_op]; unfold deliver, getCurrentOnceAndStartWatch, mapRendered;
    pres.
Qed.

(** In every world the page can be in, at most one watch is live. *)
Lemma reachable_one_subscription w : reachable B w -> one_subscription w.
Proof.
  induction 1 as [|w o _ IH].
  - left. split; reflexivity.
  - apply run_op_one_subscription, IH.
Qed.

End OneSubscription.

(* ----------------------------------------------------------------- *)
(** ** Starting, stopping and following *)

Section WatchLifecycle.

Import Geolocation.
Variable B : Browser.

(** C3.  At most one location subscription is ever live; and in every
    state in which a watch handle is set, a start-tracking request is
    turned down: it raises nothing, writes one status message ("already
    active" wherever the browser has geolocation) and changes nothing
    else, so the handle stays, no second watch is registered with the
    browser and nothing is queued. *)
Theorem at_most_one_subscription :
  (forall w, reachable B w -> length (watches w) <= 1)
  /\ (forall w force,
        truthy (watchId (gps w)) = true ->
        let w' := exec (startWatching B force) w in
        raises (startWatching B force) w = false
        /\ (exists m, w' = with_trace (UpdateStatus m :: trace w) w)
        /\ (has_geolocation B = true ->
            emitted w w' = [UpdateStatus [Str "Rastreamento GPS já está ativo."]])
        /\ watchId (gps w') = watchId (gps w)
        /\ watches w' = watches w).
Proof.
  split.
  - intros w Hr. apply reachable_one_subscription in Hr.
    destruct Hr as [[_ ->] | (id & f & _ & ->)]; cbn; lia.
  - intros w force Hw.
    assert (H : exists m,
              startWatching B force w
              = (Ok tt, with_trace (UpdateStatus m :: trace w) w)
              /\ (has_geolocation B = true ->
                  m = [Str "Rastreamento GPS já está ativo."])).
    { apply (wp_run (startWatching B force)
               (fun r => exists m, r = (Ok tt, with_trace (UpdateStatus m :: trace w) w)
                                   /\ (has_geolocation B = true -> m = _))).
      unfold startWatching.
      destruct (has_geolocation B); cbn [negb]; wp_go.
      - rewrite Hw. wp_go. eexists. split; reflexivity.
      - eexists. split; [reflexivity | discriminate]. }
    destruct H as (m & E & Hm). unfold exec, raises. rewrite E. cbn [fst snd].
    repeat split; try reflexivity.
    + exists m. reflexivity.
    + intros Hg. rewrite (Hm Hg). now apply (emitted_app _ _ [_]).
Qed.

(** Whatever it was before, the follow flag is what the browser's global
    [FontFaceSetLoadEvent] holds once a watch has been started. *)
Lemma startWatching_following (w : World) (force : bool) (v : value) :
  has_geolocation B = true ->
  truthy (watchId (gps w)) = false ->
  global_FontFaceSetLoadEvent B = Some v ->
  following (gps (exec (startWatching B force) w)) = v.
Proof.
  intros Hg Hw Hv. open_world w. apply wp_exec. unfold startWatching.
  rewrite Hg. cbn [negb]. wp_go. rewrite Hw. wp_go.
  unfold FontFaceSetLoadEvent. rewrite Hv. wp_go. reflexivity.
Qed.

(** A drag never leaves follow-mode on. *)
Lemma disableFollowOnMapDrag_clears (w : World) :
  truthy (following (gps (exec (disableFollowOnMapDrag B) w))) = false.
Proof.
  open_world w. apply wp_exec. unfold disableFollowOnMapDrag. wp_go.
  destruct (truthy fl) eqn:E; wp_go; [|exact E].
  unfold setFollowButton. destruct (has_btn_follow B); wp_go; reflexivity.
Qed.

(** The explicit toggle flips it. *)
Lemma toggleFollow_flips (w : World) :
  following (gps (exec (toggleFollow B) w))
  = VBool (negb (truthy (following (gps w)))).
Proof.
  open_world w. apply wp_exec. unfold toggleFollow. wp_go.
  unfold setFollowButton. destruct (has_btn_follow B); wp_go; reflexivity.
Qed.

End WatchLifecycle.

Lemma at_most_one_subscription_witness :
  truthy (watchId (gps tracking_world)) = true
  /\ watches (exec (Geolocation.startWatching (a_browser true) true) tracking_world)
     = watches tracking_world.
Proof.
  split; [reflexivity|].
  destruct (at_most_one_subscription (a_browser true)) as [_ H].
  apply (H tracking_world true). reflexivity.
Defined.

(** C8 (the code departs from it).  On a current browser, starting to
    watch from the freshly rendered page, where follow-mode is off, leaves
    the follow flag holding the function [FontFaceSetLoadEvent], a truthy
    value: follow-mode has been switched on without the user's toggle. *)
Theorem startWatching_switches_follow_mode_on :
  let w' := exec (Geolocation.startWatching (a_browser true) false) rendered_world in
  following (gps rendered_world) = VBool false
  /\ following (gps w') = VFunction "FontFaceSetLoadEvent"
  /\ truthy (following (gps w')) = true.
Proof. vm_compute. repeat split. Qed.

(* ----------------------------------------------------------------- *)
(** ** The vector source and the handles *)

Section SourceInvariant.

Lemma same_feature_refl f : same_feature f f = true.
Proof. apply Nat.eqb_refl. Qed.

Lemma in_source_elem f fs : f ∈ fs -> in_source f fs = true.
Proof.
  intros H. unfold in_source. apply existsb_exists. exists f.
  split; [now apply list_elem_of_In | apply same_feature_refl].
Qed.

Lemma without_elem g f fs : g ∈ without f fs <-> uid f <> uid g /\ g ∈ fs.
Proof.
  unfold without. rewrite list_elem_of_filter. unfold same_feature.
  destruct (Nat.eqb_spec (uid f) (uid g)); cbn; intuition.
Qed.

Lemma filter_keep_all {A} (P : A -> Prop) `{forall x, Decision (P x)} (l : list A) :
  (forall x, x ∈ l -> P x) -> filter P l = l.
Proof.
  induction l as [|x l IH]; intros Hl; [reflexivity|].
  rewrite filter_cons_True by (apply Hl; left).
  f_equal. apply IH. intros y Hy. apply Hl. now right.
Qed.

Lemma filter_comm {A} (P R : A -> Prop)
    `{forall x, Decision (P x)} `{forall x, Decision (R x)} (l : list A) :
  filter P (filter R l) = filter R (filter P l).
Proof.
  induction l as [|x l IH]; [reflexivity|].
  rewrite !filter_cons.
  destruct (decide (R x)), (decide (P x));
    rewrite ?filter_cons_True, ?filter_cons_False by assumption; congruence.
Qed.

Lemma uid_inj_in (fs : list Feature) (f g : Feature) :
  NoDup (uid <$> fs) -> f ∈ fs -> g ∈ fs -> uid f = uid g -> f = g.
Proof.
  induction fs as [|x fs IH]; intros Hnd Hf Hg E; [inversion Hf|].
  rewrite fmap_cons in Hnd. apply NoDup_cons in Hnd as [Hx Hnd].
  apply elem_of_cons in Hf as [->|Hf]; apply elem_of_cons in Hg as [->|Hg].
  - reflexivity.
  - exfalso. apply Hx. rewrite E. now apply list_elem_of_fmap_2.
  - exfalso. apply Hx. rewrite <- E. now apply list_elem_of_fmap_2.
  - now apply IH.
Qed.

Lemma without_keep f l :
  (forall g, g ∈ l -> uid f <> uid g) -> without f l = l.
Proof.
  intros H. apply filter_keep_all. intros g Hg. unfold same_feature.
  destruct (Nat.eqb_spec (uid f) (uid g)); cbn; [|exact Logic.I].
  exfalso. now apply (H g Hg).
Qed.

Lemma without_head f l :
  (forall g, g ∈ l -> uid f <> uid g) -> without f (f :: l) = l.
Proof.
  intros H. unfold without at 1. rewrite filter_cons_False.
  - now apply without_keep.
  - rewrite same_feature_refl. cbn. tauto.
Qed.

Lemma upd_same t c l : upd t c l c = l.
Proof. unfold upd. now rewrite decide_True. Qed.

Lemma upd_other t c c' l : c' <> c -> upd t c l c' = t c'.
Proof. intros H. unfold upd. now rewrite decide_False. Qed.

Lemma src_inv_ext fs n t t' :
  (forall c, t c = t' c) -> src_inv fs n t -> src_inv fs n t'.
Proof.
  intros E (Hnd & Hb & Hc). repeat split; try assumption.
  intros c. rewrite <- E. apply Hc.
Qed.

Lemma src_inv_mono fs n n' t : n <= n' -> src_inv fs n t -> src_inv fs n' t.
Proof.
  intros Hn (Hnd & Hb & Hc). repeat split; try assumption.
  intros f Hf. specialize (Hb f Hf). lia.
Qed.

Lemma src_inv_elem fs n t c f :
  src_inv fs n t -> f ∈ t c -> f ∈ fs /\ class_of (kind f) = c.
Proof.
  intros (_ & _ & Hc) Hf. rewrite <- Hc in Hf.
  apply list_elem_of_filter in Hf as [Hk Hf]. split; [assumption|].
  unfold in_class in Hk. now apply bool_decide_unpack in Hk.
Qed.

Lemma src_inv_in_source fs n t c f l :
  src_inv fs n t -> t c = f :: l -> in_source f fs = true.
Proof.
  intros H E. apply in_source_elem.
  apply (src_inv_elem fs n t c f H). rewrite E. left.
Qed.

Lemma src_inv_add fs n t f c :
  src_inv fs n t -> n <= uid f -> class_of (kind f) = c ->
  src_inv (fs ++ [f]) (S (uid f)) (upd t c (t c ++ [f])).
Proof.
  intros (Hnd & Hb & Hc) Hn Hk. repeat split.
  - rewrite fmap_app. apply NoDup_app. repeat split; [assumption | | ].
    + intros x Hx Hx'. apply list_elem_of_fmap in Hx as (g & -> & Hg).
      apply list_elem_of_singleton in Hx'. specialize (Hb g Hg). lia.
    + apply NoDup_singleton.
  - intros g Hg. apply elem_of_app in Hg as [Hg|Hg].
    + specialize (Hb g Hg). lia.
    + apply list_elem_of_singleton in Hg. subst g. lia.
  - intros c'. rewrite filter_app, Hc. unfold upd.
    destruct (decide (c' = c)) as [->|Hne].
    + rewrite filter_cons_True, filter_nil; [reflexivity|].
      unfold in_class. now apply bool_decide_pack.
    + rewrite filter_cons_False, filter_nil, app_nil_r; [reflexivity|].
      unfold in_class. intros Hp. apply bool_decide_unpack in Hp. congruence.
Qed.

Lemma src_inv_del fs n t c f l :
  src_inv fs n t -> t c = f :: l -> src_inv (without f fs) n (upd t c l).
Proof.
  intros Hinv E. pose proof Hinv as (Hnd & Hb & Hc).
  assert (Hf : f ∈ fs /\ class_of (kind f) = c).
  { apply (src_inv_elem fs n t c f Hinv). rewrite E. left. }
  destruct Hf as [Hf Hk].
  repeat split.
  - apply (sublist_NoDup _ (uid <$> fs)); [exact Hnd|].
    apply fmap_sublist, sublist_filter.
  - intros g Hg. apply without_elem in Hg as [_ Hg]. now apply Hb.
  - intros c'. unfold without. rewrite filter_comm. fold (without f (filter (in_class c') fs)).
    rewrite Hc. unfold upd. destruct (decide (c' = c)) as [->|Hne].
    + rewrite E. apply without_head. intros g Hg Hu.
      assert (Hgl : g ∈ t c) by (rewrite E; now right).
      destruct (src_inv_elem fs n t c g Hinv Hgl) as [Hgf _].
      assert (f = g) by (now apply (uid_inj_in fs)). subst g.
      assert (Hnd' : NoDup (f :: l)).
      { rewrite <- E, <- Hc. apply NoDup_filter. eapply NoDup_fmap_1, Hnd. }
      apply NoDup_cons in Hnd' as [Hnot _]. contradiction.
    + apply without_keep. intros g Hg Hu.
      destruct (src_inv_elem fs n t c' g Hinv Hg) as [Hgf Hgk].
      assert (f = g) by (now apply (uid_inj_in fs)). subst g. congruence.
Qed.

(** A run of fresh features of one class, added at the end. *)
Lemma src_inv_add_list new : forall fs n t c,
  src_inv fs n t ->
  uid <$> new = seq n (length new) ->
  Forall (fun f => class_of (kind f) = c) new ->
  src_inv (fs ++ new) (n + length new) (upd t c (t c ++ new)).
Proof.
  induction new as [|f new IH]; intros fs n t c Hinv Hu Hk.
  - rewrite app_nil_r, Nat.add_0_r. eapply src_inv_ext; [|exact Hinv].
    intros c'. unfold upd. destruct (decide (c' = c)) as [->|]; [|reflexivity].
    now rewrite app_nil_r.
  - cbn in Hu. injection Hu as Hf Hu. apply Forall_cons in Hk as [Hkf Hk].
    assert (H1 := src_inv_add fs n t f c Hinv ltac:(lia) Hkf).
    rewrite Hf in H1.
    specialize (IH (fs ++ [f]) (S n) _ c H1 Hu Hk).
    replace (fs ++ f :: new) with ((fs ++ [f]) ++ new) by now rewrite <- app_assoc.
    replace (n + length (f :: new)) with (S n + length new) by (cbn; lia).
    eapply src_inv_ext; [|exact IH].
    intros c'. destruct (decide (c' = c)) as [->|Hne].
    + rewrite !upd_same, <- app_assoc. reflexivity.
    + rewrite !upd_other by assumption. reflexivity.
Qed.

End SourceInvariant.

(* ----------------------------------------------------------------- *)
(** ** Clearing the route *)

Section ClearRoute.

Import MapUtils.
Variable B : Browser.

Lemma wp_removeFeature_ok f fs w0 Q :
  in_source f fs = true ->
  Q (Ok tt) (set_source (without f fs) w0) ->
  wp (removeFeature B f) Q (set_source fs w0).
Proof.
  intros Hin HQ. unfold wp, removeFeature.
  cbn [set_source put_source with_mapd mapd vectorSource]. rewrite Hin. exact HQ.
Qed.

(** Removing the features of one class, each inside its own
    [try]/[catch], as [clearRoute] does. *)
Lemma wp_forEach_try_remove n c l : forall fs t w0 Q,
  src_inv fs n t -> t c = l ->
  (forall fs', src_inv fs' n (upd t c []) -> Q (Ok tt) (set_source fs' w0)) ->
  wp (forEach (fun f => try_catch (removeFeature B f) (fun _ => ret tt)) l) Q
     (set_source fs w0).
Proof.
  induction l as [|f l IH]; intros fs t w0 Q Hinv E HQ; cbn [forEach].
  - apply wp_ret, HQ. eapply src_inv_ext; [|exact Hinv].
    intros c'. destruct (decide (c' = c)) as [->|Hne].
    + now rewrite upd_same.
    + now rewrite upd_other.
  - apply wp_bind, wp_try_catch, wp_removeFeature_ok.
    { eapply src_inv_in_source; eassumption. }
    apply (IH (without f fs) (upd t c l)).
    + eapply src_inv_del; eassumption.
    + apply upd_same.
    + intros fs' Hfs'. apply HQ. eapply src_inv_ext; [|exact Hfs'].
      intros c'. destruct (decide (c' = c)) as [->|Hne].
      * now rewrite !upd_same.
      * now rewrite !upd_other.
Qed.

(** The same loop without the [try], as [drawRouteOnMap] has it. *)
Lemma wp_forEach_remove n c l : forall fs t w0 Q,
  src_inv fs n t -> t c = l ->
  (forall fs', src_inv fs' n (upd t c []) -> Q (Ok tt) (set_source fs' w0)) ->
  wp (forEach (removeFeature B) l) Q (set_source fs w0).
Proof.
  induction l as [|f l IH]; intros fs t w0 Q Hinv E HQ; cbn [forEach].
  - apply wp_ret, HQ. eapply src_inv_ext; [|exact Hinv].
    intros c'. destruct (decide (c' = c)) as [->|Hne].
    + now rewrite upd_same.
    + now rewrite upd_other.
  - apply wp_bind, wp_removeFeature_ok.
    { eapply src_inv_in_source; eassumption. }
    apply (IH (without f fs) (upd t c l)).
    + eapply src_inv_del; eassumption.
    + apply upd_same.
    + intros fs' Hfs'. apply HQ. eapply src_inv_ext; [|exact Hfs'].
      intros c'. destruct (decide (c' = c)) as [->|Hne].
      * now rewrite !upd_same.
      * now rewrite !upd_other.
Qed.

(** With its own [try]/[catch] around each removal, the loop cannot
    raise, whatever the handles and the source are; all it can change
    is the source. *)
Lemma removeFeature_source f vs w0 :
  exists vs', snd (removeFeature B f (put_source vs w0)) = put_source vs' w0.
Proof.
  unfold removeFeature. cbn [put_source with_mapd mapd vectorSource].
  destruct vs as [fs|]; [|now exists None].
  destruct (in_source f fs); [now exists (Some (without f fs))|].
  destruct (removeFeature_strict B); now exists (Some fs).
Qed.

Lemma wp_forEach_try_remove_any l : forall vs w0 Q,
  (forall vs', Q (Ok tt) (put_source vs' w0)) ->
  wp (forEach (fun f => try_catch (removeFeature B f) (fun _ => ret tt)) l) Q
     (put_source vs w0).
Proof.
  induction l as [|f l IH]; intros vs w0 Q HQ; cbn [forEach].
  - apply wp_ret, HQ.
  - apply wp_bind, wp_try_catch. unfold wp at 1.
    destruct (removeFeature_source f vs w0) as (vs' & E). rewrite E.
    destruct (fst (removeFeature B f (put_source vs w0))) as [[]|e].
    + apply IH, HQ.
    + apply wp_ret. apply IH, HQ.
Qed.

(** Removing the feature a handle may hold. *)
Lemma wp_remove_handle n c o : forall fs t w0 Q,
  src_inv fs n t -> t c = handle o ->
  (forall fs', src_inv fs' n (upd t c []) -> Q (Ok tt) (set_source fs' w0)) ->
  wp (match o with Some m => removeFeature B m | None => ret tt end) Q
     (set_source fs w0).
Proof.
  intros fs t w0 Q Hinv E HQ. destruct o as [m|]; cbn [handle] in E.
  - apply wp_removeFeature_ok.
    + eapply src_inv_in_source; eassumption.
    + apply HQ. eapply src_inv_del; eassumption.
  - apply wp_ret, HQ. eapply src_inv_ext; [|exact Hinv].
    intros c'. destruct (decide (c' = c)) as [->|Hne].
    + now rewrite upd_same.
    + now rewrite upd_other.
Qed.

(** The current world, seen as its own source put into it. *)
Ltac as_set_source :=
  lazymatch goal with
  | |- wp _ _ ?W =>
      lazymatch eval cbn in (vectorSource (mapd W)) with
      | Some ?fs => change W with (set_source fs W)
      end
  end.

(** What [clearRoute] does to a world in which the handles and the
    source agree. *)
Lemma clearRoute_spec (w : World) :
  wf w ->
  wp (clearRoute B)
     (fun o w' =>
        o = Ok tt
        /\ wf w'
        /\ gps w' = gps w
        /\ trace w' = trace w
        /\ mapInstance (mapd w') = mapInstance (mapd w)
        /\ apiBaseUrl (mapd w') = apiBaseUrl (mapd w)
        /\ hasInitialFix w' = hasInitialFix w
        /\ watches w' = watches w
        /\ ol_next_uid w' = ol_next_uid w
        /\ match vectorSource (mapd w) with
           | Some fs =>
               route w' = empty_route
               /\ trafficFeatures w' = []
               /\ incidentFeatures w' = []
               /\ is_Some (vectorSource (mapd w'))
           | None => w' = w
           end) w.
Proof.
  intros Hwf. open_world w. unfold wf in Hwf. cbn in Hwf.
  unfold clearRoute. wp_go.
  destruct vs as [fs|]; state_simpl; wp_go.
  2: { split; [reflexivity|]. split; [exact Hwf|]. repeat split; reflexivity. }
  assert (H1 : exists fs1,
            src_inv fs1 nu
              (upd (tracked
                 {| gps := {| markerFeature := mk; accuracyFeature := ak;
                              following := fl; currentPos := cp;
                              currentAccuracy := ca; watchId := wi |};
                    route := {| rotatual := rt; originMarker := om;
                                destinationMarker := dm; originCoords := oc;
                                destinationCoords := dc |};
                    mapd := {| mapInstance := mi; vectorSource := Some fs;
                               apiBaseUrl := url |};
                    hasInitialFix := hif; trafficFeatures := tf;
                    incidentFeatures := inf; ol_next_uid := nu; ol_geometry := og;
                    watches := ws; next_watch := nw; trace := tr |}) CRoute [])
            /\ forall Q,
                Q (Ok tt)
                  {| gps := {| markerFeature := mk; accuracyFeature := ak;
                               following := fl; currentPos := cp;
                               currentAccuracy := ca; watchId := wi |};
                     route := {| rotatual := None; originMarker := om;
                                 destinationMarker := dm; originCoords := oc;
                                 destinationCoords := dc |};
                     mapd := {| mapInstance := mi; vectorSource := Some fs1;
                                apiBaseUrl := url |};
                     hasInitialFix := hif; trafficFeatures := tf;
                     incidentFeatures := inf; ol_next_uid := nu; ol_geometry := og;
                     watches := ws; next_watch := nw; trace := tr |} ->
                wp match rt with
                   | Some r => removeFeature B r;; setRotatual None
                   | None => ret tt
                   end Q
                  {| gps := {| markerFeature := mk; accuracyFeature := ak;
                               following := fl; currentPos := cp;
                               currentAccuracy := ca; watchId := wi |};
                     route := {| rotatual := rt; originMarker := om;
                                 destinationMarker := dm; originCoords := oc;
                                 destinationCoords := dc |};
                     mapd := {| mapInstance := mi; vectorSource := Some fs;
                                apiBaseUrl := url |};
                     hasInitialFix := hif; trafficFeatures := tf;
                     incidentFeatures := inf; ol_next_uid := nu; ol_geometry := og;
                     watches := ws; next_watch := nw; trace := tr |}).
  { destruct rt as [r|].
    - exists (without r fs). split.
      + eapply (src_inv_del _ _ _ CRoute r []); [exact Hwf | reflexivity].
      + intros Q HQ. wp_step. as_set_source. apply wp_removeFeature_ok.
        * eapply (src_inv_in_source _ _ _ CRoute); [exact Hwf | reflexivity].
        * state_simpl. wp_go. exact HQ.
    - exists fs. split.
      + eapply src_inv_ext; [|exact Hwf]. intros []; reflexivity.
      + intros Q HQ. wp_go. exact HQ. }
  destruct H1 as (fs1 & Hinv1 & Hrun). apply Hrun. clear Hrun.
  wp_go. cbn [forEach]. wp_step.
  as_set_source. eapply (wp_remove_handle _ COrigin); [exact Hinv1 | reflexivity |].
  intros fs2 Hinv2. state_simpl. wp_step.
  as_set_source. eapply (wp_remove_handle _ CDestination); [exact Hinv2 | reflexivity |].
  intros fs3 Hinv3. state_simpl. wp_go.
  as_set_source. eapply (wp_forEach_try_remove _ CTraffic); [exact Hinv3 | reflexivity |].
  intros fs4 Hinv4. state_simpl. wp_go.
  as_set_source. eapply (wp_forEach_try_remove _ CIncident); [exact Hinv4 | reflexivity |].
  intros fs5 Hinv5. state_simpl. wp_go.
  split; [reflexivity|]. split.
  { unfold wf. state_simpl. eapply src_inv_ext; [|exact Hinv5].
    intros []; reflexivity. }
  repeat split; try reflexivity. now eexists.
Qed.

End ClearRoute.

Section ClearRouteFacts.

Import MapUtils.
Variable B : Browser.

Lemma clearRoute_run (w : World) :
  wf w ->
  fst (clearRoute B w) = Ok tt
  /\ wf (exec (clearRoute B) w)
  /\ gps (exec (clearRoute B) w) = gps w
  /\ trace (exec (clearRoute B) w) = trace w
  /\ match vectorSource (mapd w) with
     | Some fs =>
         route (exec (clearRoute B) w) = empty_route
         /\ trafficFeatures (exec (clearRoute B) w) = []
         /\ incidentFeatures (exec (clearRoute B) w) = []
         /\ is_Some (vectorSource (mapd (exec (clearRoute B) w)))
     | None => exec (clearRoute B) w = w
     end.
Proof.
  intros Hwf.
  destruct (clearRoute_spec B w Hwf) as (H1 & H2 & H3 & H4 & _ & _ & _ & _ & _ & H5).
  auto.
Qed.

(** With nothing to clear, [clearRoute] only resets the stored end
    points. *)
Lemma clearRoute_nothing_drawn (w : World) :
  rotatual (route w) = None ->
  originMarker (route w) = None ->
  destinationMarker (route w) = None ->
  trafficFeatures w = [] ->
  incidentFeatures w = [] ->
  fst (clearRoute B w) = Ok tt
  /\ vectorSource (mapd (exec (clearRoute B) w)) = vectorSource (mapd w)
  /\ (route w = empty_route -> exec (clearRoute B) w = w).
Proof.
  intros H1 H2 H3 H4 H5. open_world w. subst.
  apply (wp_run (clearRoute B)
           (fun r => fst r = Ok tt /\ vectorSource (mapd (snd r)) = _
                     /\ (_ -> snd r = _))).
  unfold clearRoute. wp_go.
  destruct vs as [fs|]; state_simpl; wp_go; cbn [forEach]; wp_go.
  - repeat split. intros E. injection E as -> ->. reflexivity.
  - repeat split.
Qed.

(** The two loops of [clearRoute] are guarded: with no line and no pins
    to remove, no state of the traffic and incident handles makes it
    raise. *)
Lemma clearRoute_stale_overlay (w : World) :
  rotatual (route w) = None ->
  originMarker (route w) = None ->
  destinationMarker (route w) = None ->
  raises (clearRoute B) w = false.
Proof.
  intros H1 H2 H3. open_world w. subst. unfold raises.
  apply (wp_run (clearRoute B)
           (fun r => match fst r with Ok _ => false | Throw _ => true end = false)).
  unfold clearRoute. wp_go.
  destruct vs as [fs|]; state_simpl; wp_go; [|reflexivity].
  cbn [forEach]. wp_go.
  lazymatch goal with
  | |- wp _ _ ?W => change W with (put_source (Some fs) W)
  end.
  apply wp_forEach_try_remove_any. intros vs1. state_simpl. wp_go.
  lazymatch goal with
  | |- wp _ _ ?W => change W with (put_source vs1 W)
  end.
  apply wp_forEach_try_remove_any. intros vs2. state_simpl. wp_go.
  reflexivity.
Qed.

(** With a library whose [removeFeature] lets a missing feature pass, a
    removal always goes through and takes the feature off the source. *)
Lemma wp_removeFeature_lenient f fs w0 Q :
  removeFeature_strict B = false ->
  Q (Ok tt) (set_source (without f fs) w0) ->
  wp (removeFeature B f) Q (set_source fs w0).
Proof.
  intros Hl HQ. unfold wp, removeFeature.
  cbn [set_source put_source with_mapd mapd vectorSource].
  destruct (in_source f fs) eqn:Hin; [exact HQ|]. rewrite Hl.
  rewrite without_keep in HQ; [exact HQ|].
  intros g Hg E. unfold in_source in Hin.
  assert (Ht : existsb (same_feature f) fs = true).
  { apply existsb_exists. exists g. split; [now apply list_elem_of_In|].
    unfold same_feature. now apply Nat.eqb_eq. }
  congruence.
Qed.

Lemma wp_remove_handle_lenient o fs w0 Q :
  removeFeature_strict B = false ->
  (forall fs',
     (forall g, g ∈ fs' <-> g ∈ fs /\ forall f, f ∈ handle o -> uid f <> uid g) ->
     Q (Ok tt) (set_source fs' w0)) ->
  wp (match o with Some m => removeFeature B m | None => ret tt end) Q
     (set_source fs w0).
Proof.
  intros Hl HQ. destruct o as [m|]; cbn [handle] in HQ.
  - apply wp_removeFeature_lenient; [exact Hl|]. apply HQ.
    intros g. rewrite without_elem. split.
    + intros [Hne Hg]. split; [exact Hg|].
      intros f Hf. apply list_elem_of_singleton in Hf. now subst f.
    + intros [Hg Hne]. split; [apply Hne, list_elem_of_here | exact Hg].
  - apply wp_ret, HQ. intros g. split; [intros Hg; split; [exact Hg|] | now intros [Hg _]].
    intros f Hf. inversion Hf.
Qed.

Lemma wp_forEach_try_remove_lenient l : forall fs w0 Q,
  removeFeature_strict B = false ->
  (forall fs',
     (forall g, g ∈ fs' <-> g ∈ fs /\ forall f, f ∈ l -> uid f <> uid g) ->
     Q (Ok tt) (set_source fs' w0)) ->
  wp (forEach (fun f => try_catch (removeFeature B f) (fun _ => ret tt)) l) Q
     (set_source fs w0).
Proof.
  induction l as [|f l IH]; intros fs w0 Q Hl HQ; cbn [forEach].
  - apply wp_ret, HQ. intros g. split; [intros Hg; split; [exact Hg|] | now intros [Hg _]].
    intros f Hf. inversion Hf.
  - apply wp_bind, wp_try_catch, wp_removeFeature_lenient; [exact Hl|].
    apply IH; [exact Hl|]. intros fs' Hfs'. apply HQ. intros g.
    rewrite Hfs', without_elem. split.
    + intros [[Hne Hg] Hrest]. split; [exact Hg|].
      intros f' Hf'. apply elem_of_cons in Hf' as [->|Hf']; [exact Hne | now apply Hrest].
    + intros [Hg Hall]. split; [split; [apply Hall, list_elem_of_here | exact Hg]|].
      intros f' Hf'. apply Hall. now right.
Qed.

(** With such a library [clearRoute] goes through in any state, also
    one in which a handle holds a feature that is no longer in the
    source: it resets every handle and leaves in the source what was
    there and is held by none of the handles it resets. *)
Lemma clearRoute_lenient (w : World) (fs : list Feature) :
  removeFeature_strict B = false ->
  vectorSource (mapd w) = Some fs ->
  wp (clearRoute B)
     (fun o w' =>
        o = Ok tt
        /\ route w' = empty_route
        /\ trafficFeatures w' = []
        /\ incidentFeatures w' = []
        /\ exists fs',
             vectorSource (mapd w') = Some fs'
             /\ forall g, g ∈ fs' <->
                   g ∈ fs /\ forall c f, c <> CMarker -> c <> CAccuracy ->
                                         f ∈ tracked w c -> uid f <> uid g) w.
Proof.
  intros Hl Hs. open_world w. subst vs.
  unfold clearRoute. wp_go.
  assert (H1 : forall Q,
            (forall fs1,
               (forall g, g ∈ fs1 <-> g ∈ fs /\ forall f, f ∈ handle rt -> uid f <> uid g) ->
               Q (Ok tt)
                 {| gps := {| markerFeature := mk; accuracyFeature := ak;
                              following := fl; currentPos := cp;
                              currentAccuracy := ca; watchId := wi |};
                    route := {| rotatual := None; originMarker := om;
                                destinationMarker := dm; originCoords := oc;
                                destinationCoords := dc |};
                    mapd := {| mapInstance := mi; vectorSource := Some fs1;
                               apiBaseUrl := url |};
                    hasInitialFix := hif; trafficFeatures := tf;
                    incidentFeatures := inf; ol_next_uid := nu; ol_geometry := og;
                    watches := ws; next_watch := nw; trace := tr |}) ->
            wp match rt with
               | Some r => removeFeature B r;; setRotatual None
               | None => ret tt
               end Q
              {| gps := {| markerFeature := mk; accuracyFeature := ak;
                           following := fl; currentPos := cp;
                           currentAccuracy := ca; watchId := wi |};
                 route := {| rotatual := rt; originMarker := om;
                             destinationMarker := dm; originCoords := oc;
                             destinationCoords := dc |};
                 mapd := {| mapInstance := mi; vectorSource := Some fs;
                            apiBaseUrl := url |};
                 hasInitialFix := hif; trafficFeatures := tf;
                 incidentFeatures := inf; ol_next_uid := nu; ol_geometry := og;
                 watches := ws; next_watch := nw; trace := tr |}).
  { intros Q HQ. destruct rt as [r|]; cbn [handle] in HQ.
    - wp_step.
      lazymatch goal with |- wp _ _ ?W => change W with (set_source fs W) end.
      apply wp_removeFeature_lenient; [exact Hl|]. state_simpl. wp_go.
      apply HQ. intros g. rewrite without_elem. split.
      + intros [Hne Hg]. split; [exact Hg|].
        intros f Hf. apply list_elem_of_singleton in Hf. now subst f.
      + intros [Hg Hne]. split; [apply Hne, list_elem_of_here | exact Hg].
    - wp_go. apply HQ. intros g.
      split; [intros Hg; split; [exact Hg|] | now intros [Hg _]].
      intros f Hf. inversion Hf. }
  apply H1. clear H1. intros fs1 Hfs1. wp_go. cbn [forEach]. wp_step.
  lazymatch goal with |- wp _ _ ?W => change W with (set_source fs1 W) end.
  apply wp_remove_handle_lenient; [exact Hl|]. intros fs2 Hfs2. state_simpl.
  wp_step.
  lazymatch goal with |- wp _ _ ?W => change W with (set_source fs2 W) end.
  apply wp_remove_handle_lenient; [exact Hl|]. intros fs3 Hfs3. state_simpl.
  wp_go.
  lazymatch goal with |- wp _ _ ?W => change W with (set_source fs3 W) end.
  apply wp_forEach_try_remove_lenient; [exact Hl|]. intros fs4 Hfs4. state_simpl.
  wp_go.
  lazymatch goal with |- wp _ _ ?W => change W with (set_source fs4 W) end.
  apply wp_forEach_try_remove_lenient; [exact Hl|]. intros fs5 Hfs5. state_simpl.
  wp_go.
  do 4 (split; [reflexivity|]). exists fs5. split; [reflexivity|].
  intros g. rewrite Hfs5, Hfs4, Hfs3, Hfs2, Hfs1. split.
  - intros (((((Hg & Hr) & Ho) & Hd) & Ht) & Hi). split; [exact Hg|].
    intros c f Hm Ha Hf. destruct c; cbn [tracked] in Hf; try congruence; auto.
  - intros [Hg Hall]. repeat split; try exact Hg; intros f Hf.
    + now apply (Hall CRoute).
    + now apply (Hall COrigin).
    + now apply (Hall CDestination).
    + now apply (Hall CTraffic).
    + now apply (Hall CIncident).
Qed.


End ClearRouteFacts.

(* ----------------------------------------------------------------- *)
(** ** A route from the GPS position *)

Section GpsOrigin.

Import MapUtils RouteLogic.
Variable B : Browser.

(** What [calculateRouteFromAddresses] does with the origin [GPS], up to
    its first [await]. *)
Lemma calculateRouteFromAddresses_gps (w : World) (o d : string) :
  wf w ->
  toUpperCase o = "GPS"%string ->
  let r := calculateRouteFromAddresses B o d w in
  let acc := currentAccuracy (gps w) in
  match currentPos (gps w) with
  | Some p =>
      if truthy acc && gt acc 150
      then fst r = Ok None
           /\ trace (snd r) =
                [ShowMessage
                   [Str "Posição GPS disponível, mas imprecisa (";
                    match to_number acc with Some q => Fixed 0 q | None => Str "NaN" end;
                    Str " m). Aguarde leituras melhores ou insira um endereço."]
                   "error";
                 calculating] ++ trace w
      else fst r = Ok (Some (AwaitDestinationGeocode {| lon := fst p; lat := snd p |} d))
           /\ trace (snd r) =
                [CallGeocode d;
                 ShowMessage [Str "Origem definida pela sua localização GPS."] "info";
                 calculating] ++ trace w
  | None =>
      fst r = Ok None
      /\ trace (snd r) =
           [ShowMessage
              [Str "Erro: Posição GPS não disponível. Tente novamente ou insira um endereço de origem."]
              "error";
            calculating] ++ trace w
  end.
Proof.
  intros Hwf Ho r acc. subst r acc.
  apply (wp_run (calculateRouteFromAddresses B o d)
           (fun r => match currentPos (gps w) with
                     | Some p =>
                         if truthy (currentAccuracy (gps w))
                            && gt (currentAccuracy (gps w)) 150
                         then fst r = _ /\ trace (snd r) = _
                         else fst r = _ /\ trace (snd r) = _
                     | None => fst r = _ /\ trace (snd r) = _
                     end)).
  unfold calculateRouteFromAddresses, GPS_RELIABLE_THRESHOLD.
  apply wp_bind. eapply wp_mono; [apply clearRoute_spec, Hwf|].
  intros o1 w1 (-> & _ & Hgps & Htr & _).
  open_world w.
  destruct w1 as [g1 r1 m1 h1 t1 i1 n1 og1 ws1 nw1 tr1].
  cbn [gps trace] in Hgps, Htr. subst g1 tr1.
  wp_go. rewrite Ho. cbn [String.eqb Ascii.eqb Bool.eqb]. wp_go.
  destruct cp as [p|]; wp_go; [|split; reflexivity].
  destruct (truthy ca && gt ca 150); wp_go; split; reflexivity.
Qed.

(** C9.  A route request whose origin is the token GPS (in any letter
    case), made while a position is stored: if the stored accuracy is
    above 150 m the request returns at once after an error message and
    has made no network call; if it is at most 150 m the request goes on
    to geocode the destination, with the stored coordinates as its
    origin. *)
Theorem gps_origin_accuracy_gate (w : World) (o d : string) (x y acc : Q) :
  wf w ->
  toUpperCase o = "GPS"%string ->
  currentPos (gps w) = Some (x, y) ->
  currentAccuracy (gps w) = VNum acc ->
  let r := calculateRouteFromAddresses B o d w in
  ((150 < acc)%Q ->
     fst r = Ok None
     /\ (exists m, emitted w (snd r) = [ShowMessage m "error"; calculating])
     /\ forall e, e ∈ emitted w (snd r) -> is_network_call e = false)
  /\ ((acc <= 150)%Q ->
      fst r = Ok (Some (AwaitDestinationGeocode {| lon := x; lat := y |} d))
      /\ emitted w (snd r) =
           [CallGeocode d;
            ShowMessage [Str "Origem definida pela sua localização GPS."] "info";
            calculating]).
Proof.
  intros Hwf Ho Hp Ha r.
  pose proof (calculateRouteFromAddresses_gps w o d Hwf Ho) as H.
  cbv zeta in H. fold r in H. rewrite Hp, Ha in H. unfold gt in H. cbn [to_number] in H.
  split.
  - intros Hlow.
    assert (Hgt : Qgt_bool acc 150 = true).
    { unfold Qgt_bool. apply negb_true_iff. now apply Qle_bool_false_lt. }
    assert (Htruthy : truthy (VNum acc) = true).
    { cbn. apply negb_true_iff. destruct (Qeq_bool acc 0) eqn:E; [|reflexivity].
      apply Qeq_bool_iff in E. rewrite E in Hlow. discriminate. }
    rewrite Hgt, Htruthy in H. cbn [andb] in H. destruct H as [H1 H2].
    apply emitted_app in H2. split; [exact H1|]. split; [eexists; exact H2|].
    intros e He. rewrite H2 in He.
    apply elem_of_cons in He as [->|He]; [reflexivity|].
    apply list_elem_of_singleton in He. now subst e.
  - intros Hle.
    assert (Hgt : Qgt_bool acc 150 = false).
    { unfold Qgt_bool. apply negb_false_iff. now apply Qle_bool_iff. }
    rewrite Hgt, andb_false_r in H. destruct H as [H1 H2].
    apply emitted_app in H2. now split.
Qed.

(** C10.  With the origin GPS and a stored position: whenever the stored
    accuracy is falsy ([undefined], [null], [0], NaN) the unreliability
    rejection is skipped and the request goes on with the stored
    coordinates; the request is rejected exactly when the stored accuracy
    is truthy and strictly greater than 150. *)
Theorem gps_origin_falsy_accuracy_proceeds (w : World) (o d : string) (p : LonLatPair) :
  wf w ->
  toUpperCase o = "GPS"%string ->
  currentPos (gps w) = Some p ->
  let acc := currentAccuracy (gps w) in
  let r := calculateRouteFromAddresses B o d w in
  let proceeds :=
    fst r = Ok (Some (AwaitDestinationGeocode {| lon := fst p; lat := snd p |} d)) in
  (truthy acc = false -> proceeds)
  /\ (acc = VUndefined \/ acc = VNull \/ acc = VNum 0 \/ acc = VNaN -> proceeds)
  /\ (fst r = Ok None <-> truthy acc = true /\ gt acc 150 = true)
  /\ (fst r <> Ok None -> proceeds)
  /\ (forall q, acc = VNum q -> (gt acc 150 = true <-> (150 < q)%Q)).
Proof.
  intros Hwf Ho Hp acc r proceeds.
  pose proof (calculateRouteFromAddresses_gps w o d Hwf Ho) as H.
  cbv zeta in H. fold r acc in H. rewrite Hp in H.
  assert (Hfalsy : truthy acc = false -> proceeds).
  { intros E. rewrite E in H. cbn [andb] in H. apply H. }
  split; [exact Hfalsy|]. split.
  { intros [E|[E|[E|E]]]; apply Hfalsy; rewrite E; reflexivity. }
  split; [|split].
  - rewrite <- andb_true_iff. destruct (truthy acc && gt acc 150).
    + split; [reflexivity|]. intros _. apply H.
    + destruct H as [H _]. rewrite H. split; discriminate.
  - intros Hne. destruct (truthy acc && gt acc 150).
    + destruct H as [H _]. contradiction.
    + apply H.
  - intros q ->. unfold gt, Qgt_bool. cbn [to_number].
    rewrite negb_true_iff. apply Qle_bool_false_lt.
Qed.

End GpsOrigin.

(* ----------------------------------------------------------------- *)
(** ** The handles and the source agree in every reachable state *)

Lemma wp_preserves {A} (I : World -> Prop) (m : M A) (w : World) :
  preserves I m -> I w -> wp m (fun _ w' => I w') w.
Proof. intros Hm Hw. apply (Hm w Hw). Qed.

Section WellFormed.

Import Geolocation MapUtils RouteLogic.
Variable B : Browser.

(** Two fresh features in a row. *)
Lemma src_inv_add2 fs n t f g c d :
  src_inv fs n t -> uid f = n -> uid g = S n ->
  class_of (kind f) = c -> class_of (kind g) = d ->
  src_inv ((fs ++ [f]) ++ [g]) (S (S n))
    (upd (upd t c (t c ++ [f])) d (upd t c (t c ++ [f]) d ++ [g])).
Proof.
  intros H Hf Hg Hc Hd.
  pose proof (src_inv_add fs n t f c H ltac:(lia) Hc) as H1. rewrite Hf in H1.
  pose proof (src_inv_add _ _ _ g d H1 ltac:(lia) Hd) as H2. rewrite Hg in H2.
  exact H2.
Qed.

Lemma handlePosition_wf pos force : preserves wf (handlePosition B pos force).
Proof.
  intros w Hwf. open_world w. apply wp_exec. unfold handlePosition. wp_go.
  destruct mi as [v|], vs as [fs|]; state_simpl; wp_go; try exact Hwf.
  unfold wf in Hwf; cbn in Hwf.
  destruct mk as [m|], ak as [a|]; wp_go.
  all: apply wp_preserves; [pres|].
  all: unfold wf; state_simpl.
  - eapply src_inv_ext; [|exact Hwf]. intros []; reflexivity.
  - eapply src_inv_ext;
      [|exact (src_inv_add fs nu _ {| uid := nu; kind := AccuracyCircle |} CAccuracy
                 Hwf (le_n _) eq_refl)].
    intros []; reflexivity.
  - eapply src_inv_ext;
      [|exact (src_inv_add fs nu _ {| uid := nu; kind := PositionMarker |} CMarker
                 Hwf (le_n _) eq_refl)].
    intros []; reflexivity.
  - eapply src_inv_ext;
      [|exact (src_inv_add2 fs nu _ {| uid := nu; kind := PositionMarker |}
                 {| uid := S nu; kind := AccuracyCircle |} CMarker CAccuracy
                 Hwf eq_refl eq_refl eq_refl eq_refl)].
    intros []; reflexivity.
Qed.

Lemma drawRouteMarkers_wf : preserves wf (drawRouteMarkers B).
Proof.
  intros w Hwf. open_world w. apply wp_exec. unfold drawRouteMarkers. wp_go.
  destruct vs as [fs|]; state_simpl; wp_go; [|exact Hwf].
  destruct oc as [o|], dc as [d|]; wp_go; try exact Hwf.
  unfold wf in Hwf; cbn in Hwf.
  lazymatch goal with |- wp _ _ ?W => change W with (set_source fs W) end.
  eapply (wp_remove_handle _ _ COrigin); [exact Hwf | reflexivity |].
  intros fs1 Hinv1. state_simpl. wp_step.
  lazymatch goal with |- wp _ _ ?W => change W with (set_source fs1 W) end.
  eapply (wp_remove_handle _ _ CDestination); [exact Hinv1 | reflexivity |].
  intros fs2 Hinv2. state_simpl. wp_go.
  unfold wf; state_simpl.
  eapply src_inv_ext;
    [|exact (src_inv_add2 fs2 nu _ {| uid := nu; kind := OriginPin |}
               {| uid := S nu; kind := DestinationPin |} COrigin CDestination
               Hinv2 eq_refl eq_refl eq_refl eq_refl)].
  intros []; reflexivity.
Qed.

Lemma clearRoute_wf : preserves wf (clearRoute B).
Proof. intros w Hwf. apply (clearRoute_run B w Hwf). Qed.

Lemma mapRendered_wf view base : preserves wf (mapRendered view base).
Proof.
  intros w Hwf. open_world w. unfold wf in *. cbn in *.
  destruct vs as [fs|]; cbn; [exact Hwf|].
  repeat split.
  - constructor.
  - intros f Hf. inversion Hf.
  - intros c. rewrite filter_nil. symmetry. apply Hwf.
Qed.

End WellFormed.

(* ----------------------------------------------------------------- *)
(** ** Drawing a route *)

Section DrawLoops.

Import MapUtils.
Variable B : Browser.

(** One turn of the traffic loop: a drawable segment becomes a fresh
    feature, added to the source and to [trafficFeatures]; any other
    one is logged and skipped. *)
Lemma wp_drawTrafficSegment idx s w fs Q :
  vectorSource (mapd w) = Some fs ->
  (if segment_drawable s
   then forall g,
          Q (Ok tt)
            (with_trafficFeatures
               (trafficFeatures w ++ [{| uid := ol_next_uid w; kind := TrafficSegment idx |}])
               (set_source (fs ++ [{| uid := ol_next_uid w; kind := TrafficSegment idx |}])
                  (with_ol (S (ol_next_uid w))
                     (<[ol_next_uid w := g]> (ol_geometry w)) w)))
   else Q (Ok tt) (with_trace (segment_error :: trace w) w)) ->
  wp (try_catch (drawTrafficSegment B idx s) (fun _ => emit segment_error)) Q w.
Proof.
  intros Hs HQ. open_world w. subst vs.
  unfold drawTrafficSegment, segment_drawable, member_coordinates, index in *.
  wp_step.
  destruct (geometry s) as [g|]; wp_go; [|exact HQ].
  destruct (nullish (coordinates g)); cbn [negb andb] in HQ; wp_go; [exact HQ|].
  destruct (nullish (item (coordinates g) 0)); cbn [negb andb] in HQ; wp_go; [exact HQ|].
  destruct (nullish (item (coordinates g) 1)); cbn [negb andb] in HQ; wp_go; [exact HQ|].
  apply HQ.
Qed.

Lemma wp_segments_loop segs : forall i w fs Q,
  vectorSource (mapd w) = Some fs ->
  (forall new og' tr',
      uid <$> new = seq (ol_next_uid w) (length new) ->
      Forall (fun f => class_of (kind f) = CTraffic) new ->
      length new = length (filter segment_drawable segs) ->
      Q (Ok tt)
        (with_trace tr'
           (with_trafficFeatures (trafficFeatures w ++ new)
              (set_source (fs ++ new)
                 (with_ol (ol_next_uid w + length new) og' w))))) ->
  wp (forEachIdx
        (fun idx segment =>
           try_catch (drawTrafficSegment B idx segment) (fun _ => emit segment_error))
        i segs) Q w.
Proof.
  induction segs as [|s segs IH]; intros i w fs Q Hs HQ; cbn [forEachIdx].
  - apply wp_ret. open_world w. subst vs.
    pose proof (HQ [] og tr eq_refl ltac:(constructor) eq_refl) as H.
    revert H. state_simpl. cbn [length].
    rewrite !app_nil_r, Nat.add_0_r. exact (fun H => H).
  - apply wp_bind. eapply wp_drawTrafficSegment; [exact Hs|].
    open_world w. subst vs.
    destruct (segment_drawable s) eqn:Hd.
    + intros g. state_simpl.
      eapply IH; [reflexivity|]. intros new og' tr' Hu Hk Hl. state_simpl.
      pose proof (HQ ({| uid := nu; kind := TrafficSegment i |} :: new) og' tr') as H.
      revert H. state_simpl. cbn [length].
      rewrite <- !app_assoc. cbn [app].
      replace (nu + S (length new)) with (S nu + length new) by lia.
      intros H. apply H.
      * rewrite fmap_cons. cbn [uid seq]. f_equal. exact Hu.
      * constructor; [reflexivity | exact Hk].
      * rewrite filter_cons_True by (rewrite Hd; exact Logic.I).
        cbn [length]. f_equal. exact Hl.
    + state_simpl.
      eapply IH; [reflexivity|]. intros new og' tr' Hu Hk Hl. state_simpl.
      pose proof (HQ new og' tr') as H. revert H. state_simpl.
      intros H. apply H; [exact Hu | exact Hk |].
      rewrite filter_cons_False by (rewrite Hd; exact (fun x => x)).
      exact Hl.
Qed.

(** One turn of the incident loop. *)
Lemma wp_drawTrafficIncident idx s w fs Q :
  vectorSource (mapd w) = Some fs ->
  (if incident_drawable s
   then forall g,
          Q (Ok tt)
            (with_incidentFeatures
               (incidentFeatures w ++ [{| uid := ol_next_uid w; kind := Incident idx |}])
               (set_source (fs ++ [{| uid := ol_next_uid w; kind := Incident idx |}])
                  (with_ol (S (ol_next_uid w))
                     (<[ol_next_uid w := g]> (ol_geometry w)) w)))
   else Q (Ok tt) (with_trace (incident_error :: trace w) w)) ->
  wp (try_catch (drawTrafficIncident B idx s) (fun _ => emit incident_error)) Q w.
Proof.
  intros Hs HQ. open_world w. subst vs.
  unfold drawTrafficIncident, incident_drawable, member_coordinates,
    fromLonLat_json in *.
  wp_step.
  destruct (geometry s) as [g|]; wp_go; [|exact HQ].
  destruct (properties s) as [p|]; cbn [defined negb andb] in HQ; wp_go; [|exact HQ].
  destruct (nullish (coordinates g)); cbn [negb andb] in HQ; wp_go; [exact HQ|].
  apply HQ.
Qed.

Lemma wp_incidents_loop incs : forall i w fs Q,
  vectorSource (mapd w) = Some fs ->
  (forall new og' tr',
      uid <$> new = seq (ol_next_uid w) (length new) ->
      Forall (fun f => class_of (kind f) = CIncident) new ->
      length new = length (filter incident_drawable incs) ->
      Q (Ok tt)
        (with_trace tr'
           (with_incidentFeatures (incidentFeatures w ++ new)
              (set_source (fs ++ new)
                 (with_ol (ol_next_uid w + length new) og' w))))) ->
  wp (forEachIdx
        (fun idx incident =>
           try_catch (drawTrafficIncident B idx incident)
             (fun _ => emit incident_error))
        i incs) Q w.
Proof.
  induction incs as [|s incs IH]; intros i w fs Q Hs HQ; cbn [forEachIdx].
  - apply wp_ret. open_world w. subst vs.
    pose proof (HQ [] og tr eq_refl ltac:(constructor) eq_refl) as H.
    revert H. state_simpl. cbn [length].
    rewrite !app_nil_r, Nat.add_0_r. exact (fun H => H).
  - apply wp_bind. eapply wp_drawTrafficIncident; [exact Hs|].
    open_world w. subst vs.
    destruct (incident_drawable s) eqn:Hd.
    + intros g. state_simpl.
      eapply IH; [reflexivity|]. intros new og' tr' Hu Hk Hl. state_simpl.
      pose proof (HQ ({| uid := nu; kind := Incident i |} :: new) og' tr') as H.
      revert H. state_simpl. cbn [length].
      rewrite <- !app_assoc. cbn [app].
      replace (nu + S (length new)) with (S nu + length new) by lia.
      intros H. apply H.
      * rewrite fmap_cons. cbn [uid seq]. f_equal. exact Hu.
      * constructor; [reflexivity | exact Hk].
      * rewrite filter_cons_True by (rewrite Hd; exact Logic.I).
        cbn [length]. f_equal. exact Hl.
    + state_simpl.
      eapply IH; [reflexivity|]. intros new og' tr' Hu Hk Hl. state_simpl.
      pose proof (HQ new og' tr') as H. revert H. state_simpl.
      intros H. apply H; [exact Hu | exact Hk |].
      rewrite filter_cons_False by (rewrite Hd; exact (fun x => x)).
      exact Hl.
Qed.

Lemma drawn_from_trace n0 vw nt ni w t :
  drawn_from n0 vw nt ni w -> drawn_from n0 vw nt ni (with_trace t w).
Proof. exact (fun H => H). Qed.

Lemma seq_fresh (new : list Feature) (n : nat) (f : Feature) :
  uid <$> new = seq n (length new) -> f ∈ new -> n <= uid f.
Proof.
  intros Hu Hf. apply (list_elem_of_fmap_2 uid) in Hf. rewrite Hu in Hf.
  apply list_elem_of_In, in_seq in Hf. lia.
Qed.

Lemma drawn_from_intro n0 vw nt ni w fs :
  vectorSource (mapd w) = Some fs ->
  src_inv fs (ol_next_uid w) (tracked w) ->
  mapInstance (mapd w) = vw ->
  n0 <= ol_next_uid w ->
  (forall f, f ∈ handle (rotatual (route w)) -> n0 <= uid f) ->
  (forall f, f ∈ trafficFeatures w -> n0 <= uid f) ->
  (forall f, f ∈ incidentFeatures w -> n0 <= uid f) ->
  length (trafficFeatures w) = nt ->
  length (incidentFeatures w) = ni ->
  drawn_from n0 vw nt ni w.
Proof.
  intros Hs Hinv Hm Hn Hr Ht Hi Hlt Hli. unfold drawn_from, wf. rewrite Hs.
  split; [exact Hinv|]. split; [now exists fs|]. split; [exact Hm|].
  split; [exact Hn|]. split; [|now split].
  intros c Hc f Hf. destruct c; try discriminate; cbn [tracked] in Hf; auto.
Qed.

Lemma drawn_from_elim n0 vw nt ni w :
  drawn_from n0 vw nt ni w ->
  exists fs,
    vectorSource (mapd w) = Some fs
    /\ src_inv fs (ol_next_uid w) (tracked w)
    /\ mapInstance (mapd w) = vw
    /\ n0 <= ol_next_uid w
    /\ (forall f, f ∈ handle (rotatual (route w)) -> n0 <= uid f)
    /\ (forall f, f ∈ trafficFeatures w -> n0 <= uid f)
    /\ (forall f, f ∈ incidentFeatures w -> n0 <= uid f)
    /\ length (trafficFeatures w) = nt
    /\ length (incidentFeatures w) = ni.
Proof.
  intros (Hwf & [fs Hs] & Hm & Hn & Hb & Ht & Hi). exists fs.
  unfold wf in Hwf. rewrite Hs in Hwf.
  repeat (split; [assumption|]).
  split; [exact (Hb CRoute eq_refl)|].
  split; [exact (Hb CTraffic eq_refl)|].
  split; [exact (Hb CIncident eq_refl)|]. now split.
Qed.

(** The traffic segments of a result, drawn onto a cleared overlay. *)
Lemma draw_segments_phase segs n0 vw w :
  drawn_from n0 vw 0 0 w ->
  wp (if Nat.ltb 0 (length segs) then drawTrafficSegments B segs else ret tt)
     (fun o w' =>
        o = Ok tt
        /\ drawn_from n0 vw (length (filter segment_drawable segs)) 0 w'
        /\ rotatual (route w') = rotatual (route w)) w.
Proof.
  intros Hd. pose proof Hd as Hd0.
  apply drawn_from_elim in Hd as (fs & Hs & Hinv & Hm & Hn & Hr & Ht & Hi & Hlt & Hli).
  open_world w. subst vs.
  apply nil_length_inv in Hlt. subst tf.
  destruct segs as [|s segs].
  { cbn [length Nat.ltb Nat.leb]. wp_go. split; [reflexivity|]. split; [|reflexivity].
    exact Hd0. }
  cbn [length Nat.ltb Nat.leb]. unfold drawTrafficSegments. wp_go.
  cbn [Nat.eqb]. fold segment_error.
  eapply wp_segments_loop; [reflexivity|].
  intros new og' tr' Hu Hk Hl. state_simpl. cbn [app].
  split; [reflexivity|]. split; [|reflexivity].
  eapply drawn_from_intro; state_simpl; try reflexivity; try assumption.
  - eapply src_inv_ext;
      [|exact (src_inv_add_list new fs nu _ CTraffic Hinv Hu Hk)].
    intros []; reflexivity.
  - lia.
  - intros f Hf. pose proof (seq_fresh new nu f Hu Hf). lia.
Qed.

(** The incidents of a result, drawn after the traffic segments. *)
Lemma draw_incidents_phase incs n0 vw nt w :
  drawn_from n0 vw nt 0 w ->
  wp (if Nat.ltb 0 (length incs) then drawTrafficIncidents B incs else ret tt)
     (fun o w' =>
        o = Ok tt
        /\ drawn_from n0 vw nt (length (filter incident_drawable incs)) w') w.
Proof.
  intros Hd. pose proof Hd as Hd0.
  apply drawn_from_elim in Hd as (fs & Hs & Hinv & Hm & Hn & Hr & Ht & Hi & Hlt & Hli).
  open_world w. subst vs.
  apply nil_length_inv in Hli. subst inf.
  destruct incs as [|s incs].
  { cbn [length Nat.ltb Nat.leb]. wp_go. split; [reflexivity|]. exact Hd0. }
  cbn [length Nat.ltb Nat.leb]. unfold drawTrafficIncidents. wp_go.
  cbn [Nat.eqb]. fold incident_error.
  eapply wp_incidents_loop; [reflexivity|].
  intros new og' tr' Hu Hk Hl. state_simpl. cbn [app].
  split; [reflexivity|].
  eapply drawn_from_intro; state_simpl; try reflexivity; try assumption.
  - eapply src_inv_ext;
      [|exact (src_inv_add_list new fs nu _ CIncident Hinv Hu Hk)].
    intros []; reflexivity.
  - lia.
  - intros f Hf. pose proof (seq_fresh new nu f Hu Hf). lia.
Qed.

End DrawLoops.

Section DrawRoute.

Import MapUtils.
Variable B : Browser.

(** The route line of a result, drawn onto a cleared overlay.  When it
    ends by a throw the first route feature had no geometry, or one that
    cannot be read and fitted. *)
Lemma draw_line_phase (rfs : list GFeature) (visible : bool) n0 vw w :
  drawn_from n0 vw 0 0 w ->
  rotatual (route w) = None ->
  wp (match rfs with
      | mainRoute :: _ =>
          olFeatures <- readFeatures B (RouteLine visible) mainRoute ;;
          match olFeatures with
          | routeFeature :: _ =>
              addFeature routeFeature ;;
              setRotatual (Some routeFeature) ;;
              fitTo B routeFeature ;;
              ret (extract_summary mainRoute)
          | [] => ret no_extract
          end
      | [] => ret no_extract
      end)
     (fun o w' =>
        drawn_from n0 vw 0 0 w'
        /\ match o with
           | Ok _ => True
           | Throw _ =>
               match rfs with
               | mainRoute :: _ =>
                   match geometry mainRoute with
                   | Some gg => line_geometry_readable B gg
                   | None => false
                   end
               | [] => true
               end = false
           end) w.
Proof.
  intros Hd Hrt. pose proof Hd as Hd0.
  apply drawn_from_elim in Hd as (fs & Hs & Hinv & Hm & Hn & Hr & Ht & Hi & Hlt & Hli).
  open_world w. subst vs rt.
  destruct rfs as [|m rest]; wp_go; [now split|].
  unfold readFeatures, fitTo.
  assert (Hadd : forall og',
    drawn_from n0 vw 0 0
      {| gps := {| markerFeature := mk; accuracyFeature := ak; following := fl;
                   currentPos := cp; currentAccuracy := ca; watchId := wi |};
         route := {| rotatual := Some {| uid := nu; kind := RouteLine visible |};
                     originMarker := om; destinationMarker := dm;
                     originCoords := oc; destinationCoords := dc |};
         mapd := {| mapInstance := mi;
                    vectorSource := Some (fs ++ [{| uid := nu; kind := RouteLine visible |}]);
                    apiBaseUrl := url |};
         hasInitialFix := hif; trafficFeatures := tf; incidentFeatures := inf;
         ol_next_uid := S nu; ol_geometry := og'; watches := ws; next_watch := nw;
         trace := tr |}).
  { intros og'. eapply drawn_from_intro; state_simpl; try reflexivity; try assumption.
    - eapply src_inv_ext;
        [|exact (src_inv_add fs nu _ {| uid := nu; kind := RouteLine visible |} CRoute
                   Hinv (le_n _) eq_refl)].
      intros []; reflexivity.
    - lia.
    - intros f Hf. apply list_elem_of_singleton in Hf. subst f. exact Hn. }
  destruct (geometry m) as [gg|]; wp_go.
  - unfold line_geometry_readable.
    destruct (supported_geometry (gtype gg)); wp_go; [|now split].
    destruct (reads_geometry B gg); wp_go; [|now split].
    rewrite lookup_insert_eq. wp_go. cbn [extent_is_empty].
    destruct (empty_extent B gg); wp_go.
    + split; [apply Hadd | reflexivity].
    + split; [apply drawn_from_trace, Hadd | exact Logic.I].
  - destruct (og !! nu) as [g0|]; wp_go.
    + destruct (extent_is_empty B g0); wp_go.
      * split; [apply Hadd | reflexivity].
      * split; [apply drawn_from_trace, Hadd | exact Logic.I].
    + split; [apply Hadd | reflexivity].
Qed.

(** What [drawRouteOnMap] does with a result, on a rendered page whose
    handles and source agree: it cannot raise; what it leaves is drawn
    from feature objects it created itself; there are at most as many
    traffic segments and incidents as the result has, and exactly the
    drawable ones when the route line could be read. *)
Lemma drawRouteOnMap_spec (w : World) (g : GeoJSON) :
  wf w ->
  ready w ->
  wp (drawRouteOnMap B (Some g))
     (fun o w' =>
        (exists e, o = Ok (Some e))
        /\ exists nt ni,
             drawn_from (ol_next_uid w) (mapInstance (mapd w)) nt ni w'
             /\ nt <= length (traffic_segments_of g)
             /\ ni <= length (incidents_of g)
             /\ (route_line_readable B g = true ->
                 nt = length (filter segment_drawable (traffic_segments_of g))
                 /\ ni = length (filter incident_drawable (incidents_of g)))) w.
Proof.
  intros Hwf [[v Hv] [fs Hs]]. open_world w. subst mi vs.
  unfold wf in Hwf. cbn in Hwf.
  unfold drawRouteOnMap. wp_go.
  (* the line of the previous route *)
  assert (H1 : exists fs1,
            src_inv fs1 nu
              (upd (tracked
                 {| gps := {| markerFeature := mk; accuracyFeature := ak;
                              following := fl; currentPos := cp;
                              currentAccuracy := ca; watchId := wi |};
                    route := {| rotatual := rt; originMarker := om;
                                destinationMarker := dm; originCoords := oc;
                                destinationCoords := dc |};
                    mapd := {| mapInstance := Some v; vectorSource := Some fs;
                               apiBaseUrl := url |};
                    hasInitialFix := hif; trafficFeatures := tf;
                    incidentFeatures := inf; ol_next_uid := nu; ol_geometry := og;
                    watches := ws; next_watch := nw; trace := tr |}) CRoute [])
            /\ forall Q,
                Q (Ok tt)
                  {| gps := {| markerFeature := mk; accuracyFeature := ak;
                               following := fl; currentPos := cp;
                               currentAccuracy := ca; watchId := wi |};
                     route := {| rotatual := None; originMarker := om;
                                 destinationMarker := dm; originCoords := oc;
                                 destinationCoords := dc |};
                     mapd := {| mapInstance := Some v; vectorSource := Some fs1;
                                apiBaseUrl := url |};
                     hasInitialFix := hif; trafficFeatures := tf;
                     incidentFeatures := inf; ol_next_uid := nu; ol_geometry := og;
                     watches := ws; next_watch := nw; trace := tr |} ->
                wp match rt with
                   | Some r => removeFeature B r;; setRotatual None
                   | None => ret tt
                   end Q
                  {| gps := {| markerFeature := mk; accuracyFeature := ak;
                               following := fl; currentPos := cp;
                               currentAccuracy := ca; watchId := wi |};
                     route := {| rotatual := rt; originMarker := om;
                                 destinationMarker := dm; originCoords := oc;
                                 destinationCoords := dc |};
                     mapd := {| mapInstance := Some v; vectorSource := Some fs;
                                apiBaseUrl := url |};
                     hasInitialFix := hif; trafficFeatures := tf;
                     incidentFeatures := inf; ol_next_uid := nu; ol_geometry := og;
                     watches := ws; next_watch := nw; trace := tr |}).
  { destruct rt as [r|].
    - exists (without r fs). split.
      + eapply (src_inv_del _ _ _ CRoute r []); [exact Hwf | reflexivity].
      + intros Q HQ. wp_step.
        lazymatch goal with |- wp _ _ ?W => change W with (set_source fs W) end.
        apply wp_removeFeature_ok.
        * eapply (src_inv_in_source _ _ _ CRoute); [exact Hwf | reflexivity].
        * state_simpl. wp_go. exact HQ.
    - exists fs. split.
      + eapply src_inv_ext; [|exact Hwf]. intros []; reflexivity.
      + intros Q HQ. wp_go. exact HQ. }
  destruct H1 as (fs1 & Hinv1 & Hrun). apply Hrun. clear Hrun.
  (* the traffic segments and incidents of the previous route *)
  wp_go.
  lazymatch goal with |- wp _ _ ?W => change W with (set_source fs1 W) end.
  eapply (wp_forEach_remove _ _ CTraffic); [exact Hinv1 | reflexivity |].
  intros fs2 Hinv2. state_simpl. wp_go.
  lazymatch goal with |- wp _ _ ?W => change W with (set_source fs2 W) end.
  eapply (wp_forEach_remove _ _ CIncident); [exact Hinv2 | reflexivity |].
  intros fs3 Hinv3. state_simpl. wp_go.
  (* the overlay is cleared *)
  match goal with
  | |- wp _ _ ?W =>
      assert (Hclear : drawn_from nu (Some v) 0 0 W /\ rotatual (route W) = None)
  end.
  { split; [|reflexivity].
    eapply drawn_from_intro; state_simpl; try reflexivity.
    - eapply src_inv_ext; [|exact Hinv3]. intros []; reflexivity.
    - intros f Hf. inversion Hf.
    - intros f Hf. inversion Hf.
    - intros f Hf. inversion Hf. }
  destruct Hclear as [Hclear Hnone].
  match goal with
  | |- wp _ _ ?W => generalize dependent W
  end.
  intros W Hclear Hnone.
  clear Hinv3 Hinv2 Hinv1 Hwf.
  unfold drawRouteFeatures, traffic_segments_of, incidents_of, route_line_readable.
  set (feats := default [] (features g)).
  destruct (Nat.eqb_spec (length feats) 0) as [Hlen|Hlen].
  { apply nil_length_inv in Hlen. rewrite Hlen. rewrite !filter_nil.
    wp_go.
    split; [now eexists|]. exists 0, 0.
    split; [apply drawn_from_trace, Hclear|]. cbn. repeat split; lia. }
  wp_step.
  eapply wp_mono; [apply (draw_line_phase _ _ nu (Some v)); assumption|].
  intros o1 w1 [Hd1 Hthrow]. destruct o1 as [e1|err].
  2: { wp_go.
       split; [now eexists|]. exists 0, 0.
       split; [apply drawn_from_trace, Hd1|].
       split; [lia|]. split; [lia|]. intros Hr. congruence. }
  wp_step.
  eapply wp_mono; [apply (draw_segments_phase B _ nu (Some v)); exact Hd1|].
  intros o2 w2 (-> & Hd2 & _).
  wp_step.
  eapply wp_mono; [apply (draw_incidents_phase B _ nu (Some v)); exact Hd2|].
  intros o3 w3 (-> & Hd3).
  wp_go.
  split; [now eexists|].
  eexists _, _. split; [exact Hd3|].
  split; [apply length_filter|]. split; [apply length_filter|].
  intros _. split; reflexivity.
Qed.

End DrawRoute.

Section WellFormedEverywhere.

Import Geolocation MapUtils RouteLogic.
Variable B : Browser.

Local Abbreviation keeps := (preserves wf).

Lemma drawRouteOnMap_wf g : keeps (drawRouteOnMap B g).
Proof.
  intros w Hwf. destruct g as [g|].
  - destruct (mapInstance (mapd w)) as [v|] eqn:Hv;
      [destruct (vectorSource (mapd w)) as [fs|] eqn:Hs|].
    + assert (Hr : ready w) by (split; eexists; eassumption).
      destruct (drawRouteOnMap_spec B w g Hwf Hr) as (_ & nt & ni & Hd & _).
      apply Hd.
    + open_world w. subst. apply wp_exec. unfold drawRouteOnMap. wp_go. exact Hwf.
    + open_world w. subst. apply wp_exec. unfold drawRouteOnMap. wp_go. exact Hwf.
  - open_world w. apply wp_exec. unfold drawRouteOnMap. wp_go. exact Hwf.
Qed.

Hint Resolve handlePosition_wf drawRouteMarkers_wf clearRoute_wf mapRendered_wf
  drawRouteOnMap_wf : pres.

Lemma startWatching_wf force : keeps (startWatching B force).
Proof. unfold startWatching, FontFaceSetLoadEvent. pres. Qed.

Lemma stopWatching_wf : keeps stopWatching.
Proof. unfold stopWatching, clearWatch. pres. Qed.

Lemma toggleFollow_wf : keeps (toggleFollow B).
Proof. unfold toggleFollow, setFollowButton. pres. Qed.

Lemma disableFollowOnMapDrag_wf : keeps (disableFollowOnMapDrag B).
Proof. unfold disableFollowOnMapDrag, setFollowButton. pres. Qed.

Lemma centerMapOnCurrentPos_wf : keeps (centerMapOnCurrentPos B).
Proof. unfold centerMapOnCurrentPos. pres. Qed.

Lemma fetchRouteData_wf o d c : keeps (fetchRouteData o d c).
Proof. unfold fetchRouteData. pres. Qed.

Lemma fetchRouteData_settled_wf r : keeps (fetchRouteData_settled B r).
Proof. unfold fetchRouteData_settled, displayTrafficLegend. pres. Qed.

Hint Resolve startWatching_wf stopWatching_wf toggleFollow_wf
  disableFollowOnMapDrag_wf centerMapOnCurrentPos_wf fetchRouteData_wf
  fetchRouteData_settled_wf : pres.

Lemma afterMapReady_wf dom via o d : keeps (afterMapReady B dom via o d).
Proof. unfold afterMapReady. pres. Qed.

Hint Resolve afterMapReady_wf : pres.

Lemma resume_wf dom p s : keeps (resume B dom p s).
Proof. unfold resume, afterDestination, waitForMapReady. pres. Qed.

Lemma calculateRouteFromAddresses_wf o d : keeps (calculateRouteFromAddresses B o d).
Proof. unfold calculateRouteFromAddresses. pres. Qed.

Lemma calculateAndDrawRoute_wf dom o d : keeps (calculateAndDrawRoute B dom o d).
Proof. unfold calculateAndDrawRoute, waitForMapReady. pres. Qed.

Hint Resolve resume_wf calculateRouteFromAddresses_wf calculateAndDrawRoute_wf : pres.

Lemma run_op_wf o : keeps (run_op B o).
Proof.
  destruct o; cbn [run_op]; unfold deliver, getCurrentOnceAndStartWatch; pres.
Qed.

(** In every world the page can be in, what is on the map is what the
    handles hold. *)
Lemma reachable_wf w : reachable B w -> wf w.
Proof.
  induction 1 as [|w o _ IH].
  - intros c. destruct c; reflexivity.
  - apply run_op_wf, IH.
Qed.

End WellFormedEverywhere.

Section NoStaleFeatures.

Import MapUtils.
Variable B : Browser.

Lemma drawRouteOnMap_ready r w :
  wf w -> ready w -> ready (exec (drawRouteOnMap B r) w).
Proof.
  intros Hwf Hr. destruct r as [g|].
  - destruct (drawRouteOnMap_spec B w g Hwf Hr) as (_ & nt & ni & Hd & _).
    apply drawn_from_elim in Hd as (fs & Hs & _ & Hm & _).
    unfold exec. split; [rewrite Hm; apply Hr | rewrite Hs; now eexists].
  - open_world w. apply wp_exec. unfold drawRouteOnMap. wp_go. exact Hr.
Qed.

Lemma drawRouteOnMap_sequence (rs : list (option GeoJSON)) : forall w,
  wf w -> ready w ->
  wf (fold_left (fun w r => exec (drawRouteOnMap B r) w) rs w)
  /\ ready (fold_left (fun w r => exec (drawRouteOnMap B r) w) rs w).
Proof.
  induction rs as [|r rs IH]; intros w Hwf Hr; cbn [fold_left]; [now split|].
  apply IH; [now apply drawRouteOnMap_wf | now apply drawRouteOnMap_ready].
Qed.


End NoStaleFeatures.


Lemma rendered_world_reachable (strict : bool) :
  reachable (a_browser strict) rendered_world.
Proof.
  vm_cast_no_check
    (reach_step (a_browser strict) initial_world
       (MapRendered sao_paulo "http://localhost:5000") (reach_init _)).
Qed.

Lemma tracking_world_reachable : reachable (a_browser true) tracking_world.
Proof.
  vm_cast_no_check
    (reach_step (a_browser true) _ (SensorFix (fix_at 20))
       (reach_step (a_browser true) _ (StartWatching true)
          (rendered_world_reachable true))).
Qed.


(* ----------------------------------------------------------------- *)
(** ** Concrete pages *)

Lemma routed_world_reachable : reachable (a_browser true) routed_world.
Proof.
  vm_cast_no_check
    (reach_step (a_browser true) _ (DrawRouteOnMap (Some result_with_two_segments))
       (reach_step (a_browser true) _ DrawRouteMarkers
          (reach_step (a_browser true) _ (SetDestinationCoords (Some avenida_paulista))
             (reach_step (a_browser true) _ (SetOriginCoords (Some praca_da_se))
                (rendered_world_reachable true))))).
Qed.

Lemma imprecise_world_reachable : reachable (a_browser true) imprecise_world.
Proof.
  vm_cast_no_check
    (reach_step (a_browser true) _ (SensorFix (fix_at 200)) tracking_world_reachable).
Qed.

Lemma precise_world_reachable : reachable (a_browser true) precise_world.
Proof.
  vm_cast_no_check
    (reach_step (a_browser true) _ (SensorFix (fix_at 50)) tracking_world_reachable).
Qed.

Lemma unrated_world_reachable : reachable (a_browser true) unrated_world.
Proof.
  vm_cast_no_check
    (reach_step (a_browser true) _ (SensorFix (fix_at 0)) tracking_world_reachable).
Qed.



Lemma gps_origin_accuracy_gate_witness :
  wf imprecise_world
  /\ wf precise_world
  /\ currentAccuracy (gps imprecise_world) = VNum 200
  /\ currentAccuracy (gps precise_world) = VNum 50
  /\ fst (RouteLogic.calculateRouteFromAddresses (a_browser true) "gps" "Avenida Paulista"
            imprecise_world) = Ok None
  /\ fst (RouteLogic.calculateRouteFromAddresses (a_browser true) "gps" "Avenida Paulista"
            precise_world)
     = Ok (Some (RouteLogic.AwaitDestinationGeocode
                   {| lon := (-466 # 10)%Q; lat := (-235 # 10)%Q |} "Avenida Paulista")).
Proof.
  assert (Hwf : wf imprecise_world) by exact (reachable_wf _ _ imprecise_world_reachable).
  assert (Hwf' : wf precise_world) by exact (reachable_wf _ _ precise_world_reachable).
  split; [exact Hwf|]. split; [exact Hwf'|]. split; [reflexivity|]. split; [reflexivity|].
  destruct (gps_origin_accuracy_gate (a_browser true) imprecise_world "gps"
              "Avenida Paulista" (-466 # 10) (-235 # 10) 200 Hwf eq_refl eq_refl eq_refl)
    as [H _].
  destruct (gps_origin_accuracy_gate (a_browser true) precise_world "gps"
              "Avenida Paulista" (-466 # 10) (-235 # 10) 50 Hwf' eq_refl eq_refl eq_refl)
    as [_ H'].
  split; [exact (proj1 (H eq_refl))|].
  apply H'. discriminate.
Defined.

Lemma gps_origin_falsy_accuracy_proceeds_witness :
  wf unrated_world
  /\ currentAccuracy (gps unrated_world) = VNum 0
  /\ fst (RouteLogic.calculateRouteFromAddresses (a_browser true) "GPS" "Avenida Paulista"
            unrated_world)
     = Ok (Some (RouteLogic.AwaitDestinationGeocode
                   {| lon := (-466 # 10)%Q; lat := (-235 # 10)%Q |} "Avenida Paulista")).
Proof.
  assert (Hwf : wf unrated_world) by exact (reachable_wf _ _ unrated_world_reachable).
  split; [exact Hwf|]. split; [reflexivity|].
  destruct (gps_origin_falsy_accuracy_proceeds (a_browser true) unrated_world "GPS"
              "Avenida Paulista" ((-466 # 10)%Q, (-235 # 10)%Q) Hwf eq_refl eq_refl)
    as [H _].
  exact (H eq_refl).
Defined.

(* ----------------------------------------------------------------- *)
(** ** Two route computations at once *)

Section LegacyGuard.

Import Legacy.

(** The legacy [window.drawRoute] turns a request down, with a console
    warning and without a network call, while an earlier one is in
    flight. *)
Lemma legacy_drawRoute_rejects_while_drawing (o d : LonLatPair) (g : Globals) :
  is_drawing_route g = true ->
  fst (drawRoute o d g) = None
  /\ layers (snd (drawRoute o d g)) = layers g
  /\ Legacy.rotatual (snd (drawRoute o d g)) = Legacy.rotatual g
  /\ exists m, log (snd (drawRoute o d g)) = Console "warn" m :: log g.
Proof.
  intros H. unfold drawRoute. rewrite H. cbn. repeat split. eexists. reflexivity.
Qed.

(** An accepted request raises the flag, and the flag is lowered only
    when the request has settled. *)
Lemma legacy_drawRoute_raises_flag (o d : LonLatPair) (g : Globals) :
  is_drawing_route g = false ->
  is_drawing_route (snd (drawRoute o d g)) = true
  /\ fst (drawRoute o d g) <> None.
Proof.
  intros H. unfold drawRoute. rewrite H. cbn.
  split; [|discriminate]. unfold remove_route. cbn. now destruct (Legacy.rotatual g).
Qed.

Lemma legacy_drawRoute_settled_lowers_flag (a : Answer) (g : Globals) :
  is_drawing_route (drawRoute_settled a g) = false.
Proof. reflexivity. Qed.

End LegacyGuard.

(** C4 (the code diverges).  On the rendered page a route is asked for
    from Praça da Sé to Avenida Paulista and, while its request is in
    flight, a second one from Parque Ibirapuera to Largo da Batata.  The
    current [calculateAndDrawRoute] accepts the second: it redraws the
    pins, posts a second request and shows the same progress message, no
    rejection.  When the second answer comes first and the first one
    after it, the map ends with the pins of the second request and the
    line of the first. *)
Theorem overlapping_route_requests_are_interleaved :
  let B := a_browser true in
  let first := RouteLogic.calculateAndDrawRoute B no_constraints
                 praca_da_se avenida_paulista rendered_world in
  let second := RouteLogic.calculateAndDrawRoute B no_constraints
                  parque_ibirapuera largo_da_batata (snd first) in
  let w3 := exec (RouteLogic.resume B no_constraints
                    (RouteLogic.AwaitRoute (request_for parque_ibirapuera largo_da_batata))
                    (answer_to parque_ibirapuera largo_da_batata)) (snd second) in
  let w4 := exec (RouteLogic.resume B no_constraints
                    (RouteLogic.AwaitRoute (request_for praca_da_se avenida_paulista))
                    (answer_to praca_da_se avenida_paulista)) w3 in
  fst first = Ok (Some (RouteLogic.AwaitRoute (request_for praca_da_se avenida_paulista)))
  /\ fst second
     = Ok (Some (RouteLogic.AwaitRoute (request_for parque_ibirapuera largo_da_batata)))
  /\ emitted (snd first) (snd second)
     = [Fetch (request_for parque_ibirapuera largo_da_batata);
        ShowMessage [Str "Calculando rota por coordenadas..."] "info"]
  /\ originCoords (route w4) = Some parque_ibirapuera
  /\ destinationCoords (route w4) = Some largo_da_batata
  /\ geometry_of (originMarker (route w4)) w4
     = Some (Point (lon parque_ibirapuera, lat parque_ibirapuera))
  /\ geometry_of (destinationMarker (route w4)) w4
     = Some (Point (lon largo_da_batata, lat largo_da_batata))
  /\ geometry_of (rotatual (route w4)) w4
     = Some (FromGeoJSON (line_between praca_da_se avenida_paulista))
  /\ length (rendered CRoute w4) = 1.
Proof. vm_compute. repeat split. Qed.

(* ================================================================= *)
(** * More of the page *)

(* ----------------------------------------------------------------- *)
(** ** The page as a whole: what is on the map, who is watching *)

Section PageInvariants.

Variable B : Browser.

(** X1.  In every state the page can reach, the features on the map are
    exactly the ones the module variables hold, class by class: feature
    objects are all distinct, and the map shows at most one position
    marker, one accuracy circle, one origin pin, one destination pin and
    one route line. *)
Theorem map_shows_what_the_handles_hold (w : World) :
  reachable B w ->
  (forall c, rendered c w = tracked w c)
  /\ NoDup (uid <$> default [] (vectorSource (mapd w)))
  /\ (forall f, f ∈ default [] (vectorSource (mapd w)) -> uid f < ol_next_uid w)
  /\ (forall c, c <> CTraffic -> c <> CIncident -> length (rendered c w) <= 1).
Proof.
  intros Hr. apply reachable_wf in Hr. unfold wf in Hr.
  assert (Hrt : forall c, rendered c w = tracked w c).
  { intros c. unfold rendered. destruct (vectorSource (mapd w)) as [fs|]; cbn [default].
    - apply Hr.
    - rewrite filter_nil. symmetry. apply Hr. }
  split; [exact Hrt|].
  split; [|split].
  - destruct (vectorSource (mapd w)) as [fs|]; cbn [default]; [apply Hr | constructor].
  - destruct (vectorSource (mapd w)) as [fs|]; cbn [default]; [apply Hr|].
    intros f Hf. inversion Hf.
  - intros c Ht Hi. rewrite Hrt.
    destruct c; cbn [tracked]; try congruence;
      match goal with |- context [handle ?o] => destruct o end; cbn; lia.
Qed.

(** X2.  In every state the page can reach, the stored watch handle is
    truthy exactly when a watch is live, and then the live watch is the
    only one and the handle is its id: no subscription is ever left
    behind without a handle to stop it. *)
Theorem watch_handle_names_the_live_subscription (w : World) :
  reachable B w ->
  (truthy (watchId (gps w)) = true <-> watches w <> [])
  /\ (forall id force, (id, force) ∈ watches w ->
      watchId (gps w) = VNum (inject_Z id)
      /\ (0 < id)%Z
      /\ watches w = [(id, force)]).
Proof.
  intros Hr. apply reachable_one_subscription in Hr.
  destruct Hr as [[Hf Hw] | (id & f & Hid & Hw)]; rewrite Hw.
  - split.
    + rewrite Hf. split; [discriminate | congruence].
    + intros id force H. inversion H.
  - split.
    + rewrite Hid. split; [discriminate | reflexivity].
    + intros id' force H. apply list_elem_of_singleton in H. injection H as -> ->.
      split; [exact Hid|]. split; [lia | reflexivity].
Qed.

End PageInvariants.

Lemma map_shows_what_the_handles_hold_witness :
  reachable (a_browser true) routed_world
  /\ rendered CTraffic routed_world = trafficFeatures routed_world
  /\ length (rendered CRoute routed_world) <= 1.
Proof.
  split; [exact routed_world_reachable|].
  destruct (map_shows_what_the_handles_hold (a_browser true) routed_world
              routed_world_reachable) as (H1 & _ & _ & H4).
  split; [exact (H1 CTraffic) | apply H4; discriminate].
Defined.

Lemma watch_handle_names_the_live_subscription_witness :
  reachable (a_browser true) tracking_world
  /\ (truthy (watchId (gps tracking_world)) = true <-> watches tracking_world <> []).
Proof.
  split; [exact tracking_world_reachable|].
  exact (proj1 (watch_handle_names_the_live_subscription (a_browser true) tracking_world
                  tracking_world_reachable)).
Defined.

(* ----------------------------------------------------------------- *)
(** ** Tracking: stop, follow, drag, centre *)

Section Tracking.

Import Geolocation.
Variable B : Browser.

(** What [stopWatching] does where at most one watch is live. *)
Lemma stopWatching_run (w : World) :
  one_subscription w ->
  let w' := exec stopWatching w in
  raises stopWatching w = false
  /\ watches w' = []
  /\ truthy (watchId (gps w')) = false
  /\ (truthy (watchId (gps w)) = true ->
      watchId (gps w') = VNull
      /\ following (gps w') = VBool false
      /\ hasInitialFix w' = false
      /\ trace w' = [UpdateStatus [Str "Rastreamento GPS desativado."];
                     ClearWatch (watchId (gps w))] ++ trace w)
  /\ (truthy (watchId (gps w)) = false -> w' = w)
  /\ currentPos (gps w') = currentPos (gps w)
  /\ currentAccuracy (gps w') = currentAccuracy (gps w)
  /\ markerFeature (gps w') = markerFeature (gps w)
  /\ accuracyFeature (gps w') = accuracyFeature (gps w)
  /\ mapd w' = mapd w
  /\ route w' = route w.
Proof.
  intros Hr w'.
  subst w'. unfold raises, exec.
  apply (wp_run stopWatching
           (fun r => match fst r with Ok _ => false | Throw _ => true end = false
                     /\ watches (snd r) = []
                     /\ truthy (watchId (gps (snd r))) = false
                     /\ (truthy (watchId (gps w)) = true ->
                         watchId (gps (snd r)) = VNull
                         /\ following (gps (snd r)) = VBool false
                         /\ hasInitialFix (snd r) = false
                         /\ trace (snd r) = _ ++ trace w)
                     /\ (truthy (watchId (gps w)) = false -> snd r = w)
                     /\ currentPos (gps (snd r)) = currentPos (gps w)
                     /\ currentAccuracy (gps (snd r)) = currentAccuracy (gps w)
                     /\ markerFeature (gps (snd r)) = markerFeature (gps w)
                     /\ accuracyFeature (gps (snd r)) = accuracyFeature (gps w)
                     /\ mapd (snd r) = mapd w
                     /\ route (snd r) = route w)).
  open_world w. unfold stopWatching. wp_go.
  destruct Hr as [[Hf Hw] | (id & f & Hid & Hw)].
  - cbn in Hf, Hw |- *. rewrite Hf. wp_go. subst ws. cbn [fst snd]. state_simpl.
    repeat split; try reflexivity; try assumption; discriminate.
  - cbn in Hid, Hw |- *. subst wi ws.
    assert (E : Qeq_bool (inject_Z (Zpos id)) (inject_Z (Zpos id)) = true)
      by (apply Qeq_bool_iff; reflexivity).
    change (truthy (VNum (inject_Z (Z.pos id)))) with true. cbn iota.
    unfold clearWatch. wp_go. cbn [fst snd]. state_simpl. cbn [filter]. 
    repeat split; try reflexivity; try discriminate.
    cbn. rewrite E. reflexivity.
Qed.

(** X3.  From any state the page can reach, [stopWatching] raises
    nothing and leaves no watch live and no handle.  If a watch was
    live it is cleared with the browser, follow-mode is switched off and
    the next fix will count as a first fix again; a fix the sensor still
    reports afterwards reaches no callback.  The stored position, the
    marker and the map stay as they are.  With no watch live it does
    nothing at all. *)
Theorem stopWatching_ends_the_session (w : World) :
  reachable B w ->
  let w' := exec stopWatching w in
  raises stopWatching w = false
  /\ watches w' = []
  /\ truthy (watchId (gps w')) = false
  /\ (truthy (watchId (gps w)) = true ->
      watchId (gps w') = VNull
      /\ following (gps w') = VBool false
      /\ hasInitialFix w' = false
      /\ emitted w w' = [UpdateStatus [Str "Rastreamento GPS desativado."];
                         ClearWatch (watchId (gps w))])
  /\ (truthy (watchId (gps w)) = false -> w' = w)
  /\ (forall pos, exec (deliver B pos) w' = w')
  /\ currentPos (gps w') = currentPos (gps w)
  /\ currentAccuracy (gps w') = currentAccuracy (gps w)
  /\ markerFeature (gps w') = markerFeature (gps w)
  /\ accuracyFeature (gps w') = accuracyFeature (gps w)
  /\ mapd w' = mapd w
  /\ route w' = route w.
Proof.
  intros Hr w'. apply reachable_one_subscription in Hr.
  pose proof (stopWatching_run w Hr) as H. cbv zeta in H. fold w' in H.
  destruct H as (H1 & H2 & H3 & H4 & H5 & H6 & H7 & H8 & H9 & H10 & H11).
  repeat (split; [assumption|]).
  split.
  { intros Ht. destruct (H4 Ht) as (? & ? & ? & Htr).
    repeat (split; [assumption|]). now apply emitted_app in Htr. }
  split; [assumption|].
  split.
  { intros pos. unfold exec, deliver, bind, gets. rewrite H2. reflexivity. }
  repeat (split; [assumption|]). assumption.
Qed.

End Tracking.

Lemma stopWatching_ends_the_session_witness :
  reachable (a_browser true) tracking_world
  /\ watches tracking_world <> []
  /\ watches (exec Geolocation.stopWatching tracking_world) = [].
Proof.
  split; [exact tracking_world_reachable|]. split; [discriminate|].
  exact (proj1 (proj2 (stopWatching_ends_the_session (a_browser true) tracking_world
                         tracking_world_reachable))).
Defined.

Section FollowMode.

Import Geolocation.
Variable B : Browser.

(** X4.  [toggleFollow] raises nothing and sets the follow flag to the
    negation of its truthiness; the status line and the label written to
    the follow button (when the page has one) say what the flag now is.
    Toggling twice gives back the truthiness the flag had, and the very
    state (trace apart) when the flag was a boolean. *)
Theorem toggleFollow_flips_and_labels (w : World) :
  let w1 := exec (toggleFollow B) w in
  let w2 := exec (toggleFollow B) w1 in
  let on := negb (truthy (following (gps w))) in
  raises (toggleFollow B) w = false
  /\ following (gps w1) = VBool on
  /\ emitted w w1
     = (if has_btn_follow B
        then [ButtonText "btn-follow" (if on then "▶ Seguir: ON" else "▶ Seguir: OFF")]
        else [])
       ++ [UpdateStatus [Str (if on then "Modo Seguir Ativado."
                              else "Modo Seguir Desativado.")]]
  /\ with_trace (trace w) w1 = with_gps (fun g =>
       {| markerFeature := markerFeature g; accuracyFeature := accuracyFeature g;
          following := VBool on; currentPos := currentPos g;
          currentAccuracy := currentAccuracy g; watchId := watchId g |}) w
  /\ truthy (following (gps w2)) = truthy (following (gps w))
  /\ (forall b, following (gps w) = VBool b -> with_trace (trace w) w2 = w).
Proof.
  intros w1 w2 on.
  assert (H : forall w0 : World,
            fst (toggleFollow B w0) = Ok tt
            /\ exec (toggleFollow B) w0
               = with_trace
                   ((if has_btn_follow B
                     then [ButtonText "btn-follow"
                             (if negb (truthy (following (gps w0)))
                              then "▶ Seguir: ON" else "▶ Seguir: OFF")]
                     else [])
                    ++ [UpdateStatus
                          [Str (if negb (truthy (following (gps w0)))
                                then "Modo Seguir Ativado."
                                else "Modo Seguir Desativado.")]] ++ trace w0)
                   (with_gps (fun g =>
                      {| markerFeature := markerFeature g;
                         accuracyFeature := accuracyFeature g;
                         following := VBool (negb (truthy (following (gps w0))));
                         currentPos := currentPos g;
                         currentAccuracy := currentAccuracy g;
                         watchId := watchId g |}) w0)).
  { intros w0. unfold exec.
    apply (wp_run (toggleFollow B) (fun r => fst r = Ok tt /\ snd r = _)).
    open_world w0. unfold toggleFollow, JS.not. wp_go.
    unfold setFollowButton. destruct (has_btn_follow B); wp_go; split; reflexivity. }
  destruct (H w) as [Hok Hw1]. fold w1 in Hw1. fold on in Hw1.
  destruct (H w1) as [_ Hw2]. fold w2 in Hw2.
  assert (Hf1 : following (gps w1) = VBool on) by (rewrite Hw1; reflexivity).
  split; [unfold raises; now rewrite Hok|].
  split; [exact Hf1|].
  split.
  { apply emitted_app. rewrite Hw1. cbn [trace with_trace]. now rewrite app_assoc. }
  split; [rewrite Hw1; reflexivity|].
  assert (Hf2 : following (gps w2) = VBool (negb on)).
  { rewrite Hw2, Hf1. reflexivity. }
  split.
  { rewrite Hf2. unfold on. cbn. now rewrite negb_involutive. }
  intros b Hb. rewrite Hw2, Hf1, Hw1. unfold on. rewrite Hb. cbn [truthy].
  rewrite negb_involutive. clear - Hb. destruct w as [[] ? ? ? ? ? ? ? ? ? ?].
  cbn in Hb |- *. subst. reflexivity.
Qed.

End FollowMode.

Section DragAndCentre.

Import Geolocation.
Variable B : Browser.

(** X5.  A map drag raises nothing and never leaves follow-mode on.
    With follow-mode off it does nothing at all; with follow-mode on it
    stores [false], writes the status line and the button label, and
    touches nothing else: the watch, the stored position, the map and
    the route stay as they are. *)
Theorem map_drag_only_clears_follow_mode (w : World) :
  let w' := exec (disableFollowOnMapDrag B) w in
  raises (disableFollowOnMapDrag B) w = false
  /\ truthy (following (gps w')) = false
  /\ (truthy (following (gps w)) = false -> w' = w)
  /\ (truthy (following (gps w)) = true ->
      emitted w w'
      = (if has_btn_follow B then [ButtonText "btn-follow" "▶ Seguir: OFF"] else [])
        ++ [UpdateStatus [Str "Modo Seguir Desativado (Movimento manual detectado)."]]
      /\ with_trace (trace w) w' = with_gps (fun g =>
           {| markerFeature := markerFeature g; accuracyFeature := accuracyFeature g;
              following := VBool false; currentPos := currentPos g;
              currentAccuracy := currentAccuracy g; watchId := watchId g |}) w).
Proof.
  intros w'. subst w'. unfold raises, exec.
  apply (wp_run (disableFollowOnMapDrag B)
           (fun r => match fst r with Ok _ => false | Throw _ => true end = false
                     /\ truthy (following (gps (snd r))) = false
                     /\ (truthy (following (gps w)) = false -> snd r = w)
                     /\ (truthy (following (gps w)) = true ->
                         emitted w (snd r) = _
                         /\ with_trace (trace w) (snd r) = _))).
  open_world w. unfold disableFollowOnMapDrag. wp_go.
  destruct (truthy fl) eqn:E; wp_go.
  - unfold setFollowButton. destruct (has_btn_follow B); wp_go; cbn [fst snd]; state_simpl.
    all: split; [reflexivity|]; split; [reflexivity|]; split; [discriminate|].
    all: intros _; split; [|reflexivity].
    + now apply (emitted_app _ _ [_; _]).
    + now apply (emitted_app _ _ [_]).
  - cbn [fst snd]. state_simpl. repeat split; try assumption; try reflexivity; discriminate.
Qed.

(** X6.  [centerMapOnCurrentPos] raises nothing.  With a stored
    position and a map it centres the view on that position and sets
    the zoom to [max(16, zoom)], so it never zooms out, whatever the
    stored accuracy and whether follow-mode is on or not; otherwise it
    only writes a status line.  It changes nothing but the view. *)
Theorem centerMapOnCurrentPos_centres_on_stored_position (w : World) :
  let w' := exec (centerMapOnCurrentPos B) w in
  raises (centerMapOnCurrentPos B) w = false
  /\ (forall p v,
        currentPos (gps w) = Some p -> mapInstance (mapd w) = Some v ->
        mapInstance (mapd w') = Some {| center := fromLonLat B p; zoom := max16 (zoom v) |}
        /\ (zoom v <= max16 (zoom v))%Q
        /\ (16 <= max16 (zoom v))%Q
        /\ emitted w w' = [UpdateStatus [Str "Mapa centralizado na sua posição atual."];
                           SetZoom (max16 (zoom v)); SetCenter (fromLonLat B p)])
  /\ (currentPos (gps w) = None \/ mapInstance (mapd w) = None ->
      w' = with_trace
             (UpdateStatus [Str "Posição GPS atual não disponível para centralizar."]
                :: trace w) w)
  /\ gps w' = gps w
  /\ route w' = route w
  /\ vectorSource (mapd w') = vectorSource (mapd w)
  /\ watches w' = watches w
  /\ hasInitialFix w' = hasInitialFix w.
Proof.
  intros w'. subst w'. unfold raises, exec.
  apply (wp_run (centerMapOnCurrentPos B)
           (fun r => match fst r with Ok _ => false | Throw _ => true end = false
                     /\ (forall p v,
                           currentPos (gps w) = Some p -> mapInstance (mapd w) = Some v ->
                           mapInstance (mapd (snd r)) = _
                           /\ (zoom v <= max16 (zoom v))%Q
                           /\ (16 <= max16 (zoom v))%Q
                           /\ emitted w (snd r) = _)
                     /\ (currentPos (gps w) = None \/ mapInstance (mapd w) = None ->
                         snd r = _)
                     /\ gps (snd r) = gps w
                     /\ route (snd r) = route w
                     /\ vectorSource (mapd (snd r)) = vectorSource (mapd w)
                     /\ watches (snd r) = watches w
                     /\ hasInitialFix (snd r) = hasInitialFix w)).
  open_world w. unfold centerMapOnCurrentPos. wp_go.
  destruct cp as [p|], mi as [v|]; wp_go; cbn [fst snd]; state_simpl.
  all: split; [reflexivity|].
  all: split; [|split; [|repeat split; reflexivity]].
  all: try (intros p0 v0 Hp Hv; discriminate).
  all: try (intros _; reflexivity).
  - intros p0 v0 Hp Hv. injection Hp as <-. injection Hv as <-.
    split; [reflexivity|]. split; [|split; [apply max16_ge|]].
    + unfold max16. destruct (Qle_bool 16 (zoom v)) eqn:E; [apply Qle_refl|].
      apply Qle_bool_false_lt in E. now apply Qlt_le_weak.
    + now apply (emitted_app _ _ [_; _; _]).
  - intros [H|H]; discriminate.
Qed.

End DragAndCentre.

Lemma centerMapOnCurrentPos_centres_on_stored_position_example :
  mapInstance (mapd (exec (Geolocation.centerMapOnCurrentPos (a_browser true))
                       imprecise_world))
  = Some {| center := ((-466 # 10)%Q, (-235 # 10)%Q); zoom := 16%Q |}.
Proof.
  destruct (centerMapOnCurrentPos_centres_on_stored_position (a_browser true)
              imprecise_world) as (_ & H & _).
  exact (proj1 (H ((-466 # 10)%Q, (-235 # 10)%Q)
                  {| center := ((-466 # 10)%Q, (-235 # 10)%Q); zoom := 16%Q |}
                  eq_refl eq_refl)).
Defined.

Section SensorCallback.

Import Geolocation.
Variable B : Browser.

(** A feature a handle holds is on the map, so older than the next uid. *)
Lemma tracked_handle_old fs n t c f :
  src_inv fs n t -> t c = [f] -> f ∈ fs /\ uid f < n /\ class_of (kind f) = c.
Proof.
  intros (Hnd & Hold & Hc) E.
  assert (Hf : f ∈ filter (in_class c) fs) by (rewrite Hc, E; apply list_elem_of_here).
  apply list_elem_of_filter in Hf as [Hk Hf]. unfold in_class in Hk.
  apply bool_decide_unpack in Hk. auto.
Qed.

(** X7.  On the rendered page, in a state in which handles and map
    agree, every sensor callback is accepted without raising: it stores
    the reported position and accuracy, and afterwards the map shows
    exactly one position marker, at the reported position, and exactly
    one accuracy circle, centred there with the reported accuracy as its
    radius.  A marker or circle that was there is moved, not doubled;
    nothing else on the map changes. *)
Theorem handlePosition_puts_marker_and_circle (w : World) (pos : Position)
    (force : bool) :
  wf w ->
  ready w ->
  let w' := exec (handlePosition B pos force) w in
  let coord := fromLonLat B (longitude pos, latitude pos) in
  raises (handlePosition B pos force) w = false
  /\ currentPos (gps w') = Some (longitude pos, latitude pos)
  /\ currentAccuracy (gps w') = VNum (accuracy pos)
  /\ (exists m a,
        rendered CMarker w' = [m]
        /\ rendered CAccuracy w' = [a]
        /\ ol_geometry w' !! uid m = Some (Point coord)
        /\ ol_geometry w' !! uid a = Some (Circle coord (accuracy pos))
        /\ (forall m0, markerFeature (gps w) = Some m0 -> m = m0)
        /\ (forall a0, accuracyFeature (gps w) = Some a0 -> a = a0))
  /\ (forall c, c <> CMarker -> c <> CAccuracy -> rendered c w' = rendered c w)
  /\ hasInitialFix w' = true.
Proof.
  intros Hwf [[v Hv] [fs Hfs]] w' coord.
  pose proof (handlePosition_wf B pos force w Hwf) as Hwf'. fold w' in Hwf'.
  assert (Hrend : forall w0, wf w0 -> forall c, rendered c w0 = tracked w0 c).
  { intros w0 H0 c. unfold wf in H0. unfold rendered.
    destruct (vectorSource (mapd w0)); cbn [default]; [apply H0|].
    rewrite filter_nil. symmetry. apply H0. }
  assert (H : fst (handlePosition B pos force w) = Ok tt
              /\ currentPos (gps w') = Some (longitude pos, latitude pos)
              /\ currentAccuracy (gps w') = VNum (accuracy pos)
              /\ (exists m a,
                    markerFeature (gps w') = Some m
                    /\ accuracyFeature (gps w') = Some a
                    /\ ol_geometry w' !! uid m = Some (Point coord)
                    /\ ol_geometry w' !! uid a = Some (Circle coord (accuracy pos))
                    /\ (forall m0, markerFeature (gps w) = Some m0 -> m = m0)
                    /\ (forall a0, accuracyFeature (gps w) = Some a0 -> a = a0))
              /\ route w' = route w
              /\ trafficFeatures w' = trafficFeatures w
              /\ incidentFeatures w' = incidentFeatures w
              /\ hasInitialFix w' = true).
  { subst w' coord. unfold exec. clear Hwf' Hrend.
    apply (wp_run (handlePosition B pos force)
             (fun r => fst r = Ok tt
                       /\ currentPos (gps (snd r)) = _
                       /\ currentAccuracy (gps (snd r)) = _
                       /\ (exists m a,
                             markerFeature (gps (snd r)) = Some m
                             /\ accuracyFeature (gps (snd r)) = Some a
                             /\ ol_geometry (snd r) !! uid m = _
                             /\ ol_geometry (snd r) !! uid a = _
                             /\ (forall m0, markerFeature (gps w) = Some m0 -> m = m0)
                             /\ (forall a0, accuracyFeature (gps w) = Some a0 -> a = a0))
                       /\ route (snd r) = route w
                       /\ trafficFeatures (snd r) = trafficFeatures w
                       /\ incidentFeatures (snd r) = incidentFeatures w
                       /\ hasInitialFix (snd r) = true)).
    open_world w. subst mi vs. unfold wf in Hwf. cbn in Hwf.
    unfold handlePosition, GPS_RELIABLE_THRESHOLD, Qgt_bool. wp_go.
    assert (Hm : forall m, mk = Some m -> uid m < nu).
    { intros m ->. eapply (tracked_handle_old _ _ _ CMarker); [exact Hwf | reflexivity]. }
    assert (Ha : forall a, ak = Some a -> uid a < nu).
    { intros a ->. eapply (tracked_handle_old _ _ _ CAccuracy); [exact Hwf | reflexivity]. }
    assert (Hma : forall m a, mk = Some m -> ak = Some a -> uid m <> uid a).
    { intros m a -> -> E.
      destruct (tracked_handle_old _ _ _ CMarker m Hwf eq_refl) as (Hin1 & _ & Hc1).
      destruct (tracked_handle_old _ _ _ CAccuracy a Hwf eq_refl) as (Hin2 & _ & Hc2).
      destruct Hwf as (Hnd & _).
      assert (m = a) by (eapply uid_inj_in; eassumption). subst a. congruence. }
    destruct mk as [m|], ak as [a|]; wp_go.
    all: try specialize (Hm _ eq_refl).
    all: try specialize (Ha _ eq_refl).
    all: try specialize (Hma _ _ eq_refl eq_refl).
    all: destruct hif; cbn [negb andb ENABLE_AUTO_CENTER_ON_START]; wp_go.
    all: try (destruct (Qle_bool (accuracy pos) 150);
              rewrite ?andb_true_r, ?andb_false_r; state_simpl; wp_go).
    all: try (destruct (force || truthy fl); wp_go).
    all: cbn [fst snd]; state_simpl.
    all: do 3 (split; [reflexivity|]).
    all: (split; [|repeat split; reflexivity]).
    all: eexists; eexists; split; [reflexivity|]; split; [reflexivity|].
    all: cbn [uid].
    all: split;
      [repeat first [rewrite lookup_insert_eq | rewrite lookup_insert_ne by lia];
       reflexivity|].
    all: split;
      [repeat first [rewrite lookup_insert_eq | rewrite lookup_insert_ne by lia];
       reflexivity|].
    all: split; intros ? E; first [discriminate E | injection E as <-; reflexivity]. }
  destruct H as (Hok & Hp & Hacc & (m & a & Hm & Ha & Hgm & Hga & Hm0 & Ha0)
                 & Hro & Htf & Hif & Hfix).
  split; [unfold raises; now rewrite Hok|].
  do 2 (split; [assumption|]).
  split.
  { exists m, a. rewrite !(Hrend w' Hwf'). cbn [tracked]. rewrite Hm, Ha.
    repeat split; assumption. }
  split; [|assumption].
  intros c Hc1 Hc2. rewrite (Hrend w' Hwf'), (Hrend w Hwf).
  destruct c; cbn [tracked]; congruence.
Qed.

(** X8.  While the map instance or the vector source is missing, a
    sensor callback is refused: it raises nothing and writes the
    internal-error status, and that is all; the reported position is not
    stored, no marker is made, and the fix does not count as the first
    one. *)
Theorem handlePosition_refused_before_the_map_is_ready (w : World) (pos : Position)
    (force : bool) :
  mapInstance (mapd w) = None \/ vectorSource (mapd w) = None ->
  raises (handlePosition B pos force) w = false
  /\ exec (handlePosition B pos force) w
     = with_trace
         (UpdateStatus [Str "Erro interno: Mapa não inicializado para GPS."] :: trace w) w.
Proof.
  intros H. split; [|now apply handlePosition_refused].
  unfold raises.
  apply (wp_run (handlePosition B pos force)
           (fun r => match fst r with Ok _ => false | Throw _ => true end = false)).
  open_world w. unfold handlePosition. wp_go.
  destruct mi, vs; destruct H; try discriminate; wp_go; reflexivity.
Qed.

End SensorCallback.

Lemma handlePosition_puts_marker_and_circle_witness :
  wf tracking_world
  /\ ready tracking_world
  /\ currentAccuracy
       (gps (exec (Geolocation.handlePosition (a_browser true) (fix_at 200) false)
               tracking_world))
     = VNum 200.
Proof.
  assert (Hwf : wf tracking_world) by exact (reachable_wf _ _ tracking_world_reachable).
  assert (Hr : ready tracking_world) by (split; eexists; reflexivity).
  split; [exact Hwf|]. split; [exact Hr|].
  exact (proj1 (proj2 (proj2 (handlePosition_puts_marker_and_circle (a_browser true)
                                tracking_world (fix_at 200) false Hwf Hr)))).
Defined.

Lemma handlePosition_refused_before_the_map_is_ready_witness :
  mapInstance (mapd initial_world) = None
  /\ currentPos (gps (exec (Geolocation.handlePosition (a_browser true) (fix_at 20) true)
                        initial_world)) = None.
Proof.
  split; [reflexivity|].
  rewrite (proj2 (handlePosition_refused_before_the_map_is_ready (a_browser true)
                    initial_world (fix_at 20) true (or_introl eq_refl))).
  reflexivity.
Defined.

(* ----------------------------------------------------------------- *)
(** ** Pins and overlay *)

Section Pins.

Import MapUtils.
Variable B : Browser.

(** On a page in which handles and map agree, what is on the map is what
    the handles hold. *)
Lemma rendered_tracked (w : World) : wf w -> forall c, rendered c w = tracked w c.
Proof.
  intros H c. unfold wf in H. unfold rendered.
  destruct (vectorSource (mapd w)); cbn [default]; [apply H|].
  rewrite filter_nil. symmetry. apply H.
Qed.

(** What [drawRouteMarkers] does once the source and both end points
    are there. *)
Lemma drawRouteMarkers_spec (w : World) (o d : LonLat) :
  wf w ->
  is_Some (vectorSource (mapd w)) ->
  originCoords (route w) = Some o ->
  destinationCoords (route w) = Some d ->
  wp (drawRouteMarkers B)
     (fun out w' =>
        out = Ok tt
        /\ wf w'
        /\ is_Some (vectorSource (mapd w'))
        /\ originMarker (route w') = Some {| uid := ol_next_uid w; kind := OriginPin |}
        /\ destinationMarker (route w')
           = Some {| uid := S (ol_next_uid w); kind := DestinationPin |}
        /\ ol_geometry w' !! ol_next_uid w = Some (Point (fromLonLat B (lon o, lat o)))
        /\ ol_geometry w' !! S (ol_next_uid w) = Some (Point (fromLonLat B (lon d, lat d)))
        /\ ol_next_uid w' = S (S (ol_next_uid w))
        /\ gps w' = gps w
        /\ rotatual (route w') = rotatual (route w)
        /\ originCoords (route w') = Some o
        /\ destinationCoords (route w') = Some d
        /\ trafficFeatures w' = trafficFeatures w
        /\ incidentFeatures w' = incidentFeatures w
        /\ mapInstance (mapd w') = mapInstance (mapd w)
        /\ apiBaseUrl (mapd w') = apiBaseUrl (mapd w)
        /\ hasInitialFix w' = hasInitialFix w
        /\ watches w' = watches w
        /\ trace w' = trace w) w.
Proof.
  intros Hwf [fs Hs] Ho Hd. open_world w. subst vs oc dc.
  unfold wf in Hwf; cbn in Hwf.
  unfold drawRouteMarkers. wp_go.
  lazymatch goal with |- wp _ _ ?W => change W with (set_source fs W) end.
  eapply (wp_remove_handle _ _ COrigin); [exact Hwf | reflexivity |].
  intros fs1 Hinv1. state_simpl. wp_step.
  lazymatch goal with |- wp _ _ ?W => change W with (set_source fs1 W) end.
  eapply (wp_remove_handle _ _ CDestination); [exact Hinv1 | reflexivity |].
  intros fs2 Hinv2. state_simpl. wp_go.
  split; [reflexivity|]. split.
  { unfold wf; state_simpl.
    eapply src_inv_ext;
      [|exact (src_inv_add2 fs2 nu _ {| uid := nu; kind := OriginPin |}
                 {| uid := S nu; kind := DestinationPin |} COrigin CDestination
                 Hinv2 eq_refl eq_refl eq_refl eq_refl)].
    intros []; reflexivity. }
  split; [now eexists|].
  do 2 (split; [reflexivity|]).
  split; [rewrite lookup_insert_ne by lia; apply lookup_insert_eq|].
  split; [apply lookup_insert_eq|].
  repeat split; reflexivity.
Qed.

(** X9.  With the vector source there and both end points stored, in a
    state in which handles and map agree, [drawRouteMarkers] raises
    nothing and replaces the pins: afterwards the map shows exactly one
    origin pin and one destination pin, both new feature objects, at the
    stored origin and destination; every other feature stays.  With an
    end point missing it draws nothing; with the vector source missing
    it registers a one-time [mapReady] listener and draws nothing. *)
Theorem drawRouteMarkers_replaces_the_pins (w : World) :
  wf w ->
  let w' := exec (drawRouteMarkers B) w in
  raises (drawRouteMarkers B) w = false
  /\ (forall o d,
        is_Some (vectorSource (mapd w)) ->
        originCoords (route w) = Some o ->
        destinationCoords (route w) = Some d ->
        exists fo fd,
          rendered COrigin w' = [fo]
          /\ rendered CDestination w' = [fd]
          /\ kind fo = OriginPin
          /\ kind fd = DestinationPin
          /\ ol_geometry w' !! uid fo = Some (Point (fromLonLat B (lon o, lat o)))
          /\ ol_geometry w' !! uid fd = Some (Point (fromLonLat B (lon d, lat d)))
          /\ ol_next_uid w <= uid fo
          /\ ol_next_uid w <= uid fd)
  /\ (is_Some (vectorSource (mapd w)) ->
      forall c, c <> COrigin -> c <> CDestination -> rendered c w' = rendered c w)
  /\ (is_Some (vectorSource (mapd w)) ->
      originCoords (route w) = None \/ destinationCoords (route w) = None ->
      w' = with_trace
             (Console "warn" [Str "[MAP_UTILS] Coordenadas ausentes. Aborting drawRouteMarkers."]
                :: trace w) w)
  /\ (vectorSource (mapd w) = None ->
      w' = with_trace
             (OnceMapReady "drawRouteMarkers"
                :: Console "warn"
                     [Str "[MAP_UTILS] Fonte de vetor ainda não disponível. Aguardando mapReady..."]
                :: trace w) w).
Proof.
  intros Hwf w'.
  assert (Hdone : forall o d,
            is_Some (vectorSource (mapd w)) ->
            originCoords (route w) = Some o ->
            destinationCoords (route w) = Some d ->
            fst (drawRouteMarkers B w) = Ok tt
            /\ (exists fo fd,
                  rendered COrigin w' = [fo]
                  /\ rendered CDestination w' = [fd]
                  /\ kind fo = OriginPin
                  /\ kind fd = DestinationPin
                  /\ ol_geometry w' !! uid fo = Some (Point (fromLonLat B (lon o, lat o)))
                  /\ ol_geometry w' !! uid fd = Some (Point (fromLonLat B (lon d, lat d)))
                  /\ ol_next_uid w <= uid fo
                  /\ ol_next_uid w <= uid fd)
            /\ forall c, c <> COrigin -> c <> CDestination -> rendered c w' = rendered c w).
  { intros o d Hs Ho Hd.
    pose proof (drawRouteMarkers_spec w o d Hwf Hs Ho Hd) as H. unfold wp in H.
    change (snd (drawRouteMarkers B w)) with w' in H.
    destruct H as (Hok & Hwf' & _ & Hom & Hdm & Hgo & Hgd & _ & Hgps & Hrt & _ & _
                   & Htf & Hif & _).
    split; [exact Hok|]. split.
    - eexists _, _. rewrite !(rendered_tracked w' Hwf'). cbn [tracked].
      rewrite Hom, Hdm. cbn [handle].
      do 4 (split; [reflexivity|]). cbn [uid].
      do 2 (split; [assumption|]). split; lia.
    - intros c Hc1 Hc2. rewrite (rendered_tracked w' Hwf'), (rendered_tracked w Hwf).
      destruct c; cbn [tracked]; congruence. }
  set (w_missing :=
         with_trace
           (Console "warn" [Str "[MAP_UTILS] Coordenadas ausentes. Aborting drawRouteMarkers."]
              :: trace w) w).
  set (w_waiting :=
         with_trace
           (OnceMapReady "drawRouteMarkers"
              :: Console "warn"
                   [Str "[MAP_UTILS] Fonte de vetor ainda não disponível. Aguardando mapReady..."]
              :: trace w) w).
  assert (Hskip : fst (drawRouteMarkers B w) = Ok tt
                  /\ (is_Some (vectorSource (mapd w)) ->
                      originCoords (route w) = None \/ destinationCoords (route w) = None ->
                      w' = w_missing)
                  /\ (vectorSource (mapd w) = None -> w' = w_waiting)
                  \/ exists o d, is_Some (vectorSource (mapd w))
                                 /\ originCoords (route w) = Some o
                                 /\ destinationCoords (route w) = Some d).
  { subst w' w_missing w_waiting. unfold exec. clear Hdone Hwf.
    destruct (vectorSource (mapd w)) as [fs|] eqn:Hs.
    - destruct (originCoords (route w)) as [o|] eqn:Ho;
        [destruct (destinationCoords (route w)) as [d|] eqn:Hd|].
      + right. exists o, d. repeat split. now eexists.
      + left.
        apply (wp_run (drawRouteMarkers B)
                 (fun r => fst r = Ok tt /\ (_ -> _ -> snd r = _) /\ (_ -> snd r = _))).
        open_world w. subst. unfold drawRouteMarkers. wp_go.
        split; [reflexivity|]. split; [reflexivity | discriminate].
      + left.
        apply (wp_run (drawRouteMarkers B)
                 (fun r => fst r = Ok tt /\ (_ -> _ -> snd r = _) /\ (_ -> snd r = _))).
        open_world w. subst. unfold drawRouteMarkers. wp_go.
        split; [reflexivity|]. split; [|discriminate]. intros _ _.
        destruct dc; reflexivity.
    - left.
      apply (wp_run (drawRouteMarkers B)
               (fun r => fst r = Ok tt /\ (_ -> _ -> snd r = _) /\ (_ -> snd r = _))).
      open_world w. subst. unfold drawRouteMarkers. wp_go.
      split; [reflexivity|]. split; [|reflexivity]. intros [? H]. discriminate H. }
  destruct Hskip as [(Hok & Hmiss & Hnone) | (o & d & Hs & Ho & Hd)].
  - split; [unfold raises; now rewrite Hok|].
    split.
    { intros o d Hs Ho Hd. destruct (Hdone o d Hs Ho Hd) as (_ & H & _). exact H. }
    split.
    { intros Hs c Hc1 Hc2.
      destruct (originCoords (route w)) as [o|] eqn:Ho;
        [destruct (destinationCoords (route w)) as [d|] eqn:Hd|].
      - destruct (Hdone o d Hs eq_refl eq_refl) as (_ & _ & H). now apply H.
      - rewrite (Hmiss Hs (or_intror eq_refl)). reflexivity.
      - rewrite (Hmiss Hs (or_introl eq_refl)). reflexivity. }
    split; assumption.
  - destruct (Hdone o d Hs Ho Hd) as (Hok & Hpins & Hrest).
    split; [unfold raises; now rewrite Hok|].
    split.
    { intros o' d' _ Ho' Hd'. rewrite Ho in Ho'. rewrite Hd in Hd'.
      injection Ho' as <-. injection Hd' as <-. exact Hpins. }
    split; [intros _; exact Hrest|].
    split.
    + intros _ [H|H]; congruence.
    + intros H. destruct Hs as [? Hs]. congruence.
Qed.

End Pins.

Lemma drawRouteMarkers_replaces_the_pins_witness :
  wf routed_world
  /\ length (rendered COrigin (exec (MapUtils.drawRouteMarkers (a_browser true)) routed_world))
     = 1.
Proof.
  assert (Hwf : wf routed_world) by exact (reachable_wf _ _ routed_world_reachable).
  split; [exact Hwf|].
  destruct (drawRouteMarkers_replaces_the_pins (a_browser true) routed_world Hwf)
    as (_ & H & _).
  destruct (H praca_da_se avenida_paulista ltac:(eexists; reflexivity) eq_refl eq_refl)
    as (fo & fd & -> & _).
  reflexivity.
Defined.

Section Overlay.

Import MapUtils.
Variable B : Browser.

Lemma wp_conj {A} (m : M A) (Q1 Q2 : outcome A -> World -> Prop) w :
  wp m Q1 w -> wp m Q2 w -> wp m (fun o w' => Q1 o w' /\ Q2 o w') w.
Proof. unfold wp. now split. Qed.

(** The first half of [drawRouteOnMap]: with a result, a map and a
    source, the previous overlay is taken off the map before anything
    else happens. *)
Lemma wp_drawRouteOnMap_cleared (w : World) (g : GeoJSON) (v : View)
    (Q : outcome (option Extract) -> World -> Prop) :
  wf w ->
  mapInstance (mapd w) = Some v ->
  is_Some (vectorSource (mapd w)) ->
  (forall W,
     drawn_from (ol_next_uid w) (Some v) 0 0 W ->
     rotatual (route W) = None ->
     ol_next_uid W = ol_next_uid w ->
     ol_geometry W = ol_geometry w ->
     trace W = trace w ->
     wp (try_catch
           (e <- drawRouteFeatures B g ;; ret (Some e))
           (fun _ =>
              emit (Console "error" [Str "[MAP_UTILS] Erro ao processar rota:"]) ;;
              ret (Some no_extract))) Q W) ->
  wp (drawRouteOnMap B (Some g)) Q w.
Proof.
  intros Hwf Hv [fs Hs] HQ. open_world w. subst mi vs.
  unfold wf in Hwf. cbn in Hwf.
  unfold drawRouteOnMap. wp_go.
  assert (H1 : exists fs1,
            src_inv fs1 nu
              (upd (tracked
                 {| gps := {| markerFeature := mk; accuracyFeature := ak;
                              following := fl; currentPos := cp;
                              currentAccuracy := ca; watchId := wi |};
                    route := {| rotatual := rt; originMarker := om;
                                destinationMarker := dm; originCoords := oc;
                                destinationCoords := dc |};
                    mapd := {| mapInstance := Some v; vectorSource := Some fs;
                               apiBaseUrl := url |};
                    hasInitialFix := hif; trafficFeatures := tf;
                    incidentFeatures := inf; ol_next_uid := nu; ol_geometry := og;
                    watches := ws; next_watch := nw; trace := tr |}) CRoute [])
            /\ forall Q',
                Q' (Ok tt)
                  {| gps := {| markerFeature := mk; accuracyFeature := ak;
                               following := fl; currentPos := cp;
                               currentAccuracy := ca; watchId := wi |};
                     route := {| rotatual := None; originMarker := om;
                                 destinationMarker := dm; originCoords := oc;
                                 destinationCoords := dc |};
                     mapd := {| mapInstance := Some v; vectorSource := Some fs1;
                                apiBaseUrl := url |};
                     hasInitialFix := hif; trafficFeatures := tf;
                     incidentFeatures := inf; ol_next_uid := nu; ol_geometry := og;
                     watches := ws; next_watch := nw; trace := tr |} ->
                wp match rt with
                   | Some r => removeFeature B r;; setRotatual None
                   | None => ret tt
                   end Q'
                  {| gps := {| markerFeature := mk; accuracyFeature := ak;
                               following := fl; currentPos := cp;
                               currentAccuracy := ca; watchId := wi |};
                     route := {| rotatual := rt; originMarker := om;
                                 destinationMarker := dm; originCoords := oc;
                                 destinationCoords := dc |};
                     mapd := {| mapInstance := Some v; vectorSource := Some fs;
                                apiBaseUrl := url |};
                     hasInitialFix := hif; trafficFeatures := tf;
                     incidentFeatures := inf; ol_next_uid := nu; ol_geometry := og;
                     watches := ws; next_watch := nw; trace := tr |}).
  { destruct rt as [r|].
    - exists (without r fs). split.
      + eapply (src_inv_del _ _ _ CRoute r []); [exact Hwf | reflexivity].
      + intros Q' HQ'. wp_step.
        lazymatch goal with |- wp _ _ ?W => change W with (set_source fs W) end.
        apply wp_removeFeature_ok.
        * eapply (src_inv_in_source _ _ _ CRoute); [exact Hwf | reflexivity].
        * state_simpl. wp_go. exact HQ'.
    - exists fs. split.
      + eapply src_inv_ext; [|exact Hwf]. intros []; reflexivity.
      + intros Q' HQ'. wp_go. exact HQ'. }
  destruct H1 as (fs1 & Hinv1 & Hrun). apply Hrun. clear Hrun.
  wp_go.
  lazymatch goal with |- wp _ _ ?W => change W with (set_source fs1 W) end.
  eapply (wp_forEach_remove _ _ CTraffic); [exact Hinv1 | reflexivity |].
  intros fs2 Hinv2. state_simpl. wp_go.
  lazymatch goal with |- wp _ _ ?W => change W with (set_source fs2 W) end.
  eapply (wp_forEach_remove _ _ CIncident); [exact Hinv2 | reflexivity |].
  intros fs3 Hinv3. state_simpl. apply wp_bind, wp_modify. state_simpl.
  apply HQ; try reflexivity.
  eapply drawn_from_intro; state_simpl; try reflexivity.
  - eapply src_inv_ext; [|exact Hinv3]. intros []; reflexivity.
  - intros f Hf. inversion Hf.
  - intros f Hf. inversion Hf.
  - intros f Hf. inversion Hf.
Qed.

(** What the overlay of a world drawn from scratch is made of. *)
Lemma drawn_from_rendered n0 vw nt ni w :
  drawn_from n0 vw nt ni w ->
  rendered CRoute w = handle (rotatual (route w))
  /\ length (rendered CTraffic w) = nt
  /\ length (rendered CIncident w) = ni.
Proof.
  intros (Hwf & _ & _ & _ & _ & Ht & Hi).
  rewrite !(rendered_tracked w Hwf). cbn [tracked]. auto.
Qed.

(** X10.  On the rendered page, in a state in which handles and map
    agree: a result without features, or whose route line has a
    geometry of no GeoJSON type, takes the previous overlay off the map
    and puts nothing in its place, not even the traffic segments and
    incidents it has; the call raises nothing, logs the error and
    returns the empty summary. *)
Theorem drawRouteOnMap_draws_nothing_of_an_unreadable_result (w : World) (g : GeoJSON) :
  wf w ->
  ready w ->
  default [] (features g) = []
  \/ (exists mainRoute rest gg,
        filter is_route_feature (default [] (features g)) = mainRoute :: rest
        /\ geometry mainRoute = Some gg
        /\ supported_geometry (gtype gg) = false) ->
  let w' := exec (drawRouteOnMap B (Some g)) w in
  fst (drawRouteOnMap B (Some g) w) = Ok (Some no_extract)
  /\ (forall c, overlay_class c = true -> rendered c w' = [])
  /\ (exists m, emitted w w' = [Console "error" m]).
Proof.
  intros Hwf [[v Hv] Hs] Hbad w'. subst w'. unfold exec.
  apply (wp_run (drawRouteOnMap B (Some g))
           (fun r => fst r = Ok (Some no_extract)
                     /\ (forall c, overlay_class c = true -> rendered c (snd r) = [])
                     /\ exists m, emitted w (snd r) = [Console "error" m])).
  apply (wp_drawRouteOnMap_cleared w g v); try assumption.
  intros W Hd Hrt _ _ Htr.
  assert (Hnone : forall t c, overlay_class c = true -> rendered c (with_trace t W) = []).
  { intros t c Hc. destruct (drawn_from_rendered _ _ _ _ _ Hd) as (H1 & H2 & H3).
    change (rendered c (with_trace t W)) with (rendered c W).
    destruct c; try discriminate.
    - rewrite H1, Hrt. reflexivity.
    - now apply nil_length_inv.
    - now apply nil_length_inv. }
  pose proof Hd as Hd0.
  apply drawn_from_elim in Hd0 as (fs & HsW & _).
  unfold drawRouteFeatures. wp_step.
  destruct Hbad as [Hempty | (mainRoute & rest & gg & Hmain & Hgeo & Hun)].
  - rewrite Hempty. cbn [length Nat.eqb]. wp_go. cbn [fst snd].
    split; [reflexivity|]. split; [apply Hnone|].
    eexists. apply (emitted_app _ _ [_]). cbn [trace with_trace]. now rewrite Htr.
  - destruct (Nat.eqb_spec (length (default [] (features g))) 0) as [Hlen|Hlen].
    { apply nil_length_inv in Hlen. rewrite Hlen in Hmain. discriminate. }
    rewrite Hmain. unfold readFeatures. rewrite Hgeo, Hun.
    wp_go. cbn [fst snd].
    split; [reflexivity|]. split; [apply Hnone|].
    eexists. apply (emitted_app _ _ [_]). cbn [trace with_trace]. now rewrite Htr.
Qed.

End Overlay.

Lemma drawRouteOnMap_draws_nothing_of_an_unreadable_result_witness :
  wf routed_world
  /\ ready routed_world
  /\ length (rendered CTraffic routed_world) = 2
  /\ rendered CTraffic
       (exec (MapUtils.drawRouteOnMap (a_browser true) (Some {| features := Some [] |}))
          routed_world) = [].
Proof.
  assert (Hwf : wf routed_world) by exact (reachable_wf _ _ routed_world_reachable).
  assert (Hr : ready routed_world) by (split; eexists; reflexivity).
  split; [exact Hwf|]. split; [exact Hr|]. split; [reflexivity|].
  destruct (drawRouteOnMap_draws_nothing_of_an_unreadable_result (a_browser true)
              routed_world {| features := Some [] |} Hwf Hr (or_introl eq_refl))
    as (_ & H & _).
  exact (H CTraffic eq_refl).
Defined.

Section RouteLine.

Import MapUtils.
Variable B : Browser.

Lemma newFeature_has_geometry k G kd g :
  preserves (has_geometry k G) (newFeature kd g).
Proof.
  intros w [H1 H2]. unfold exec, newFeature, has_geometry. cbn.
  split; [|lia]. rewrite lookup_insert_ne by lia. exact H1.
Qed.

Lemma newBareFeature_has_geometry k G kd :
  preserves (has_geometry k G) (newBareFeature kd).
Proof.
  intros w [H1 H2]. unfold exec, newBareFeature, has_geometry. cbn.
  split; [exact H1 | lia].
Qed.

Lemma emit_has_emitted t0 e e' : preserves (has_emitted t0 e) (emit e').
Proof.
  intros w (l & H1 & H2). exists (e' :: l). cbn. rewrite H1.
  split; [reflexivity | now apply list_elem_of_further].
Qed.

#[local] Hint Resolve newFeature_has_geometry newBareFeature_has_geometry emit_has_emitted : pres.

Lemma segments_keep k G t0 e r segs :
  preserves (line_drawn k G t0 e r)
    (if Nat.ltb 0 (length segs) then drawTrafficSegments B segs else ret tt).
Proof.
  assert (H1 : preserves (has_geometry k G)
                 (if Nat.ltb 0 (length segs) then drawTrafficSegments B segs else ret tt)).
  { unfold drawTrafficSegments, drawTrafficSegment, member_coordinates, index. pres. }
  assert (H2 : preserves (has_emitted t0 e)
                 (if Nat.ltb 0 (length segs) then drawTrafficSegments B segs else ret tt)).
  { unfold drawTrafficSegments, drawTrafficSegment, member_coordinates, index. pres. }
  assert (H3 : preserves (fun w => rotatual (route w) = r)
                 (if Nat.ltb 0 (length segs) then drawTrafficSegments B segs else ret tt)).
  { unfold drawTrafficSegments, drawTrafficSegment, member_coordinates, index. pres. }
  intros w (Ha & Hb & Hc). split; [now apply H1|]. split; [now apply H2 | now apply H3].
Qed.

Lemma incidents_keep k G t0 e r incs :
  preserves (line_drawn k G t0 e r)
    (if Nat.ltb 0 (length incs) then drawTrafficIncidents B incs else ret tt).
Proof.
  assert (H1 : preserves (has_geometry k G)
                 (if Nat.ltb 0 (length incs) then drawTrafficIncidents B incs else ret tt)).
  { unfold drawTrafficIncidents, drawTrafficIncident, member_coordinates, fromLonLat_json.
    pres. }
  assert (H2 : preserves (has_emitted t0 e)
                 (if Nat.ltb 0 (length incs) then drawTrafficIncidents B incs else ret tt)).
  { unfold drawTrafficIncidents, drawTrafficIncident, member_coordinates, fromLonLat_json.
    pres. }
  assert (H3 : preserves (fun w => rotatual (route w) = r)
                 (if Nat.ltb 0 (length incs) then drawTrafficIncidents B incs else ret tt)).
  { unfold drawTrafficIncidents, drawTrafficIncident, member_coordinates, fromLonLat_json.
    pres. }
  intros w (Ha & Hb & Hc). split; [now apply H1|]. split; [now apply H2 | now apply H3].
Qed.

(** X11.  On the rendered page, in a state in which handles and map
    agree: when the first route feature of a result has a geometry of a
    GeoJSON type that the library reads and whose extent is not empty,
    [drawRouteOnMap] puts exactly one route line on the map, a new
    feature object with that geometry, fits the view to it, returns the
    summary read off that feature and draws every traffic segment and
    incident that can be drawn.  The line is given the visible style
    only if the result has no traffic segment at all; if it has any,
    drawable or not, the line is transparent. *)
Theorem drawRouteOnMap_draws_the_first_route_line (w : World) (g : GeoJSON)
    (mainRoute : GFeature) (rest : list GFeature) (gg : GGeometry) :
  wf w ->
  ready w ->
  filter is_route_feature (default [] (features g)) = mainRoute :: rest ->
  geometry mainRoute = Some gg ->
  line_geometry_readable B gg = true ->
  let w' := exec (drawRouteOnMap B (Some g)) w in
  let line :=
    {| uid := ol_next_uid w;
       kind := RouteLine (Nat.eqb (length (traffic_segments_of g)) 0) |} in
  fst (drawRouteOnMap B (Some g) w) = Ok (Some (extract_summary mainRoute))
  /\ rendered CRoute w' = [line]
  /\ ol_geometry w' !! uid line = Some (FromGeoJSON gg)
  /\ ViewFit line ∈ emitted w w'
  /\ length (rendered CTraffic w')
     = length (filter segment_drawable (traffic_segments_of g))
  /\ length (rendered CIncident w')
     = length (filter incident_drawable (incidents_of g)).
Proof.
  intros Hwf [[v Hv] Hs] Hmain Hgeo Hline w' line. subst w'. unfold exec.
  unfold line_geometry_readable in Hline.
  apply andb_true_iff in Hline as [Hline Hext].
  apply andb_true_iff in Hline as [Hsup Hreads].
  apply negb_true_iff in Hext.
  apply (wp_run (drawRouteOnMap B (Some g))
           (fun r => fst r = Ok (Some (extract_summary mainRoute))
                     /\ rendered CRoute (snd r) = [line]
                     /\ ol_geometry (snd r) !! uid line = Some (FromGeoJSON gg)
                     /\ ViewFit line ∈ emitted w (snd r)
                     /\ length (rendered CTraffic (snd r)) = _
                     /\ length (rendered CIncident (snd r)) = _)).
  apply (wp_drawRouteOnMap_cleared B w g v); try assumption.
  intros W Hd Hrt Hnu Hog Htr.
  apply drawn_from_elim in Hd as (fs & HsW & Hinv & Hm & Hn & Hr & Ht & Hi & Hlt & Hli).
  apply nil_length_inv in Hlt, Hli.
  subst line. rewrite <- Hnu. clear Hog Hwf Hs Hv.
  open_world W. subst vs rt tf inf mi.
  unfold drawRouteFeatures, traffic_segments_of, incidents_of.
  destruct (Nat.eqb_spec (length (default [] (features g))) 0) as [Hlen|Hlen].
  { apply nil_length_inv in Hlen. rewrite Hlen in Hmain. discriminate. }
  rewrite Hmain. unfold readFeatures. rewrite Hgeo, Hsup, Hreads. unfold fitTo.
  set (vis := Nat.eqb (length (filter is_traffic_segment (default [] (features g)))) 0).
  wp_step. wp_step. wp_step. wp_step. wp_go. rewrite lookup_insert_eq.
  cbn [extent_is_empty]. rewrite Hext. wp_go.
  match goal with
  | |- wp _ _ ?W1 =>
      assert (Hd1 : drawn_from nu (Some v) 0 0 W1);
      [|assert (Hk1 : line_drawn nu (FromGeoJSON gg) tr
                        (ViewFit {| uid := nu; kind := RouteLine vis |})
                        (Some {| uid := nu; kind := RouteLine vis |}) W1)]
  end.
  { eapply drawn_from_intro; state_simpl; try reflexivity; try assumption.
    - eapply src_inv_ext;
        [|exact (src_inv_add fs nu _ {| uid := nu; kind := RouteLine vis |} CRoute
                   Hinv (le_n _) eq_refl)].
      intros []; reflexivity.
    - lia.
    - intros f Hf. apply list_elem_of_singleton in Hf. subst f. cbn. lia.
    - intros f Hf. inversion Hf.
    - intros f Hf. inversion Hf. }
  { split; [|split]; state_simpl.
    - split; [apply lookup_insert_eq | cbn; lia].
    - exists [ViewFit {| uid := nu; kind := RouteLine vis |}]. cbn.
      split; [reflexivity | apply list_elem_of_here].
    - reflexivity. }
  eapply wp_mono;
    [apply wp_conj;
     [apply (draw_segments_phase B _ nu (Some v)); exact Hd1
     |apply wp_preserves; [apply segments_keep | exact Hk1]]|].
  intros o2 w2 [(-> & Hd2 & _) Hk2].
  wp_step.
  eapply wp_mono;
    [apply wp_conj;
     [apply (draw_incidents_phase B _ nu (Some v)); exact Hd2
     |apply wp_preserves; [apply incidents_keep | exact Hk2]]|].
  intros o3 w3 [(-> & Hd3) ((Hg3 & _) & (l & Htr3 & Hl) & Hrt3)].
  wp_go. cbn [fst snd].
  destruct (drawn_from_rendered _ _ _ _ _ Hd3) as (Hr3 & Ht3 & Hi3).
  split; [reflexivity|].
  split; [rewrite Hr3, Hrt3; reflexivity|].
  split; [exact Hg3|].
  split; [|split; assumption].
  rewrite (emitted_app w w3 l); [assumption|]. rewrite Htr3, Htr. reflexivity.
Qed.

(** X29.  On the rendered page, in a state in which handles and map
    agree: when the library cannot read the geometry of the first route
    feature, or finds the extent of what it has read empty, the drawing
    stops there.  The call raises nothing, logs one error and returns
    the empty summary; the view is not fitted, and no traffic segment
    and no incident of the result is drawn, however many of them could
    be.  If the geometry could not be read no route line is on the map
    either; if it was read, the line stays on the map and in its
    handle. *)
Theorem drawRouteOnMap_stops_at_a_line_it_cannot_fit (w : World) (g : GeoJSON)
    (mainRoute : GFeature) (rest : list GFeature) (gg : GGeometry) :
  wf w ->
  ready w ->
  filter is_route_feature (default [] (features g)) = mainRoute :: rest ->
  geometry mainRoute = Some gg ->
  supported_geometry (gtype gg) = true ->
  reads_geometry B gg = false \/ empty_extent B gg = true ->
  let w' := exec (drawRouteOnMap B (Some g)) w in
  let line :=
    {| uid := ol_next_uid w;
       kind := RouteLine (Nat.eqb (length (traffic_segments_of g)) 0) |} in
  fst (drawRouteOnMap B (Some g) w) = Ok (Some no_extract)
  /\ rendered CTraffic w' = []
  /\ rendered CIncident w' = []
  /\ (exists m, emitted w w' = [Console "error" m])
  /\ (reads_geometry B gg = false -> rendered CRoute w' = [])
  /\ (reads_geometry B gg = true ->
      rendered CRoute w' = [line]
      /\ ol_geometry w' !! uid line = Some (FromGeoJSON gg)).
Proof.
  intros Hwf [[v Hv] Hs] Hmain Hgeo Hsup Hbad w' line. subst w'. unfold exec.
  apply (wp_run (drawRouteOnMap B (Some g))
           (fun r => fst r = Ok (Some no_extract)
                     /\ rendered CTraffic (snd r) = []
                     /\ rendered CIncident (snd r) = []
                     /\ (exists m, emitted w (snd r) = [Console "error" m])
                     /\ (reads_geometry B gg = false -> rendered CRoute (snd r) = [])
                     /\ (reads_geometry B gg = true ->
                         rendered CRoute (snd r) = [line]
                         /\ ol_geometry (snd r) !! uid line = Some (FromGeoJSON gg)))).
  apply (wp_drawRouteOnMap_cleared B w g v); try assumption.
  intros W Hd Hrt Hnu Hog Htr.
  pose proof Hd as Hd0.
  apply drawn_from_elim in Hd as (fs & HsW & Hinv & Hm & Hn & Hr & Ht & Hi & Hlt & Hli).
  apply nil_length_inv in Hlt, Hli.
  subst line. rewrite <- Hnu. clear Hog Hwf Hs Hv.
  unfold drawRouteFeatures, traffic_segments_of.
  destruct (Nat.eqb_spec (length (default [] (features g))) 0) as [Hlen|Hlen].
  { apply nil_length_inv in Hlen. rewrite Hlen in Hmain. discriminate. }
  rewrite Hmain. unfold readFeatures. rewrite Hgeo, Hsup.
  set (vis := Nat.eqb (length (filter is_traffic_segment (default [] (features g)))) 0).
  destruct (reads_geometry B gg) eqn:Hreads.
  - destruct Hbad as [Hbad|Hext]; [discriminate|].
    open_world W. subst vs rt tf inf mi.
    unfold fitTo. wp_step. wp_step. wp_step. wp_step. wp_step. wp_go.
    rewrite lookup_insert_eq. cbn [extent_is_empty]. rewrite Hext. wp_go.
    cbn [fst snd].
    match goal with
    | |- _ /\ rendered CTraffic ?W1 = [] /\ _ =>
        assert (Hd1 : drawn_from nu (Some v) 0 0 W1)
    end.
    { apply drawn_from_trace.
      eapply drawn_from_intro; state_simpl; try reflexivity; try assumption.
      - eapply src_inv_ext;
          [|exact (src_inv_add fs nu _ {| uid := nu; kind := RouteLine vis |} CRoute
                     Hinv (le_n _) eq_refl)].
        intros []; reflexivity.
      - lia.
      - intros f Hf. apply list_elem_of_singleton in Hf. subst f. cbn. lia.
      - intros f Hf. inversion Hf.
      - intros f Hf. inversion Hf. }
    destruct (drawn_from_rendered _ _ _ _ _ Hd1) as (Hr1 & Ht1 & Hi1).
    apply nil_length_inv in Ht1, Hi1.
    split; [reflexivity|]. split; [exact Ht1|]. split; [exact Hi1|].
    split; [eexists; apply (emitted_app _ _ [_]); cbn [trace with_trace]; now rewrite Htr|].
    split; [discriminate|]. intros _.
    split; [rewrite Hr1; reflexivity | apply lookup_insert_eq].
  - wp_go. cbn [fst snd].
    destruct (drawn_from_rendered _ _ _ _ _ Hd0) as (Hr1 & Ht1 & Hi1).
    apply nil_length_inv in Ht1, Hi1.
    change (rendered CTraffic (with_trace ?t W)) with (rendered CTraffic W).
    split; [reflexivity|]. split; [exact Ht1|]. split; [exact Hi1|].
    split; [eexists; apply (emitted_app _ _ [_]); cbn [trace with_trace]; now rewrite Htr|].
    split; [|discriminate]. intros _.
    change (rendered CRoute (with_trace ?t W)) with (rendered CRoute W).
    rewrite Hr1, Hrt. reflexivity.
Qed.

(** X12.  Whatever it is given, and whether map and source are there
    or not, [drawRouteOnMap] leaves alone everything the route overlay
    is not made of: the stored position and the position marker, the
    origin and destination pins and the stored end points, the watch.
    In a state in which handles and map agree it raises nothing, and
    the position marker, the accuracy circle and both pins are on the
    map afterwards exactly as before. *)
Theorem drawRouteOnMap_touches_only_the_overlay (w : World) (g : option GeoJSON) :
  wf w ->
  let w' := exec (drawRouteOnMap B g) w in
  raises (drawRouteOnMap B g) w = false
  /\ beside_the_overlay w' = beside_the_overlay w
  /\ (forall c, overlay_class c = false -> rendered c w' = rendered c w).
Proof.
  intros Hwf w'.
  assert (Hframe : beside_the_overlay w' = beside_the_overlay w).
  { assert (H : preserves (fun w0 => beside_the_overlay w0 = beside_the_overlay w)
                  (drawRouteOnMap B g)).
    { unfold drawRouteOnMap, drawRouteFeatures, drawTrafficSegments, drawTrafficIncidents,
        drawTrafficSegment, drawTrafficIncident, readFeatures, fitTo,
        member_coordinates, index, fromLonLat_json.
      pres. }
    exact (H w eq_refl). }
  pose proof (drawRouteOnMap_wf B g w Hwf) as Hwf'. fold w' in Hwf'.
  split; [|split; [exact Hframe|]].
  - unfold raises.
    destruct g as [g|];
      [destruct (mapInstance (mapd w)) as [v|] eqn:Hv;
       [destruct (vectorSource (mapd w)) as [fs|] eqn:Hs|]|].
    + destruct (drawRouteOnMap_spec B w g Hwf) as ([e He] & _).
      { split; [rewrite Hv | rewrite Hs]; now eexists. }
      now rewrite He.
    + apply (wp_run (drawRouteOnMap B (Some g))
               (fun r => match fst r with Ok _ => false | Throw _ => true end = false)).
      open_world w. subst. unfold drawRouteOnMap. wp_go. reflexivity.
    + apply (wp_run (drawRouteOnMap B (Some g))
               (fun r => match fst r with Ok _ => false | Throw _ => true end = false)).
      open_world w. subst. unfold drawRouteOnMap. wp_go. reflexivity.
    + apply (wp_run (drawRouteOnMap B None)
               (fun r => match fst r with Ok _ => false | Throw _ => true end = false)).
      open_world w. unfold drawRouteOnMap. wp_go. reflexivity.
  - intros c Hc. rewrite (rendered_tracked w' Hwf'), (rendered_tracked w Hwf).
    unfold beside_the_overlay in Hframe. injection Hframe as Hg Hom Hdm _ _ _ _ _ _.
    destruct c; try discriminate; cbn [tracked]; congruence.
Qed.

(** X13.  Without a result, or while the map instance or the vector
    source is missing, [drawRouteOnMap] logs an error and returns
    [undefined]; it changes nothing, so a route that was on the map
    stays there. *)
Theorem drawRouteOnMap_without_map_or_result (w : World) (g : option GeoJSON) :
  g = None \/ mapInstance (mapd w) = None \/ vectorSource (mapd w) = None ->
  drawRouteOnMap B g w
  = (Ok None,
     with_trace
       (Console "error" [Str "[MAP_UTILS] Dependências ausentes para desenhar a rota."]
          :: trace w) w).
Proof.
  intros H.
  apply (wp_run (drawRouteOnMap B g) (fun r => r = _)).
  open_world w. unfold drawRouteOnMap. wp_go.
  destruct g as [g|]; [|wp_go; reflexivity].
  destruct mi as [v|], vs as [fs|]; state_simpl; wp_go; try reflexivity.
  destruct H as [H|[H|H]]; discriminate.
Qed.

End RouteLine.

Lemma drawRouteOnMap_draws_the_first_route_line_witness :
  wf rendered_world
  /\ ready rendered_world
  /\ rendered CRoute
       (exec (MapUtils.drawRouteOnMap (a_browser true) (Some result_with_unlocated_segment))
          rendered_world)
     = [{| uid := 0; kind := RouteLine false |}].
Proof.
  assert (Hwf : wf rendered_world)
    by exact (reachable_wf _ _ (rendered_world_reachable true)).
  assert (Hr : ready rendered_world) by (split; eexists; reflexivity).
  split; [exact Hwf|]. split; [exact Hr|].
  exact (proj1 (proj2 (drawRouteOnMap_draws_the_first_route_line (a_browser true)
                         rendered_world result_with_unlocated_segment
                         route_basic_feature [] line_string Hwf Hr
                         eq_refl eq_refl eq_refl))).
Defined.

Lemma drawRouteOnMap_stops_at_a_line_it_cannot_fit_witness :
  wf rendered_world
  /\ ready rendered_world
  /\ length (filter MapUtils.segment_drawable
               (MapUtils.traffic_segments_of result_with_empty_line)) = 1
  /\ rendered CTraffic
       (exec (MapUtils.drawRouteOnMap (a_browser true) (Some result_with_empty_line))
          rendered_world) = [].
Proof.
  assert (Hwf : wf rendered_world)
    by exact (reachable_wf _ _ (rendered_world_reachable true)).
  assert (Hr : ready rendered_world) by (split; eexists; reflexivity).
  split; [exact Hwf|]. split; [exact Hr|]. split; [reflexivity|].
  exact (proj1 (proj2 (drawRouteOnMap_stops_at_a_line_it_cannot_fit (a_browser true)
                         rendered_world result_with_empty_line
                         {| properties := Some (typed "route_basic");
                            geometry := Some empty_line |}
                         [] empty_line Hwf Hr eq_refl eq_refl eq_refl
                         (or_intror eq_refl)))).
Defined.

Lemma drawRouteOnMap_touches_only_the_overlay_witness :
  wf routed_world
  /\ rendered COrigin
       (exec (MapUtils.drawRouteOnMap (a_browser true) (Some result_with_unlocated_segment))
          routed_world)
     = rendered COrigin routed_world.
Proof.
  assert (Hwf : wf routed_world) by exact (reachable_wf _ _ routed_world_reachable).
  split; [exact Hwf|].
  destruct (drawRouteOnMap_touches_only_the_overlay (a_browser true) routed_world
              (Some result_with_unlocated_segment) Hwf) as (_ & _ & H).
  exact (H COrigin eq_refl).
Defined.

Lemma drawRouteOnMap_without_map_or_result_witness :
  length (rendered CTraffic
            (exec (MapUtils.drawRouteOnMap (a_browser true) None) routed_world)) = 2.
Proof.
  unfold exec.
  rewrite (drawRouteOnMap_without_map_or_result (a_browser true) routed_world None
             (or_introl eq_refl)).
  reflexivity.
Defined.

(* ----------------------------------------------------------------- *)
(** ** Route requests *)

Section RouteRequests.

Import MapUtils RouteLogic.
Variable B : Browser.
Variable dom : Constraints.

(** From the map being ready to the [fetch]: the pins are drawn at the
    stored end points and the request is posted. *)
Lemma afterMapReady_spec (w : World) (via : bool) (o d so sd : LonLat) (base : string) :
  wf w ->
  is_Some (vectorSource (mapd w)) ->
  originCoords (route w) = Some so ->
  destinationCoords (route w) = Some sd ->
  apiBaseUrl (mapd w) = Some base ->
  base <> ""%string ->
  wp (afterMapReady B dom via o d)
     (fun out w' =>
        out = Ok (Some (AwaitRoute (request_with dom o d)))
        /\ wf w'
        /\ is_Some (vectorSource (mapd w'))
        /\ originMarker (route w') = Some {| uid := ol_next_uid w; kind := OriginPin |}
        /\ destinationMarker (route w')
           = Some {| uid := S (ol_next_uid w); kind := DestinationPin |}
        /\ ol_geometry w' !! ol_next_uid w = Some (Point (fromLonLat B (lon so, lat so)))
        /\ ol_geometry w' !! S (ol_next_uid w)
           = Some (Point (fromLonLat B (lon sd, lat sd)))
        /\ gps w' = gps w
        /\ rotatual (route w') = rotatual (route w)
        /\ originCoords (route w') = Some so
        /\ destinationCoords (route w') = Some sd
        /\ trafficFeatures w' = trafficFeatures w
        /\ incidentFeatures w' = incidentFeatures w
        /\ watches w' = watches w
        /\ trace w' = Fetch (request_with dom o d) :: optimizing dom via ++ trace w) w.
Proof.
  intros Hwf Hs Ho Hd Hu Hne.
  assert (Hreq : {| req_origin := {| lon := lon o; lat := lat o |};
                    req_destination := {| lon := lon d; lat := lat d |};
                    req_constraints := if hasConstraints dom then Some dom else None |}
                 = request_with dom o d).
  { destruct o, d. reflexivity. }
  assert (Htruthy : str_truthy (Some base) = true).
  { cbn. destruct (String.eqb_spec base ""); [contradiction | reflexivity]. }
  unfold afterMapReady. wp_step.
  assert (Hpins :
    wp (drawRouteMarkers B ;; ret true)
       (fun out w' =>
          out = Ok true
          /\ wf w'
          /\ is_Some (vectorSource (mapd w'))
          /\ originMarker (route w') = Some {| uid := ol_next_uid w; kind := OriginPin |}
          /\ destinationMarker (route w')
             = Some {| uid := S (ol_next_uid w); kind := DestinationPin |}
          /\ ol_geometry w' !! ol_next_uid w = Some (Point (fromLonLat B (lon so, lat so)))
          /\ ol_geometry w' !! S (ol_next_uid w)
             = Some (Point (fromLonLat B (lon sd, lat sd)))
          /\ gps w' = gps w
          /\ rotatual (route w') = rotatual (route w)
          /\ originCoords (route w') = Some so
          /\ destinationCoords (route w') = Some sd
          /\ trafficFeatures w' = trafficFeatures w
          /\ incidentFeatures w' = incidentFeatures w
          /\ watches w' = watches w
          /\ apiBaseUrl (mapd w') = Some base
          /\ trace w' = trace w) w).
  { wp_step. eapply wp_mono; [apply (drawRouteMarkers_spec B w so sd); assumption|].
    intros out w1 (-> & H2 & H3 & H4 & H5 & H6 & H7 & _ & H9 & H10 & H11 & H12 & H13
                   & H14 & _ & H16 & _ & H18 & H19).
    wp_go. rewrite H16, Hu. repeat (split; [assumption || reflexivity|]). assumption. }
  eapply wp_mono.
  { destruct via; [|exact Hpins].
    open_world w. subst oc dc. wp_step. wp_step. state_simpl. wp_step. wp_step.
    state_simpl. exact Hpins. }
  intros out w1 (-> & H2 & H3 & H4 & H5 & H6 & H7 & H8 & H9 & H10 & H11 & H12 & H13
                 & H14 & H15 & H16).
  cbn iota. clear Hpins.
  open_world w1. subst.
  unfold fetchRouteData, optimizing.
  destruct (hasConstraints dom) eqn:Hc; wp_go; rewrite Htruthy; cbn [negb]; wp_go.
  all: rewrite Hreq.
  all: repeat (split; [assumption || reflexivity|]); reflexivity.
Qed.

(** What the pins are once [afterMapReady] has run. *)
Lemma pins_rendered (w' : World) (n : nat) (so sd : LonLat) :
  wf w' ->
  originMarker (route w') = Some {| uid := n; kind := OriginPin |} ->
  destinationMarker (route w') = Some {| uid := S n; kind := DestinationPin |} ->
  ol_geometry w' !! n = Some (Point (fromLonLat B (lon so, lat so))) ->
  ol_geometry w' !! S n = Some (Point (fromLonLat B (lon sd, lat sd))) ->
  exists fo fd,
    rendered COrigin w' = [fo]
    /\ rendered CDestination w' = [fd]
    /\ ol_geometry w' !! uid fo = Some (Point (fromLonLat B (lon so, lat so)))
    /\ ol_geometry w' !! uid fd = Some (Point (fromLonLat B (lon sd, lat sd))).
Proof.
  intros Hwf Ho Hd Hgo Hgd. eexists _, _.
  rewrite !(rendered_tracked w' Hwf). cbn [tracked]. rewrite Ho, Hd. cbn [handle].
  do 2 (split; [reflexivity|]). cbn [uid]. now split.
Qed.

(** X14.  On a page whose vector source is there and whose API base
    URL is set, in a state in which handles and map agree, a route
    request by coordinates first takes the previous route off the map,
    then stores the two end points, draws one pin at each, and posts
    one request that carries those two points, with the constraints
    chosen on the page if there are any and without otherwise.  It
    raises nothing and leaves the tracking state alone. *)
Theorem coordinate_route_request_starts_clean (w : World) (o d : LonLat)
    (base : string) :
  wf w ->
  is_Some (vectorSource (mapd w)) ->
  apiBaseUrl (mapd w) = Some base ->
  base <> ""%string ->
  let r := calculateAndDrawRoute B dom o d w in
  let w' := snd r in
  fst r = Ok (Some (AwaitRoute (request_with dom o d)))
  /\ emitted w w'
     = Fetch (request_with dom o d)
         :: optimizing dom false
         ++ [ShowMessage [Str "Calculando rota por coordenadas..."] "info"]
  /\ (forall c, overlay_class c = true -> rendered c w' = [])
  /\ (exists fo fd,
        rendered COrigin w' = [fo]
        /\ rendered CDestination w' = [fd]
        /\ ol_geometry w' !! uid fo = Some (Point (fromLonLat B (lon o, lat o)))
        /\ ol_geometry w' !! uid fd = Some (Point (fromLonLat B (lon d, lat d))))
  /\ originCoords (route w') = Some o
  /\ destinationCoords (route w') = Some d
  /\ rendered CMarker w' = rendered CMarker w
  /\ rendered CAccuracy w' = rendered CAccuracy w
  /\ gps w' = gps w
  /\ watches w' = watches w.
Proof.
  intros Hwf Hs Hu Hne r w'. subst w' r.
  apply (wp_run (calculateAndDrawRoute B dom o d)
           (fun r => fst r = Ok (Some (AwaitRoute (request_with dom o d)))
                     /\ emitted w (snd r) = _
                     /\ (forall c, overlay_class c = true -> rendered c (snd r) = [])
                     /\ (exists fo fd,
                           rendered COrigin (snd r) = [fo]
                           /\ rendered CDestination (snd r) = [fd]
                           /\ ol_geometry (snd r) !! uid fo = _
                           /\ ol_geometry (snd r) !! uid fd = _)
                     /\ originCoords (route (snd r)) = Some o
                     /\ destinationCoords (route (snd r)) = Some d
                     /\ rendered CMarker (snd r) = rendered CMarker w
                     /\ rendered CAccuracy (snd r) = rendered CAccuracy w
                     /\ gps (snd r) = gps w
                     /\ watches (snd r) = watches w)).
  unfold calculateAndDrawRoute. wp_step.
  eapply wp_mono; [apply (clearRoute_spec B w Hwf)|].
  intros out w1 (-> & Hwf1 & Hgps1 & Htr1 & _ & Hu1 & _ & Hws1 & _ & Hcase).
  destruct Hs as [fs Hs]. rewrite Hs in Hcase.
  destruct Hcase as (Hr1 & Htf1 & Hif1 & [fs1 Hs1]).
  rewrite Hu in Hu1.
  pose proof (rendered_tracked w Hwf) as Hrw.
  rewrite !Hrw. cbn [tracked]. rewrite <- Hgps1, <- Hws1.
  clear Hrw Hgps1 Hws1 Hs Hu Hwf fs.
  open_world w1. unfold empty_route in Hr1. injection Hr1 as -> -> -> -> ->. subst.
  wp_go. unfold waitForMapReady. wp_go.
  eapply wp_mono.
  { eapply (afterMapReady_spec _ false o d o d base); try reflexivity; try assumption.
    now eexists. }
  cbn [ol_next_uid route gps trace rotatual trafficFeatures incidentFeatures watches].
  intros out w2 (-> & Hwf2 & _ & Hom & Hdm & Hgo & Hgd & Hgps & Hrt & Hoc & Hdc & Htf
                 & Hif & Hws & Htr).
  cbn [fst snd].
  split; [reflexivity|].
  split.
  { apply emitted_app. rewrite Htr. cbn [trace app].
    now rewrite <- app_assoc. }
  split.
  { intros c Hc. rewrite (rendered_tracked w2 Hwf2).
    destruct c; try discriminate; cbn [tracked]; [now rewrite Hrt | assumption..]. }
  split; [eapply pins_rendered; eassumption|].
  do 2 (split; [assumption|]).
  rewrite !(rendered_tracked w2 Hwf2). cbn [tracked]. rewrite Hgps.
  repeat split; assumption || reflexivity.
Qed.

(** X15.  While the vector source is missing, a route request by
    coordinates only stores the two end points and shows the progress
    message: it draws nothing, posts nothing, and is suspended until
    the [mapReady] event.  Once the map has rendered and the event has
    come, it goes on: it draws the two pins and posts the request for
    the end points it was called with. *)
Theorem coordinate_route_request_waits_for_the_map (w : World) (o d : LonLat)
    (view : View) (base : string) :
  wf w ->
  vectorSource (mapd w) = None ->
  base <> ""%string ->
  let r := calculateAndDrawRoute B dom o d w in
  let w1 := exec (mapRendered view base) (snd r) in
  let r2 := resume B dom (AwaitMapReady false o d) MapReady w1 in
  r = (Ok (Some (AwaitMapReady false o d)),
       with_trace
         (ShowMessage [Str "Calculando rota por coordenadas..."] "info" :: trace w)
         (exec (setDestinationCoords (Some d)) (exec (setOriginCoords (Some o)) w)))
  /\ (forall e, e ∈ emitted w (snd r) -> is_network_call e = false)
  /\ fst r2 = Ok (Some (AwaitRoute (request_with dom o d)))
  /\ emitted w1 (snd r2) = Fetch (request_with dom o d) :: optimizing dom false
  /\ (exists fo fd,
        rendered COrigin (snd r2) = [fo]
        /\ rendered CDestination (snd r2) = [fd]
        /\ ol_geometry (snd r2) !! uid fo = Some (Point (fromLonLat B (lon o, lat o)))
        /\ ol_geometry (snd r2) !! uid fd = Some (Point (fromLonLat B (lon d, lat d)))).
Proof.
  intros Hwf Hs Hne r w1 r2.
  assert (Hr : r = (Ok (Some (AwaitMapReady false o d)),
                    with_trace
                      (ShowMessage [Str "Calculando rota por coordenadas..."] "info"
                         :: trace w)
                      (exec (setDestinationCoords (Some d))
                         (exec (setOriginCoords (Some o)) w)))).
  { subst r. apply (wp_run (calculateAndDrawRoute B dom o d) (fun r => r = _)).
    open_world w. subst vs.
    unfold calculateAndDrawRoute, clearRoute, waitForMapReady. wp_go. reflexivity. }
  split; [exact Hr|].
  split.
  { intros e He. rewrite Hr in He. cbn [snd] in He.
    rewrite (emitted_app w _ [ShowMessage [Str "Calculando rota por coordenadas..."] "info"])
      in He by reflexivity.
    apply list_elem_of_singleton in He. now subst e. }
  assert (Hwf1 : wf w1).
  { subst w1. apply mapRendered_wf. rewrite Hr. exact Hwf. }
  assert (H1 : vectorSource (mapd w1) = Some []
               /\ apiBaseUrl (mapd w1) = Some base
               /\ originCoords (route w1) = Some o
               /\ destinationCoords (route w1) = Some d).
  { subst w1. rewrite Hr. clear - Hs. destruct w as [? ? [] ? ? ? ? ? ? ? ?].
    cbn in Hs. subst. repeat split. }
  destruct H1 as (Hs1 & Hu1 & Ho1 & Hd1).
  subst r2. cbn [resume].
  pose proof (afterMapReady_spec w1 false o d o d base Hwf1
                ltac:(rewrite Hs1; now eexists) Ho1 Hd1 Hu1 Hne) as H.
  unfold wp in H.
  destruct H as (Hok & Hwf2 & _ & Hom & Hdm & Hgo & Hgd & _ & _ & _ & _ & _ & _ & _ & Htr).
  split; [exact Hok|].
  split; [apply (emitted_app _ _ (_ :: _)); exact Htr|].
  eapply pins_rendered; eassumption.
Qed.

(** X16.  A route response that brings no route (the request failed,
    the server answered with an HTTP error, or the body is JSON [null])
    is reported and nothing else: the call raises nothing, the map,
    the pins and every stored value stay as they were, and the page
    shows an error message and an error status.  An HTTP 401 or 403
    with a JSON body also posts [SESSION_EXPIRED] to the parent window;
    a missing connection and a [null] body are both reported as a
    connection error, even when the status says the request was fine. *)
Theorem failed_route_response_changes_nothing (w : World) (r : Response) :
  not_drawn r = true ->
  let w' := exec (fetchRouteData_settled B r) w in
  raises (fetchRouteData_settled B r) w = false
  /\ with_trace (trace w) w' = w
  /\ (exists log, emitted w w' = failure_report r ++ log
                  /\ forall e, e ∈ log -> exists m, e = Console "error" m \/ e = Console "warn" m)
  /\ (SessionExpired ∈ emitted w w'
      <-> exists ok status body,
            r = Reply ok status (Some body) /\ (status = 401 \/ status = 403)%Z).
Proof.
  intros Hr w'.
  assert (H : fst (fetchRouteData_settled B r w) = Ok tt
              /\ exists log,
                   w' = with_trace (failure_report r ++ log ++ trace w) w
                   /\ forall e, e ∈ log ->
                        exists m, e = Console "error" m \/ e = Console "warn" m).
  { subst w'. unfold exec.
    apply (wp_run (fetchRouteData_settled B r)
             (fun p => fst p = Ok tt
                       /\ exists log,
                            snd p = with_trace (failure_report r ++ log ++ trace w) w
                            /\ forall e, e ∈ log ->
                                 exists m, e = Console "error" m \/ e = Console "warn" m)).
    open_world w. unfold fetchRouteData_settled.
    destruct r as [|ok status [body|]]; cbn [not_drawn defined negb orb] in Hr.
    - wp_go. split; [reflexivity|].
      exists [Console "error" [Str "Erro no fetch da rota:"]]. split; [reflexivity|].
      intros e He. apply list_elem_of_singleton in He. subst e. eauto.
    - rewrite orb_false_r in Hr. apply negb_true_iff in Hr. subst ok.
      cbn [negb failure_report]. wp_go.
      destruct (Z.eqb status 401 || Z.eqb status 403); wp_go.
      all: split; [reflexivity|];
        exists [Console "error" [Str "[ERRO API ORS]"]]; split; [reflexivity|].
      all: intros e He; apply list_elem_of_singleton in He; subst e; eauto.
    - destruct ok; cbn [negb failure_report]; wp_go.
      + unfold drawRouteOnMap, displayTrafficLegend. wp_go.
        destruct (has_legend_elements B); cbn [negb]; wp_go.
        * split; [reflexivity|].
          exists [Console "error" [Str "Erro no fetch da rota:"];
                  Console "error"
                    [Str "[MAP_UTILS] Dependências ausentes para desenhar a rota."]].
          split; [reflexivity|].
          intros e He. apply elem_of_cons in He as [->|He]; [eauto|].
          apply list_elem_of_singleton in He. subst e. eauto.
        * split; [reflexivity|].
          exists [Console "error" [Str "Erro no fetch da rota:"];
                  Console "warn"
                    [Str "[TRAFFIC] Elementos de legenda não encontrados no DOM"];
                  Console "error"
                    [Str "[MAP_UTILS] Dependências ausentes para desenhar a rota."]].
          split; [reflexivity|].
          intros e He. apply elem_of_cons in He as [->|He]; [eauto|].
          apply elem_of_cons in He as [->|He]; [eauto|].
          apply list_elem_of_singleton in He. subst e. eauto.
      + split; [reflexivity|].
        exists [Console "error" [Str "Erro no fetch da rota:"]]. split; [reflexivity|].
        intros e He. apply list_elem_of_singleton in He. subst e. eauto. }
  destruct H as (Hok & log & Hw' & Hlog).
  split; [unfold raises; now rewrite Hok|].
  split; [rewrite Hw'; clear; now destruct w|].
  assert (He : emitted w w' = failure_report r ++ log).
  { apply emitted_app. rewrite Hw'. cbn [trace with_trace]. now rewrite app_assoc. }
  split; [exists log; now split|].
  rewrite He. rewrite elem_of_app. split.
  - intros [H|H].
    + destruct r as [|ok status [body|]]; cbn [failure_report] in H.
      * unfold connection_error in H.
        repeat (apply elem_of_cons in H as [H|H]; [discriminate|]). inversion H.
      * exists ok, status, body. split; [reflexivity|].
        destruct (Z.eqb_spec status 401); [now left|].
        destruct (Z.eqb_spec status 403); [now right|].
        cbn [orb] in H. unfold route_failed in H.
        repeat (apply elem_of_cons in H as [H|H]; [discriminate|]). inversion H.
      * unfold connection_error in H.
        repeat (apply elem_of_cons in H as [H|H]; [discriminate|]). inversion H.
    + destruct (Hlog _ H) as (m & [E|E]); discriminate.
  - intros (ok & status & body & -> & Hst). left. cbn [failure_report].
    assert (E : Z.eqb status 401 || Z.eqb status 403 = true).
    { destruct Hst as [->| ->]; reflexivity. }
    rewrite E. apply list_elem_of_here.
Qed.


(** X18.  A route request by address whose origin is the token GPS,
    made while no position is stored, is turned down: the page shows
    the error, nothing is geocoded or posted, and the call returns. *)
Theorem gps_origin_without_position_is_rejected (w : World) (o d : string) :
  wf w ->
  toUpperCase o = "GPS"%string ->
  currentPos (gps w) = None ->
  let r := calculateRouteFromAddresses B o d w in
  fst r = Ok None
  /\ emitted w (snd r)
     = [ShowMessage
          [Str "Erro: Posição GPS não disponível. Tente novamente ou insira um endereço de origem."]
          "error";
        calculating]
  /\ (forall e, e ∈ emitted w (snd r) -> is_network_call e = false)
  /\ gps (snd r) = gps w.
Proof.
  intros Hwf Ho Hp r.
  pose proof (calculateRouteFromAddresses_gps B w o d Hwf Ho) as H.
  cbv zeta in H. fold r in H. rewrite Hp in H. destruct H as [H1 H2].
  apply emitted_app in H2.
  split; [exact H1|]. split; [exact H2|]. split.
  - intros e He. rewrite H2 in He.
    apply elem_of_cons in He as [->|He]; [reflexivity|].
    apply list_elem_of_singleton in He. now subst e.
  - assert (H : preserves (fun w0 => gps w0 = gps w) (calculateRouteFromAddresses B o d)).
    { unfold calculateRouteFromAddresses, clearRoute. pres. }
    exact (H w eq_refl).
Qed.

Lemma afterDestination_ready (W : World) (origin destination : LonLat) :
  is_Some (vectorSource (mapd W)) ->
  afterDestination B dom origin (Some destination) W
  = afterMapReady B dom true origin destination
      (exec (setDestinationCoords (Some destination))
         (exec (setOriginCoords (Some origin)) W)).
Proof.
  intros [fs Hs]. open_world W. subst vs. reflexivity.
Qed.

(** X19.  A route request by address whose origin is an ASCII text
    other than the token GPS, on a page whose vector source is there and
    whose API base URL is set, in a state in which handles and map
    agree.  It first takes
    the previous route off the map and has the origin geocoded; only
    when that has given a point is the destination geocoded; only when
    that has given a point too are the two points stored, the pins
    drawn at them and the route request posted, which carries exactly
    these two points.  If either geocoding gives nothing the request
    ends there, with nothing stored, drawn or posted. *)
Theorem address_route_request_resolves_both_ends_first (w : World) (oi di : string)
    (oc dc : LonLat) (base : string) :
  wf w ->
  is_Some (vectorSource (mapd w)) ->
  apiBaseUrl (mapd w) = Some base ->
  base <> ""%string ->
  ascii_text oi = true ->
  toUpperCase oi <> "GPS"%string ->
  let r1 := calculateRouteFromAddresses B oi di w in
  let r2 := resume B dom (AwaitOriginGeocode oi di) (Geocoded (Some oc)) (snd r1) in
  let r3 := resume B dom (AwaitDestinationGeocode oc di) (Geocoded (Some dc)) (snd r2) in
  r1 = (Ok (Some (AwaitOriginGeocode oi di)),
        with_trace (CallGeocode oi :: calculating :: trace w) (exec (clearRoute B) w))
  /\ (forall c, c <> CMarker -> c <> CAccuracy -> rendered c (snd r1) = [])
  /\ r2 = (Ok (Some (AwaitDestinationGeocode oc di)),
           with_trace (CallGeocode di :: trace (snd r1)) (snd r1))
  /\ fst r3 = Ok (Some (AwaitRoute (request_with dom oc dc)))
  /\ emitted (snd r2) (snd r3) = Fetch (request_with dom oc dc) :: optimizing dom true
  /\ (exists fo fd,
        rendered COrigin (snd r3) = [fo]
        /\ rendered CDestination (snd r3) = [fd]
        /\ ol_geometry (snd r3) !! uid fo = Some (Point (fromLonLat B (lon oc, lat oc)))
        /\ ol_geometry (snd r3) !! uid fd = Some (Point (fromLonLat B (lon dc, lat dc))))
  /\ originCoords (route (snd r3)) = Some oc
  /\ destinationCoords (route (snd r3)) = Some dc
  /\ resume B dom (AwaitOriginGeocode oi di) (Geocoded None) (snd r1) = (Ok None, snd r1)
  /\ resume B dom (AwaitDestinationGeocode oc di) (Geocoded None) (snd r2)
     = (Ok None, snd r2).
Proof.
  intros Hwf Hs Hu Hne _ Hgps r1 r2 r3.
  pose proof (clearRoute_spec B w Hwf) as Hc. unfold wp in Hc.
  destruct Hc as (Hok & Hwf1 & _ & Htr1 & _ & Hu1 & _ & _ & _ & Hcase).
  destruct Hs as [fs Hs]. rewrite Hs in Hcase.
  destruct Hcase as (Hr1 & Htf1 & Hif1 & Hs1). rewrite Hu in Hu1.
  fold (exec (clearRoute B) w) in Hwf1, Htr1, Hu1, Hr1, Htf1, Hif1, Hs1.
  assert (E1 : r1 = (Ok (Some (AwaitOriginGeocode oi di)),
                     with_trace (CallGeocode oi :: calculating :: trace w)
                       (exec (clearRoute B) w))).
  { subst r1. clear - Hok Htr1 Hgps.
    unfold calculateRouteFromAddresses. unfold bind at 1. unfold exec in *.
    destruct (clearRoute B w) as [out w1]. cbn [fst snd] in *. subst out.
    apply (wp_run _ (fun r => r = _)). wp_go.
    destruct (String.eqb_spec (toUpperCase oi) "GPS"); [contradiction|].
    wp_go. unfold calculating. rewrite Htr1. reflexivity. }
  split; [exact E1|].
  set (w1 := exec (clearRoute B) w) in *.
  assert (Hsnd1 : snd r1 = with_trace (CallGeocode oi :: calculating :: trace w) w1)
    by now rewrite E1.
  split.
  { intros c Hc1 Hc2. rewrite Hsnd1.
    change (rendered c (with_trace (CallGeocode oi :: calculating :: trace w) w1))
      with (rendered c w1).
    rewrite (rendered_tracked w1 Hwf1).
    destruct c; cbn [tracked]; try congruence; rewrite ?Hr1; try reflexivity;
      assumption. }
  assert (E2 : r2 = (Ok (Some (AwaitDestinationGeocode oc di)),
                     with_trace (CallGeocode di :: trace (snd r1)) (snd r1))).
  { subst r2. cbn [resume]. apply (wp_run _ (fun r => r = _)). wp_go. reflexivity. }
  split; [exact E2|].
  assert (Hsnd2 : snd r2 = with_trace (CallGeocode di :: trace (snd r1)) (snd r1))
    by now rewrite E2.
  set (W := exec (setDestinationCoords (Some dc))
              (exec (setOriginCoords (Some oc)) (snd r2))).
  assert (HwfW : wf W).
  { subst W. rewrite Hsnd2, Hsnd1. exact Hwf1. }
  assert (HsW : is_Some (vectorSource (mapd W))).
  { subst W. rewrite Hsnd2, Hsnd1. exact Hs1. }
  assert (HuW : apiBaseUrl (mapd W) = Some base).
  { subst W. rewrite Hsnd2, Hsnd1. exact Hu1. }
  pose proof (afterMapReady_spec W true oc dc oc dc base HwfW HsW eq_refl eq_refl HuW Hne)
    as H.
  unfold wp in H.
  assert (E3 : r3 = afterMapReady B dom true oc dc W).
  { subst r3 W. cbn [resume]. apply afterDestination_ready.
    rewrite Hsnd2, Hsnd1. exact Hs1. }
  rewrite E3.
  destruct H as (Hok3 & Hwf3 & _ & Hom & Hdm & Hgo & Hgd & _ & _ & Hoc & Hdc & _ & _ & _
                 & Htr3).
  split; [exact Hok3|].
  split.
  { apply (emitted_app _ _ (_ :: _)). rewrite Htr3. reflexivity. }
  split; [eapply pins_rendered; eassumption|].
  do 2 (split; [assumption|]).
  split; reflexivity.
Qed.

End RouteRequests.

Lemma coordinate_route_request_starts_clean_witness :
  wf routed_world
  /\ length (rendered CTraffic routed_world) = 2
  /\ rendered CTraffic
       (snd (RouteLogic.calculateAndDrawRoute (a_browser true) no_constraints
               parque_ibirapuera largo_da_batata routed_world)) = [].
Proof.
  assert (Hwf : wf routed_world) by exact (reachable_wf _ _ routed_world_reachable).
  split; [exact Hwf|]. split; [reflexivity|].
  destruct (coordinate_route_request_starts_clean (a_browser true) no_constraints
              routed_world parque_ibirapuera largo_da_batata "http://localhost:5000"
              Hwf ltac:(eexists; reflexivity) eq_refl ltac:(discriminate))
    as (_ & _ & H & _).
  exact (H CTraffic eq_refl).
Defined.

Lemma coordinate_route_request_waits_for_the_map_witness :
  wf initial_world
  /\ vectorSource (mapd initial_world) = None
  /\ fst (RouteLogic.calculateAndDrawRoute (a_browser true) no_constraints
            praca_da_se avenida_paulista initial_world)
     = Ok (Some (RouteLogic.AwaitMapReady false praca_da_se avenida_paulista)).
Proof.
  assert (Hwf : wf initial_world) by exact (reachable_wf _ _ (reach_init (a_browser true))).
  split; [exact Hwf|]. split; [reflexivity|].
  rewrite (proj1 (coordinate_route_request_waits_for_the_map (a_browser true)
                    no_constraints initial_world praca_da_se avenida_paulista sao_paulo
                    "http://localhost:5000" Hwf eq_refl ltac:(discriminate))).
  reflexivity.
Defined.

Lemma failed_route_response_changes_nothing_witness :
  not_drawn (RouteLogic.Reply false 500 None) = true
  /\ length
       (rendered CTraffic
          (exec (RouteLogic.fetchRouteData_settled (a_browser true)
                   (RouteLogic.Reply false 500 None)) routed_world)) = 2.
Proof.
  split; [reflexivity|].
  destruct (failed_route_response_changes_nothing (a_browser true) routed_world
              (RouteLogic.Reply false 500 None) eq_refl) as (_ & H & _).
  change (rendered CTraffic
            (exec (RouteLogic.fetchRouteData_settled (a_browser true)
                     (RouteLogic.Reply false 500 None)) routed_world))
    with (rendered CTraffic
            (with_trace (trace routed_world)
               (exec (RouteLogic.fetchRouteData_settled (a_browser true)
                        (RouteLogic.Reply false 500 None)) routed_world))).
  rewrite H. reflexivity.
Defined.

Lemma gps_origin_without_position_is_rejected_witness :
  wf rendered_world
  /\ currentPos (gps rendered_world) = None
  /\ fst (RouteLogic.calculateRouteFromAddresses (a_browser true) "gps" "Avenida Paulista"
            rendered_world) = Ok None.
Proof.
  assert (Hwf : wf rendered_world)
    by exact (reachable_wf _ _ (rendered_world_reachable true)).
  split; [exact Hwf|]. split; [reflexivity|].
  exact (proj1 (gps_origin_without_position_is_rejected (a_browser true) rendered_world
                  "gps" "Avenida Paulista" Hwf eq_refl eq_refl)).
Defined.

Lemma address_route_request_resolves_both_ends_first_witness :
  wf rendered_world
  /\ fst (RouteLogic.resume (a_browser true) no_constraints
            (RouteLogic.AwaitDestinationGeocode praca_da_se "Avenida Paulista")
            (RouteLogic.Geocoded (Some avenida_paulista))
            (snd (RouteLogic.resume (a_browser true) no_constraints
                    (RouteLogic.AwaitOriginGeocode "Rua Direita" "Avenida Paulista")
                    (RouteLogic.Geocoded (Some praca_da_se))
                    (snd (RouteLogic.calculateRouteFromAddresses (a_browser true)
                            "Rua Direita" "Avenida Paulista" rendered_world)))))
     = Ok (Some (RouteLogic.AwaitRoute
                   (request_with no_constraints praca_da_se avenida_paulista))).
Proof.
  assert (Hwf : wf rendered_world)
    by exact (reachable_wf _ _ (rendered_world_reachable true)).
  split; [exact Hwf|].
  destruct (address_route_request_resolves_both_ends_first (a_browser true) no_constraints
              rendered_world "Rua Direita" "Avenida Paulista" praca_da_se avenida_paulista
              "http://localhost:5000" Hwf ltac:(eexists; reflexivity) eq_refl
              ltac:(discriminate) eq_refl ltac:(discriminate))
    as (_ & _ & _ & H & _).
  exact H.
Defined.

(* ----------------------------------------------------------------- *)
(** ** Reading coordinates *)

Section Scanning.

Import Geocoding.
Local Open Scope string_scope.

Lemma append_cons (c : ascii) (s t : string) : String c s ++ t = String c (s ++ t).
Proof. reflexivity. Qed.

Lemma append_nil_r (s : string) : s ++ "" = s.
Proof.
  induction s as [|c s IH]; [reflexivity|]. now rewrite append_cons, IH.
Qed.

Lemma append_assoc (a b c : string) : (a ++ b) ++ c = a ++ b ++ c.
Proof.
  induction a as [|x a IH]; [reflexivity|]. now rewrite !append_cons, IH.
Qed.

Lemma length_append (a b : string) :
  String.length (a ++ b) = String.length a + String.length b.
Proof.
  induction a as [|x a IH]; [reflexivity|]. rewrite append_cons. cbn. now rewrite IH.
Qed.

Lemma strip_prefix_sound p : forall s r, strip_prefix p s = Some r -> s = p ++ r.
Proof.
  induction p as [|a p IH]; intros s r H; cbn in H.
  - now injection H as <-.
  - destruct s as [|b s]; [discriminate|].
    destruct (Ascii.eqb_spec a b) as [<-|]; [|discriminate].
    rewrite append_cons. f_equal. now apply IH.
Qed.

Lemma strip_prefix_complete p r : strip_prefix p (p ++ r) = Some r.
Proof.
  induction p as [|a p IH]; [reflexivity|].
  rewrite append_cons. cbn. now rewrite Ascii.eqb_refl.
Qed.

Lemma first_some_sound {A C} (f : A -> option C) (l : list A) (y : C) :
  first_some f l = Some y -> exists x, In x l /\ f x = Some y.
Proof.
  induction l as [|x l IH]; cbn; [discriminate|].
  destruct (f x) as [z|] eqn:E.
  - intros H. injection H as <-. exists x. auto.
  - intros H. destruct (IH H) as (x' & Hin & Hx'). exists x'. auto.
Qed.

Lemma drop_space_sound s r :
  drop_space s = Some r -> exists u, In u js_white_space /\ s = u ++ r.
Proof.
  intros H. apply first_some_sound in H as (u & Hin & Hu).
  exists u. split; [exact Hin | now apply strip_prefix_sound].
Qed.

Lemma drop_space_complete u r : In u js_white_space -> drop_space (u ++ r) = Some r.
Proof.
  intros Hin. unfold js_white_space in Hin. cbn [In] in Hin.
  repeat (destruct Hin as [<-|Hin]; [reflexivity|]). destruct Hin.
Qed.

Lemma white_space_nonempty u : In u js_white_space -> 1 <= String.length u.
Proof.
  intros Hin. unfold js_white_space in Hin. cbn [In] in Hin.
  repeat (destruct Hin as [<-|Hin]; [cbn; lia|]). destruct Hin.
Qed.

Lemma drop_space_shorter s r : drop_space s = Some r -> String.length r < String.length s.
Proof.
  intros H. apply drop_space_sound in H as (u & Hin & ->).
  rewrite length_append. pose proof (white_space_nonempty u Hin). lia.
Qed.

Lemma skip_spaces_upto_enough n : forall m s,
  String.length s <= n -> String.length s <= m ->
  skip_spaces_upto n s = skip_spaces_upto m s.
Proof.
  induction n as [|n IH]; intros m s Hn Hm.
  - destruct s; [|cbn in Hn; lia]. destruct m; reflexivity.
  - destruct m as [|m].
    + destruct s; [|cbn in Hm; lia]. reflexivity.
    + cbn [skip_spaces_upto]. destruct (drop_space s) as [r|] eqn:E; [|reflexivity].
      apply drop_space_shorter in E. apply IH; lia.
Qed.

Lemma skip_spaces_step s :
  skip_spaces s = match drop_space s with Some r => skip_spaces r | None => s end.
Proof.
  unfold skip_spaces. destruct s as [|c s]; [reflexivity|].
  cbn [String.length skip_spaces_upto].
  destruct (drop_space (String c s)) as [r|] eqn:E; [|reflexivity].
  apply drop_space_shorter in E. cbn in E. apply skip_spaces_upto_enough; lia.
Qed.

Lemma skip_spaces_sound s :
  exists pre, spaces pre /\ s = pre ++ skip_spaces s /\ drop_space (skip_spaces s) = None.
Proof.
  remember (String.length s) as n eqn:Hn. revert s Hn.
  induction n as [n IH] using lt_wf_ind. intros s ->.
  rewrite skip_spaces_step. destruct (drop_space s) as [r|] eqn:E.
  - pose proof (drop_space_shorter _ _ E) as Hlt.
    destruct (IH _ Hlt r eq_refl) as (pre & Hpre & Hr & Hnone).
    apply drop_space_sound in E as (u & Hin & ->).
    exists (u ++ pre). split; [now constructor|]. split; [|exact Hnone].
    rewrite append_assoc. now rewrite <- Hr.
  - exists "". split; [constructor|]. split; [reflexivity | exact E].
Qed.

Lemma skip_spaces_complete pre r :
  spaces pre -> drop_space r = None -> skip_spaces (pre ++ r) = r.
Proof.
  intros Hpre Hr. induction Hpre as [|u w Hin _ IH].
  - change ("" ++ r) with r. rewrite skip_spaces_step, Hr. reflexivity.
  - rewrite append_assoc, skip_spaces_step, (drop_space_complete u _ Hin). exact IH.
Qed.

Lemma span_digits_sound s : forall d r,
  span_digits s = (d, r) -> s = d ++ r /\ all_digits d = true /\ no_digit_ahead r = true.
Proof.
  induction s as [|c s IH]; intros d r H; cbn in H.
  - injection H as <- <-. repeat split.
  - destruct (is_digit c) eqn:Hc.
    + destruct (span_digits s) as [ds rest]. injection H as <- <-.
      destruct (IH ds rest eq_refl) as (-> & Hd & Hr).
      rewrite append_cons. cbn. rewrite Hc, Hd. repeat split. exact Hr.
    + injection H as <- <-. cbn. rewrite Hc. repeat split.
Qed.

Lemma span_digits_complete d : forall r,
  all_digits d = true -> no_digit_ahead r = true -> span_digits (d ++ r) = (d, r).
Proof.
  induction d as [|c d IH]; intros r Hd Hr.
  - change ("" ++ r) with r. destruct r as [|c r]; [reflexivity|].
    cbn in Hr |- *. apply negb_true_iff in Hr. now rewrite Hr.
  - cbn in Hd. apply andb_true_iff in Hd as [Hc Hd].
    rewrite append_cons. cbn. rewrite Hc, (IH r Hd Hr). reflexivity.
Qed.

Lemma digit_no_sign c : is_digit c = true -> is_sign c = false.
Proof.
  unfold is_sign. intros H.
  destruct (Ascii.eqb_spec c "-") as [->|]; [vm_compute in H; discriminate|].
  destruct (Ascii.eqb_spec c "+") as [->|]; [vm_compute in H; discriminate|]. reflexivity.
Qed.

Lemma scan_number_sound s m r :
  scan_number s = Some (m, r) -> numeral m /\ s = m ++ r /\ no_digit_ahead r = true.
Proof.
  unfold scan_number.
  set (p := match s with
            | String c r0 => if is_sign c then (String c "", r0) else ("", s)
            | "" => ("", s)
            end).
  assert (Hp : s = fst p ++ snd p
               /\ (fst p = "" \/ fst p = "-" \/ fst p = "+")).
  { subst p. destruct s as [|c s]; [now split; [|left]|].
    unfold is_sign.
    destruct (Ascii.eqb_spec c "-") as [->|]; [split; [reflexivity | right; now left]|].
    destruct (Ascii.eqb_spec c "+") as [->|]; [split; [reflexivity | right; now right]|].
    split; [reflexivity | now left]. }
  destruct p as [sign s1]. cbn [fst snd] in Hp. destruct Hp as [-> Hsign].
  destruct (span_digits s1) as [int s2] eqn:Hint.
  apply span_digits_sound in Hint as (-> & Hd & Hnd).
  destruct (Nat.leb_spec 1 (String.length int)) as [H1|]; [|discriminate].
  destruct (Nat.leb_spec (String.length int) 3) as [H3|]; [|discriminate].
  cbn [andb].
  assert (Hplain : numeral (sign ++ int)).
  { exists sign, int, "". rewrite append_nil_r. repeat split; auto. }
  assert (Hassoc : forall r0, sign ++ int ++ r0 = (sign ++ int) ++ r0).
  { intros r0. now rewrite append_assoc. }
  destruct s2 as [|c s2].
  - intros H. injection H as <- <-. split; [exact Hplain|]. split; [apply Hassoc | reflexivity].
  - destruct (Ascii.eqb_spec c ".") as [->|Hc].
    + destruct (span_digits s2) as [frac s3] eqn:Hfrac.
      apply span_digits_sound in Hfrac as (-> & Hfd & Hnd3).
      destruct (Nat.leb_spec 1 (String.length frac)) as [Hf|Hf].
      * intros H. injection H as <- <-. split.
        { exists sign, int, (String "." frac). repeat split; auto.
          right. exists frac. repeat split; auto. }
        split; [|exact Hnd3].
        rewrite !append_assoc. reflexivity.
      * intros H. injection H as <- <-. split; [exact Hplain|].
        split; [apply Hassoc | reflexivity].
    + intros H. injection H as <- <-. split; [exact Hplain|].
      split; [apply Hassoc | exact Hnd].
Qed.

Lemma number_ends_no_digit r : number_ends r = true -> no_digit_ahead r = true.
Proof.
  destruct r as [|c r]; [reflexivity|]. cbn. intros H.
  now apply andb_true_iff in H as [H _].
Qed.

Lemma scan_number_complete m r :
  numeral m -> number_ends r = true -> scan_number (m ++ r) = Some (m, r).
Proof.
  intros (sign & int & frac & -> & Hsign & Hd & [H1 H3] & Hfrac) Hr.
  assert (Hint : exists c int', int = String c int' /\ is_digit c = true).
  { destruct int as [|c int']; [cbn in H1; lia|]. exists c, int'.
    cbn in Hd. apply andb_true_iff in Hd as [Hc _]. now split. }
  destruct Hint as (c0 & int' & Hint0 & Hc0).
  assert (Hrest : no_digit_ahead (frac ++ r) = true).
  { destruct Hfrac as [->|(ds & -> & _)]; [now apply number_ends_no_digit | reflexivity]. }
  unfold scan_number.
  assert (Hhead :
    match (sign ++ int ++ frac) ++ r with
    | String c r0 => if is_sign c then (String c "", r0) else ("", (sign ++ int ++ frac) ++ r)
    | "" => ("", (sign ++ int ++ frac) ++ r)
    end = (sign, int ++ frac ++ r)).
  { rewrite !append_assoc.
    destruct Hsign as [->|[->| ->]]; [|reflexivity..].
    change ("" ++ int ++ frac ++ r) with (int ++ frac ++ r).
    rewrite Hint0, append_cons. now rewrite (digit_no_sign _ Hc0). }
  rewrite Hhead. rewrite (span_digits_complete int _ Hd Hrest).
  destruct (Nat.leb_spec 1 (String.length int)) as [_|]; [|lia].
  destruct (Nat.leb_spec (String.length int) 3) as [_|]; [|lia].
  cbn [andb].
  destruct Hfrac as [->|(ds & -> & Hds & Hlen)].
  - change ("" ++ r) with r. rewrite !append_nil_r.
    destruct r as [|c r]; [reflexivity|].
    cbn in Hr. apply andb_true_iff in Hr as [_ Hdot]. apply negb_true_iff in Hdot.
    now rewrite Hdot.
  - rewrite append_assoc. change ("." ++ ds ++ r) with (String "." (ds ++ r)).
    cbn [Ascii.eqb Bool.eqb].
    rewrite (span_digits_complete ds r Hds (number_ends_no_digit _ Hr)).
    destruct (Nat.leb_spec 1 (String.length ds)) as [_|]; [|lia].
    reflexivity.
Qed.

Lemma drop_space_none_head c x :
  is_digit c || is_sign c || Ascii.eqb c "," = true -> drop_space (String c x) = None.
Proof.
  intros H.
  destruct c as [[] [] [] [] [] [] [] []]; vm_compute in H; try discriminate H;
    reflexivity.
Qed.

Lemma numeral_head m :
  numeral m -> exists c m', m = String c m' /\ is_digit c || is_sign c = true.
Proof.
  intros (sign & int & frac & -> & Hsign & Hd & [H1 _] & _).
  destruct int as [|c int]; [cbn in H1; lia|].
  cbn in Hd. apply andb_true_iff in Hd as [Hc _].
  destruct Hsign as [->|[->| ->]].
  - exists c, (int ++ frac). split; [reflexivity|]. now rewrite Hc.
  - eexists _, _. split; [reflexivity|]. reflexivity.
  - eexists _, _. split; [reflexivity|]. reflexivity.
Qed.

Lemma drop_space_none_numeral m r : numeral m -> drop_space (m ++ r) = None.
Proof.
  intros Hm. destruct (numeral_head m Hm) as (c & m' & -> & Hc).
  rewrite append_cons. apply drop_space_none_head. now rewrite Hc.
Qed.

Lemma number_ends_spaces w r :
  spaces w -> number_ends r = true -> number_ends (w ++ r) = true.
Proof.
  intros Hw Hr. destruct Hw as [|u w Hin _]; [exact Hr|].
  unfold js_white_space in Hin. cbn [In] in Hin.
  repeat (destruct Hin as [<-|Hin]; [reflexivity|]). destruct Hin.
Qed.

Lemma spaces_only w : spaces w -> skip_spaces w = "".
Proof.
  intros Hw. rewrite <- (append_nil_r w). now apply skip_spaces_complete.
Qed.

(** The scanner finds the two numbers of a text exactly when the text
    is in the language of the regular expression, and then they are its
    two captures. *)
Lemma match_coordinates_spec (s m1 m2 : string) :
  match_coordinates s = Some (m1, m2) <-> coordinate_text s m1 m2.
Proof.
  unfold match_coordinates. split.
  - intros H.
    destruct (skip_spaces_sound s) as (w1 & Hw1 & Hs & _).
    destruct (scan_number (skip_spaces s)) as [[n1 s1]|] eqn:E1; [|discriminate].
    apply scan_number_sound in E1 as (Hn1 & Hs0 & _).
    destruct (skip_spaces_sound s1) as (w2 & Hw2 & Hs1 & _).
    destruct (skip_spaces s1) as [|c s2] eqn:E2; [discriminate|].
    destruct (Ascii.eqb_spec c ",") as [->|]; [|discriminate].
    destruct (skip_spaces_sound s2) as (w3 & Hw3 & Hs2 & _).
    destruct (scan_number (skip_spaces s2)) as [[n2 s3]|] eqn:E3; [|discriminate].
    apply scan_number_sound in E3 as (Hn2 & Hs2' & _).
    destruct (skip_spaces_sound s3) as (w4 & Hw4 & Hs3 & _).
    destruct (skip_spaces s3) as [|? ?] eqn:E4; [|discriminate].
    injection H as <- <-.
    exists w1, w2, w3, w4. repeat (split; [assumption|]).
    rewrite Hs, Hs0, Hs1, Hs2, Hs2', Hs3. rewrite append_nil_r.
    rewrite ?append_assoc. reflexivity.
  - intros (w1 & w2 & w3 & w4 & Hw1 & Hw2 & Hw3 & Hw4 & Hn1 & Hn2 & ->).
    rewrite (skip_spaces_complete w1 _ Hw1)
      by now apply drop_space_none_numeral.
    rewrite (scan_number_complete m1 _ Hn1)
      by (apply number_ends_spaces; [assumption | reflexivity]).
    rewrite (skip_spaces_complete w2 _ Hw2)
      by (now apply (drop_space_none_head ",")).
    change ("," ++ w3 ++ m2 ++ w4) with (String "," (w3 ++ m2 ++ w4)).
    cbn [Ascii.eqb Bool.eqb].
    rewrite (skip_spaces_complete w3 _ Hw3) by now apply drop_space_none_numeral.
    rewrite (scan_number_complete m2 _ Hn2).
    + now rewrite (spaces_only w4 Hw4).
    + rewrite <- (append_nil_r w4). apply number_ends_spaces; [assumption | reflexivity].
Qed.

Lemma all_bytes_append P a b :
  all_bytes P (a ++ b) = all_bytes P a && all_bytes P b.
Proof.
  induction a as [|c a IH]; [reflexivity|].
  rewrite append_cons. cbn. rewrite IH. now rewrite andb_assoc.
Qed.

Lemma all_bytes_weaken (P R : ascii -> bool) s :
  (forall c, P c = true -> R c = true) -> all_bytes P s = true -> all_bytes R s = true.
Proof.
  intros HPR. induction s as [|c s IH]; [reflexivity|]. cbn.
  intros H. apply andb_true_iff in H as [H1 H2]. now rewrite (HPR c H1), IH.
Qed.

Lemma spaces_bytes w : spaces w -> all_bytes space_byte w = true.
Proof.
  induction 1 as [|u w Hin _ IH]; [reflexivity|].
  rewrite all_bytes_append, IH, andb_true_r.
  unfold js_white_space in Hin. cbn [In] in Hin.
  repeat (destruct Hin as [<-|Hin]; [reflexivity|]). destruct Hin.
Qed.

Lemma numeral_bytes m : numeral m -> all_bytes coordinate_byte m = true.
Proof.
  intros (sign & int & frac & -> & Hsign & Hd & _ & Hfrac).
  assert (Hdig : forall s, all_digits s = true -> all_bytes coordinate_byte s = true).
  { induction s as [|c s IH]; [reflexivity|]. cbn [all_digits all_bytes]. intros H.
    apply andb_true_iff in H as [H1 H2]. rewrite (IH H2), andb_true_r.
    unfold coordinate_byte. now rewrite H1. }
  rewrite !all_bytes_append, (Hdig int Hd).
  assert (Hs : all_bytes coordinate_byte sign = true)
    by (destruct Hsign as [->|[->| ->]]; reflexivity).
  rewrite Hs.
  destruct Hfrac as [->|(ds & -> & Hds & _)]; [reflexivity|].
  change ("." ++ ds) with (String "." ds). cbn [all_bytes].
  now rewrite (Hdig ds Hds).
Qed.

Lemma coordinate_text_bytes s m1 m2 :
  coordinate_text s m1 m2 -> all_bytes coordinate_byte s = true.
Proof.
  intros (w1 & w2 & w3 & w4 & Hw1 & Hw2 & Hw3 & Hw4 & Hn1 & Hn2 & ->).
  assert (Hsp : forall w, spaces w -> all_bytes coordinate_byte w = true).
  { intros w Hw. apply (all_bytes_weaken space_byte); [|now apply spaces_bytes].
    intros c Hc. unfold coordinate_byte. rewrite Hc. now rewrite !orb_true_r. }
  rewrite !all_bytes_append.
  rewrite (Hsp w1 Hw1), (Hsp w2 Hw2), (Hsp w3 Hw3), (Hsp w4 Hw4).
  rewrite (numeral_bytes m1 Hn1), (numeral_bytes m2 Hn2). reflexivity.
Qed.

Lemma trimEnd_spec s : exists post, spaces post /\ s = trimEnd s ++ post.
Proof.
  induction s as [|c s IH]; [exists ""; split; [constructor | reflexivity]|].
  cbn [trimEnd]. destruct (String.eqb_spec (skip_spaces (String c s)) "") as [E|E].
  - destruct (skip_spaces_sound (String c s)) as (pre & Hpre & Hs & _).
    rewrite E, append_nil_r in Hs. exists (String c s). split; [now rewrite Hs | reflexivity].
  - destruct IH as (post & Hpost & Hs). exists post. split; [exact Hpost|].
    rewrite append_cons. now rewrite <- Hs.
Qed.

(** [trim] only takes white space away, at both ends. *)
Lemma trim_spec s : exists pre post, spaces pre /\ spaces post /\ s = pre ++ trim s ++ post.
Proof.
  destruct (skip_spaces_sound s) as (pre & Hpre & Hs & _).
  destruct (trimEnd_spec (skip_spaces s)) as (post & Hpost & Ht).
  exists pre, post. repeat (split; [assumption|]).
  unfold trim. now rewrite <- Ht.
Qed.

End Scanning.

Section Coordinates.

Import MapUtils Geocoding.
Local Open Scope string_scope.
Variable B : Browser.

Lemma within_spec x bound : within x bound = true <-> (Math_abs x <= bound)%Q.
Proof. unfold within. apply Qle_bool_iff. Qed.

(** The cases of [parseCoordinateString]. *)
Lemma parseCoordinateString_cases (text : string) (c : LonLat) :
  parseCoordinateString B text = Some c
  <-> text <> ""
      /\ exists m1 m2 a b,
           coordinate_text (trim text) m1 m2
           /\ parseFloat B (Some (JString m1)) = Some a
           /\ parseFloat B (Some (JString m2)) = Some b
           /\ ((within a 90 && within b 180 = true /\ c = {| lon := b; lat := a |})
               \/ (within a 90 && within b 180 = false
                   /\ within b 90 && within a 180 = true
                   /\ c = {| lon := a; lat := b |})).
Proof.
  unfold parseCoordinateString.
  destruct (String.eqb_spec text "") as [->|Hne].
  { split; [discriminate | intros [H _]; now contradiction H]. }
  destruct (match_coordinates (trim text)) as [[m1 m2]|] eqn:E.
  - apply match_coordinates_spec in E. split.
    + intros H. split; [exact Hne|]. exists m1, m2.
      destruct (parseFloat B (Some (JString m1))) as [a|]; [|discriminate].
      destruct (parseFloat B (Some (JString m2))) as [b|]; [|discriminate].
      exists a, b. do 3 (split; [assumption || reflexivity|]).
      destruct (within a 90 && within b 180).
      * left. injection H as <-. now split.
      * right. destruct (within b 90 && within a 180); [|discriminate].
        injection H as <-. now repeat split.
    + intros (_ & n1 & n2 & a & b & Ht & Ha & Hb & Hcase).
      apply match_coordinates_spec in E, Ht. rewrite E in Ht. injection Ht as <- <-.
      rewrite Ha, Hb. destruct Hcase as [[H ->] | (H1 & H2 & ->)].
      * now rewrite H.
      * now rewrite H1, H2.
  - split; [discriminate|].
    intros (_ & n1 & n2 & a & b & Ht & _).
    apply match_coordinates_spec in Ht. rewrite E in Ht. discriminate.
Qed.

(** X20.  [parseCoordinateString] gives a point for exactly the texts
    that, once trimmed, are two numerals separated by a comma, each
    with an optional sign, one to three digits and an optional fraction,
    with white space allowed around each, and whose numbers are in
    range: the first is taken as the latitude when it is at most 90 in
    magnitude and the second at most 180; failing that, the second is
    the latitude when it is at most 90 and the first at most 180.  Every
    other text gives [null]. *)
Theorem parseCoordinateString_reads_a_pair_in_range (text : string) (c : LonLat) :
  parseCoordinateString B text = Some c
  <-> text <> ""
      /\ exists m1 m2 a b,
           coordinate_text (trim text) m1 m2
           /\ parseFloat B (Some (JString m1)) = Some a
           /\ parseFloat B (Some (JString m2)) = Some b
           /\ ((within a 90 && within b 180 = true /\ c = {| lon := b; lat := a |})
               \/ (within a 90 && within b 180 = false
                   /\ within b 90 && within a 180 = true
                   /\ c = {| lon := a; lat := b |})).
Proof. apply parseCoordinateString_cases. Qed.

(** Whatever [parseCoordinateString] returns is a point on the
    globe: its latitude is at most 90 and its longitude at most 180 in
    magnitude. *)
Lemma parseCoordinateString_on_the_globe (text : string) (c : LonLat) :
  parseCoordinateString B text = Some c ->
  (Math_abs (lat c) <= 90)%Q /\ (Math_abs (lon c) <= 180)%Q.
Proof.
  intros H. apply parseCoordinateString_cases in H
    as (_ & m1 & m2 & a & b & _ & _ & _ & [[H ->] | (_ & H & ->)]).
  all: apply andb_true_iff in H as [H1 H2].
  all: apply within_spec in H1, H2; now split.
Qed.

(** A text with a byte that is no digit, sign, dot, comma or white
    space is never read as coordinates: an address with a letter in it
    always goes to the geocoding service. *)
Lemma parseCoordinateString_other_characters (pre post : string) (c : ascii) :
  coordinate_byte c = false ->
  parseCoordinateString B (pre ++ String c post) = None.
Proof.
  intros Hc.
  destruct (parseCoordinateString B (pre ++ String c post)) as [p|] eqn:E; [|reflexivity].
  exfalso.
  apply parseCoordinateString_cases in E as (_ & m1 & m2 & _ & _ & Ht & _).
  apply coordinate_text_bytes in Ht.
  destruct (trim_spec (pre ++ String c post)) as (w1 & w2 & Hw1 & Hw2 & Heq).
  assert (Hall : all_bytes coordinate_byte (pre ++ String c post) = true).
  { rewrite Heq, !all_bytes_append, Ht.
    assert (Hsp : forall w, spaces w -> all_bytes coordinate_byte w = true).
    { intros w Hw. apply (all_bytes_weaken space_byte); [|now apply spaces_bytes].
      intros x Hx. unfold coordinate_byte. rewrite Hx. now rewrite !orb_true_r. }
    now rewrite (Hsp w1 Hw1), (Hsp w2 Hw2). }
  rewrite all_bytes_append in Hall. cbn [all_bytes] in Hall. rewrite Hc in Hall.
  cbn in Hall. rewrite andb_false_r in Hall. discriminate.
Qed.

(** X21.  Whatever [parseCoordinateString] returns is a point on the
    globe: its latitude is at most 90 and its longitude at most 180 in
    magnitude. *)
Theorem parseCoordinateString_gives_a_point_on_the_globe (text : string) (c : LonLat) :
  parseCoordinateString B text = Some c ->
  (Math_abs (lat c) <= 90)%Q /\ (Math_abs (lon c) <= 180)%Q.
Proof. apply parseCoordinateString_on_the_globe. Qed.

(** X22.  A text with an ASCII character other than a digit, a sign, a
    dot, a comma or white space, wherever it stands, is never read as
    coordinates: no address with a letter in it is mistaken for a
    point. *)
Theorem parseCoordinateString_rejects_other_characters (pre post : string) (c : ascii) :
  coordinate_byte c = false ->
  parseCoordinateString B (pre ++ String c post) = None.
Proof. apply parseCoordinateString_other_characters. Qed.

End Coordinates.

Lemma parseCoordinateString_gives_a_point_on_the_globe_witness :
  (Geocoding.Math_abs (-471 # 20) <= 90)%Q /\ (Geocoding.Math_abs (-4663 # 100) <= 180)%Q.
Proof.
  exact (parseCoordinateString_gives_a_point_on_the_globe
           Geocoding.a_reading_browser " -23.55 , -46.63 "%string
           {| lon := -4663 # 100; lat := -471 # 20 |} eq_refl).
Defined.

Lemma parseCoordinateString_rejects_other_characters_witness :
  Geocoding.parseCoordinateString Geocoding.a_reading_browser "12.5, 4O.1"%string = None.
Proof.
  exact (parseCoordinateString_rejects_other_characters
           Geocoding.a_reading_browser "12.5, 4"%string ".1"%string "O"%char eq_refl).
Defined.

(* ----------------------------------------------------------------- *)
(** ** Geocoding *)

Ltac emitted_now :=
  match goal with
  | |- context [emitted ?w ?w'] =>
      let t := eval cbn in (trace w') in
      match t with
      | ?a :: ?b :: trace w => rewrite (emitted_app w w' [a; b] eq_refl)
      | ?a :: trace w => rewrite (emitted_app w w' [a] eq_refl)
      end
  end.

Section GeocodingService.

Import MapUtils Geocoding.
Variable B : Browser.

(** X23.  With the server URL set, [geocodeAddress] answers a text that
    reads as coordinates itself, with a point on the globe and without a
    request or a message; a text with an ASCII character other than a
    digit, a sign, a dot, a comma or white space goes to the geocoding
    service as it is.  Without a server URL it shows an error and
    returns [null] whatever the text, coordinates included. *)
Theorem geocodeAddress_asks_the_service_only_for_addresses (w : World) (address : string) :
  (str_truthy (apiBaseUrl (mapd w)) = true ->
   exec (geocodeAddress B address) w = w
   /\ (forall c, fst (geocodeAddress B address w) = Ok (GeoDone (Some c)) ->
                 parseCoordinateString B address = Some c
                 /\ (Math_abs (lat c) <= 90)%Q /\ (Math_abs (lon c) <= 180)%Q)
   /\ fst (geocodeAddress B address w) <> Ok (GeoDone None)
   /\ (forall a, fst (geocodeAddress B address w) = Ok (GeoFetch a) ->
                 a = address /\ parseCoordinateString B address = None)
   /\ (forall pre c post,
         address = (pre ++ String c post)%string -> coordinate_byte c = false ->
         fst (geocodeAddress B address w) = Ok (GeoFetch address)))
  /\ (str_truthy (apiBaseUrl (mapd w)) = false ->
      fst (geocodeAddress B address w) = Ok (GeoDone None)
      /\ exec (geocodeAddress B address) w
         = with_trace (ShowMessage [Str "Erro: URL do servidor não definida."] "error"
                         :: trace w) w).
Proof.
  unfold exec, geocodeAddress, getApiBaseUrl, bind, gets. cbn [fst snd].
  split; intros Hu; rewrite Hu; cbn [negb].
  - destruct (parseCoordinateString B address) as [p|] eqn:E; cbn [fst snd ret].
    + split; [reflexivity|].
      split.
      { intros c Hc. injection Hc as <-. split; [reflexivity|].
        now apply (parseCoordinateString_on_the_globe B address). }
      split; [discriminate|].
      split; [discriminate|].
      intros pre c post -> Hc.
      rewrite (parseCoordinateString_other_characters B pre post c Hc) in E. discriminate.
    + split; [reflexivity|].
      split; [discriminate|].
      split; [discriminate|].
      split; [intros a Ha; injection Ha as <-; now split|].
      reflexivity.
  - split; reflexivity.
Qed.

(** X24.  What [geocodeAddress] makes of the service's answer.  It never
    raises.  It returns a point exactly when the answer is [ok], its
    status is not 401 and its body has a longitude and a latitude that
    are both numbers other than zero: a place on the equator or on the
    prime meridian is reported as not found.  A point is returned
    without a message; every other answer shows exactly one error
    message and returns [null], and nothing but the trace changes.  The
    session-expired notice is posted for status 401 and for nothing
    else. *)
Theorem geocodeAddress_settled_needs_nonzero_coordinates
    (w : World) (address : string) (r : GeoResponse) :
  let out := geocodeAddress_settled address r w in
  (forall c, fst out = Ok (Some c)
             <-> exists status b,
                   r = GeoReply true status (Some b) /\ status <> 401%Z
                   /\ g_lon b = Some (lon c) /\ g_lat b = Some (lat c)
                   /\ ~ (lon c == 0)%Q /\ ~ (lat c == 0)%Q)
  /\ (forall c, fst out = Ok (Some c) -> snd out = w)
  /\ ((forall c, fst out <> Ok (Some c)) ->
      fst out = Ok None
      /\ snd out = with_trace (trace (snd out)) w
      /\ exists m,
           List.filter is_message (emitted w (snd out)) = [ShowMessage m "error"])
  /\ (In SessionExpired (emitted w (snd out)) <-> exists ok b, r = GeoReply ok 401 b).
Proof.
  intros out. subst out.
  assert (Hnz : forall q, negb (Qeq_bool q 0) = true <-> ~ (q == 0)%Q).
  { intros q. rewrite negb_true_iff. split.
    - intros H E. apply Qeq_bool_iff in E. congruence.
    - intros H. destruct (Qeq_bool q 0) eqn:E; [|reflexivity].
      apply Qeq_bool_iff in E. contradiction. }
  destruct r as [|ok status body].
  { (* the fetch is rejected *)
    cbn. split; [|split; [|split; [|split]]].
    - intros c. split; [discriminate | intros (s & b & H & _); discriminate].
    - discriminate.
    - intros _. split; [reflexivity|]. split; [reflexivity|].
      eexists. emitted_now. reflexivity.
    - emitted_now. cbn. intros [H|[H|[]]]; discriminate.
    - intros (ok & b & H). discriminate. }
  unfold geocodeAddress_settled.
  destruct (Z.eqb_spec status 401) as [->|Hs].
  { cbn. split; [|split; [|split; [|split]]].
    - intros c. split; [discriminate | intros (s & b & H & Hne & _)].
      injection H as _ <- _. now contradiction Hne.
    - discriminate.
    - intros _. split; [reflexivity|]. split; [reflexivity|].
      eexists. emitted_now. reflexivity.
    - intros _. now exists ok, body.
    - intros _. emitted_now. now left. }
  destruct body as [b|].
  2:{ cbn. split; [|split; [|split; [|split]]].
      - intros c. split; [discriminate | intros (s & b & H & _); discriminate].
      - discriminate.
      - intros _. split; [reflexivity|]. split; [reflexivity|].
        eexists. emitted_now. reflexivity.
      - emitted_now. cbn. intros [H|[H|[]]]; discriminate.
      - intros (ok' & b & H). injection H as _ H _. now contradiction Hs. }
  destruct (ok && num_truthy (g_lon b) && num_truthy (g_lat b)) eqn:E.
  - apply andb_true_iff in E as [E Hlat]. apply andb_true_iff in E as [-> Hlon].
    destruct (g_lon b) as [x|] eqn:Ex; [|discriminate].
    destruct (g_lat b) as [y|] eqn:Ey; [|discriminate].
    cbn in Hlon, Hlat. apply Hnz in Hlon, Hlat.
    cbn. split; [|split; [|split; [|split]]].
    + intros c. split.
      * intros H. injection H as <-. exists status, b. cbn. now rewrite Ex, Ey.
      * intros (s & b' & H & _ & H1 & H2 & _). injection H as <- <-.
        rewrite Ex in H1. rewrite Ey in H2. injection H1 as ->. injection H2 as ->.
        now destruct c.
    + reflexivity.
    + intros H. now contradiction (H {| lon := x; lat := y |}).
    + rewrite (emitted_same w w eq_refl). intros [].
    + intros (ok' & b' & H). injection H as _ H _. now contradiction Hs.
  - assert (Hno : forall c, ~ (exists (s : Z) (b' : GeoBody),
                    GeoReply ok status (Some b) = GeoReply true s (Some b') /\ s <> 401%Z
                    /\ g_lon b' = Some (lon c) /\ g_lat b' = Some (lat c)
                    /\ ~ (lon c == 0)%Q /\ ~ (lat c == 0)%Q)).
    { intros c (s & b' & H & _ & H1 & H2 & H3 & H4). injection H as -> <- <-.
      rewrite H1, H2 in E. cbn in E.
      apply Hnz in H3, H4. rewrite H3, H4 in E. discriminate. }
    cbn. split; [|split; [|split; [|split]]].
    + intros c. split; [discriminate | intros H; now contradiction (Hno c)].
    + discriminate.
    + intros _. split; [reflexivity|]. split; [reflexivity|].
      eexists. emitted_now. reflexivity.
    + emitted_now. cbn. intros [H|[H|[]]]; discriminate.
    + intros (ok' & b' & H). injection H as _ H _. now contradiction Hs.
Qed.

End GeocodingService.

Lemma geocodeAddress_asks_the_service_only_for_addresses_witness :
  fst (Geocoding.geocodeAddress Geocoding.a_reading_browser "Av. Paulista 1000"%string
         (exec (mapRendered sao_paulo "http://localhost:5000"%string) initial_world))
  = Ok (Geocoding.GeoFetch "Av. Paulista 1000"%string).
Proof.
  refine (let H := proj1 (geocodeAddress_asks_the_service_only_for_addresses
                            Geocoding.a_reading_browser
                            (exec (mapRendered sao_paulo "http://localhost:5000"%string)
                                  initial_world)
                            "Av. Paulista 1000"%string) eq_refl in _).
  destruct H as (_ & _ & _ & _ & H).
  exact (H ""%string "A"%char "v. Paulista 1000"%string eq_refl eq_refl).
Defined.

(* ----------------------------------------------------------------- *)
(** ** The buttons *)

Section Buttons.

Import MapUtils Geolocation RouteLogic Geocoding Events.
Variable B : Browser.

(** X25.  The route button turns an incomplete form down before it
    touches anything: with a destination that is blank once trimmed, or
    with an origin that is blank or [gps] (in any letter case) while no
    position is stored, the click shows one error message and nothing
    else happens; the route on the map is not cleared and no request is
    made. *)
Theorem rotaClick_rejects_incomplete_input (w : World) (start dest : string) :
  trim dest = ""%string
  \/ ((toLowerCase (trim start) = "gps"%string \/ trim start = ""%string)
      /\ currentPos (gps w) = None) ->
  exists m,
    rotaClick B (Some start) (Some dest) w
    = (Ok None, with_trace (ShowMessage m "error" :: trace w) w).
Proof.
  intros H. unfold rotaClick, value_of, bind, ret. cbn beta iota.
  destruct (String.eqb_spec (trim dest) "") as [E|E]; [eexists; reflexivity|].
  destruct H as [H|[Hs Hp]]; [contradiction|].
  assert (Hg : (String.eqb (toLowerCase (trim start)) "gps"
                || String.eqb (trim start) "")%bool = true).
  { destruct Hs as [->| ->]; [reflexivity | apply orb_true_r]. }
  rewrite Hg. unfold getCurrentPos, gets. rewrite Hp. cbn [defined].
  eexists. reflexivity.
Qed.


(** [centerMapOnCurrentPos] leaves position, watches and route alone. *)
Lemma centerMapOnCurrentPos_frame (w : World) :
  fst (centerMapOnCurrentPos B w) = Ok tt
  /\ gps (exec (centerMapOnCurrentPos B) w) = gps w
  /\ watches (exec (centerMapOnCurrentPos B) w) = watches w
  /\ route (exec (centerMapOnCurrentPos B) w) = route w.
Proof.
  unfold exec.
  apply (wp_run (centerMapOnCurrentPos B)
           (fun r => fst r = Ok tt /\ gps (snd r) = gps w
                     /\ watches (snd r) = watches w /\ route (snd r) = route w)).
  open_world w. unfold centerMapOnCurrentPos. wp_go.
  destruct cp as [p|], mi as [v|]; wp_go; cbn [fst snd]; state_simpl.
  all: repeat split; reflexivity.
Qed.


End Buttons.

Lemma rotaClick_rejects_incomplete_input_witness :
  exists m,
    Events.rotaClick (a_browser false) (Some "gps"%string) (Some "   "%string) initial_world
    = (Ok None, with_trace (ShowMessage m "error" :: trace initial_world) initial_world).
Proof.
  exact (rotaClick_rejects_incomplete_input (a_browser false) initial_world
           "gps"%string "   "%string (or_introl eq_refl)).
Defined.



(* ----------------------------------------------------------------- *)
(** ** The legacy page keeps one request and one route layer *)

Section LegacyRequests.

Import Legacy LegacyPage.

(** The two kinds of state the legacy page is ever in: idle, or waiting
    for one answer with the old layer already taken off the map. *)
Lemma legacy_states (p : Page) :
  legacy_reachable p ->
  (in_flight p = [] /\ is_drawing_route (globals p) = false
   /\ layers (globals p) = match rotatual (globals p) with Some l => [l] | None => [] end)
  \/ (exists q, in_flight p = [q] /\ is_drawing_route (globals p) = true
                /\ rotatual (globals p) = None /\ layers (globals p) = []).
Proof.
  induction 1 as [|p o _ IH]; [left; repeat split|].
  destruct p as [g fl]. cbn [globals in_flight] in IH.
  destruct o as [origem destino | k a |]; cbn [step globals in_flight].
  - unfold drawRoute.
    destruct IH as [(-> & Hd & Hl) | (q & -> & Hd & Hr & Hl)]; rewrite Hd.
    + right. eexists. cbn [globals in_flight app]. split; [reflexivity|].
      destruct g as [d r ls n lg]. cbn in Hd, Hl |- *. subst d.
      destruct r as [l|]; subst ls; cbn.
      * rewrite Nat.eqb_refl. cbn. repeat split.
      * repeat split.
    + right. exists q. cbn. repeat split; assumption.
  - destruct IH as [(-> & Hd & Hl) | (q & -> & Hd & Hr & Hl)].
    + left. cbn. repeat split; assumption.
    + destruct k as [|k]; cbn.
      * left. destruct g as [d r ls n lg]. cbn in Hd, Hr, Hl |- *. subst d r ls.
        destruct a as [|[|]]; cbn; repeat split.
      * right. exists q. repeat split; assumption.
  - unfold remove_route.
    destruct IH as [(-> & Hd & Hl) | (q & -> & Hd & Hr & Hl)].
    + left. destruct g as [d r ls n lg]. cbn in Hd, Hl |- *. subst d.
      destruct r as [l|]; subst ls; cbn.
      * rewrite Nat.eqb_refl. cbn. repeat split.
      * repeat split.
    + right. exists q. rewrite Hr. repeat split; assumption.
Qed.

(** X28.  On the legacy page, whatever the order in which route requests
    are made and answered and the route is removed: never more than one request is in flight, the
    flag [is_drawing_route] is up exactly while one is, and the map never
    carries more than one route layer, which is the one [rotatual]
    holds; while a request is in flight the map carries none. *)
Theorem legacy_page_keeps_one_request_and_one_layer (p : Page) :
  legacy_reachable p ->
  length (in_flight p) <= 1
  /\ (is_drawing_route (globals p) = true <-> in_flight p <> [])
  /\ layers (globals p) = match rotatual (globals p) with Some l => [l] | None => [] end
  /\ (in_flight p <> [] -> layers (globals p) = []).
Proof.
  intros H. destruct (legacy_states p H) as [(Hf & Hd & Hl) | (q & Hf & Hd & Hr & Hl)].
  - rewrite Hf, Hd. split; [cbn; lia|]. split; [split; [discriminate | congruence]|].
    split; [exact Hl|]. congruence.
  - rewrite Hf, Hd, Hr, Hl. split; [cbn; lia|]. split; [split; [discriminate | reflexivity]|].
    split; reflexivity.
Qed.

End LegacyRequests.

Lemma legacy_page_keeps_one_request_and_one_layer_witness :
  length (LegacyPage.in_flight
            (LegacyPage.step (LegacyPage.Request (0, 0)%Q (1, 1)%Q)
               (LegacyPage.step (LegacyPage.Request (0, 0)%Q (1, 1)%Q) LegacyPage.initial)))
  <= 1.
Proof.
  exact (proj1 (legacy_page_keeps_one_request_and_one_layer _
                  (LegacyPage.reach_next _ (LegacyPage.Request (0, 0)%Q (1, 1)%Q)
                     (LegacyPage.reach_next _ (LegacyPage.Request (0, 0)%Q (1, 1)%Q)
                        LegacyPage.reach_initial)))).
Defined.
